(** * A shallow embedding of the bc interpreter (absyn.h, absyn.cpp, bc.y)

    The development follows the C++ sources class by class:
    - [Number]: the [double] arithmetic the evaluator uses;
    - the abstract syntax tree of absyn.h;
    - [RuntimeContext], [SemanticContext] and [MemoryStack], one module each;
    - the [interpret] methods, as fuel-indexed functions in a small
      state-and-exception monad;
    - the semantic actions of bc.y that decide whether a command runs;
    - the properties of the interpreter. *)

From Stdlib Require Import PrimFloat.
From stdpp Require Import gmap strings list pretty.

Local Open Scope string_scope.

(** [std::endl], as far as the text written goes. *)
Definition endl : string := String (Ascii.ascii_of_nat 10) EmptyString.

(** ** Numbers: IEEE 754 binary64, the C++ [double] *)

Definition Number : Type := float.

Module Number.

Definition zero : Number := 0%float.
Definition one : Number := 1%float.

(** Conversion of a C++ [bool] to [double]. *)
Definition of_bool (b : bool) : Number := if b then one else zero.

(** [x != 0] on doubles: true for NaN, false for both zeros. *)
Definition nonzero (x : Number) : bool := negb (PrimFloat.eqb x zero).

(** [x == 0] on doubles. *)
Definition is_zero (x : Number) : bool := PrimFloat.eqb x zero.

(** [std::max(a, b)] is [(a < b) ? b : a]. *)
Definition max (a b : Number) : Number := if PrimFloat.ltb a b then b else a.

Definition two52 : Number := 4503599627370496%float.

(** [floor] of <math.h>: the largest integral value not above [x].
    Doubles of magnitude at least 2^52, infinities and NaN are their own
    floor, and so are both zeros; otherwise adding and subtracting 2^52
    rounds to a neighbouring integer, which is corrected downwards. *)
Definition floor (x : Number) : Number :=
  if PrimFloat.ltb (PrimFloat.abs x) two52 then
    if PrimFloat.eqb x zero then x
    else
      let t := if PrimFloat.ltb x zero
               then PrimFloat.add (PrimFloat.sub x two52) two52
               else PrimFloat.sub (PrimFloat.add x two52) two52 in
      if PrimFloat.ltb x t then PrimFloat.sub t one else t
  else x.

End Number.

(** ** Abstract syntax (absyn.h) *)

Inductive IncrDecr := OP_INCR | OP_DECR.

Inductive ArithmeticOp := OP_PLUS | OP_MINUS | OP_MUL | OP_DIV | OP_MOD | OP_POW.

Inductive BooleanOp := OP_LT | OP_LE | OP_GT | OP_GE | OP_EQ | OP_NE | OP_AND | OP_OR.

#[local] Unset Elimination Schemes.

Inductive Expression :=
| ConstantExpression (m_constant : Number)
| VariableExpression (m_name : string)
| PrefixOpExpression (m_name : string) (m_type : IncrDecr)
| PostfixOpExpression (m_name : string) (m_type : IncrDecr)
| ArithmeticExpression (m_lhs m_rhs : Expression) (m_type : ArithmeticOp)
| BooleanExpression (m_lhs m_rhs : Expression) (m_type : BooleanOp)
| NegationExpression (m_expr : Expression)
| AssignExpression (m_name : string) (m_expr : Expression)
| FunctionCallExpression (m_name : string) (m_argList : list Expression)
| MinusExpression (m_expr : Expression).

(** [AbsExpression::shouldDisplayResult]. *)
Definition shouldDisplayResult (e : Expression) : bool :=
  match e with
  | AssignExpression _ _ => false
  | _ => true
  end.

Inductive Statement :=
| ExpressionStatement (m_expr : Expression)
| IfStatement (m_condition : Expression) (m_trueStmt : Statement)
              (m_falseStmt : option Statement)
| WhileStatement (m_condition : Expression) (m_statement : Statement)
| BreakStatement
| ContinueStatement
| HaltStatement
| ReturnStatement (m_expr : option Expression)
| StatementList (m_statements : list Statement).

#[local] Set Elimination Schemes.

Record FunctionDefinition := {
  m_name : string;
  m_args : list string;
  m_autos : list string;
  m_commands : list Statement
}.

Definition getName (f : FunctionDefinition) : string := m_name f.
Definition getArguments (f : FunctionDefinition) : list string := m_args f.
Definition getAutoVariables (f : FunctionDefinition) : list string := m_autos f.
Definition getBody (f : FunctionDefinition) : Statement :=
  StatementList (m_commands f).

(** A command of the grammar: a function definition or a statement line. *)
Inductive Command :=
| FuncDefCommand (def : FunctionDefinition)
| StatementLineCommand (line : list Statement).

(** ** The runtime context *)

Module RuntimeContext.

Record t := {
  m_functionTable : gmap string FunctionDefinition;
  m_variables : gmap string (list Number);
  m_callStack : list FunctionDefinition
}.

Definition empty : t :=
  {| m_functionTable := ∅; m_variables := ∅; m_callStack := [] |}.

Definition with_variables (vars : gmap string (list Number)) (c : t) : t :=
  {| m_functionTable := m_functionTable c;
     m_variables := vars;
     m_callStack := m_callStack c |}.

(** [getVariable]: [find] in the map; a found entry is read with
    [top()] whatever its size, and [top()] of an empty [std::stack] is
    undefined: [None]. *)
Definition getVariable (c : t) (name : string) : option Number :=
  match m_variables c !! name with
  | Some (v :: _) => Some v
  | Some [] => None
  | None => Some Number.zero
  end.

(** [setVariable]: [operator[]] creates the entry when it is missing. *)
Definition setVariable (name : string) (value : Number) (c : t) : t :=
  match m_variables c !! name with
  | Some (_ :: rest) => with_variables (<[name := value :: rest]> (m_variables c)) c
  | _ => with_variables (<[name := [value]]> (m_variables c)) c
  end.

Definition addFunctionDefinition (definition : FunctionDefinition) (c : t) : t :=
  {| m_functionTable := <[getName definition := definition]> (m_functionTable c);
     m_variables := m_variables c;
     m_callStack := m_callStack c |}.

Definition getFunctionDefinition (c : t) (name : string) : option FunctionDefinition :=
  m_functionTable c !! name.

(** [addVariable]: push on the stack of [name]. *)
Definition addVariable (name : string) (value : Number) (c : t) : t :=
  with_variables (<[name := value :: default [] (m_variables c !! name)]> (m_variables c)) c.

(** [delVariable]: pop the stack of [name]; [pop()] of an empty stack is
    undefined: [None]. *)
Definition delVariable (name : string) (c : t) : option t :=
  match m_variables c !! name with
  | Some (_ :: rest) => Some (with_variables (<[name := rest]> (m_variables c)) c)
  | _ => None
  end.

(** The parameter loop of [enterFunction]: both lists are walked
    together and the loop stops at the end of the shorter one. *)
Fixpoint addParameters (params : list string) (values : list Number) (c : t) : t :=
  match params, values with
  | p :: params', v :: values' => addParameters params' values' (addVariable p v c)
  | _, _ => c
  end.

Fixpoint addAutos (autos : list string) (c : t) : t :=
  match autos with
  | [] => c
  | a :: autos' => addAutos autos' (addVariable a Number.zero c)
  end.

Definition pushCall (function : FunctionDefinition) (c : t) : t :=
  {| m_functionTable := m_functionTable c;
     m_variables := m_variables c;
     m_callStack := function :: m_callStack c |}.

(** [enterFunction]; the outer [None] is the failed [assert]. *)
Definition enterFunction (function : FunctionDefinition) (argValues : list Number)
    (c : t) : option t :=
  if decide (length (getArguments function) = length argValues) then
    Some (pushCall function
            (addAutos (getAutoVariables function)
               (addParameters (getArguments function) argValues c)))
  else None.

Fixpoint delVariables (names : list string) (c : t) : option t :=
  match names with
  | [] => Some c
  | x :: names' =>
      match delVariable x c with
      | Some c' => delVariables names' c'
      | None => None
      end
  end.

Inductive ExitResult :=
| Exited (c : t)
| ExitAssertFailed
| ExitUndefined.

(** [exitFunction]: pop the call stack, then the auto variables, then
    the parameters. *)
Definition exitFunction (c : t) : ExitResult :=
  match m_callStack c with
  | [] => ExitAssertFailed
  | function :: callers =>
      let c1 := {| m_functionTable := m_functionTable c;
                   m_variables := m_variables c;
                   m_callStack := callers |} in
      match delVariables (getAutoVariables function) c1 with
      | Some c2 =>
          match delVariables (getArguments function) c2 with
          | Some c3 => Exited c3
          | None => ExitUndefined
          end
      | None => ExitUndefined
      end
  end.

(** The message [throwError] builds for its [RuntimeException]. *)
Definition throwError (c : t) (errmessage : string) : string :=
  let currFunc := match m_callStack c with
                  | [] => "(main)"
                  | function :: _ => getName function
                  end in
  "runtime error in function " +:+ currFunc +:+ ": " +:+ errmessage +:+ ".".

End RuntimeContext.

(** ** Exceptions and results of [interpret] *)

(** The exception classes of absyn.h. *)
Inductive Exception :=
| ContinueFlowException
| BreakFlowException
| HaltFlowException
| ReturnFlowException (m_value : Number)
| RuntimeException (m_message : string).

(** What a call of [interpret] does: it returns a value, throws, runs
    into undefined behaviour of the C++ library ([top()] or [pop()] of an
    empty stack), fails an [assert], or is still running when the fuel of
    the model is used up. *)
Inductive Result (A : Type) :=
| Returns (a : A)
| Throws (ex : Exception)
| Undefined
| AssertFailed
| OutOfFuel.

Arguments Returns {A} a.
Arguments Throws {A} ex.
Arguments Undefined {A}.
Arguments AssertFailed {A}.
Arguments OutOfFuel {A}.

(** The mutable state [interpret] works on: the [RuntimeContext] and the
    values written to the output stream [o], oldest first. *)
Record State := {
  context : RuntimeContext.t;
  o : list Number
}.

Definition with_context (c : RuntimeContext.t) (st : State) : State :=
  {| context := c; o := o st |}.

Definition Interp (A : Type) : Type := State -> Result A * State.

Definition ret {A} (a : A) : Interp A := fun st => (Returns a, st).

Definition throw {A} (ex : Exception) : Interp A := fun st => (Throws ex, st).

Definition bind {A B} (m : Interp A) (k : A -> Interp B) : Interp B :=
  fun st =>
    match m st with
    | (Returns a, st') => k a st'
    | (Throws ex, st') => (Throws ex, st')
    | (Undefined, st') => (Undefined, st')
    | (AssertFailed, st') => (AssertFailed, st')
    | (OutOfFuel, st') => (OutOfFuel, st')
    end.

Notation "'let*' x := m 'in' k" := (bind m (fun x => k))
  (at level 10, x name, m at level 200, k at level 200,
   format "'[v' 'let*'  x  :=  m  'in' '/' k ']'").

(** [context->getVariable(name)]. *)
Definition getVariable (name : string) : Interp Number :=
  fun st =>
    match RuntimeContext.getVariable (context st) name with
    | Some v => (Returns v, st)
    | None => (Undefined, st)
    end.

(** [context->setVariable(name, value)]. *)
Definition setVariable (name : string) (value : Number) : Interp unit :=
  fun st => (Returns tt, with_context (RuntimeContext.setVariable name value (context st)) st).

(** [context->throwError(errmessage)]. *)
Definition throwError {A} (errmessage : string) : Interp A :=
  fun st => (Throws (RuntimeException (RuntimeContext.throwError (context st) errmessage)), st).

(** [context->enterFunction(functionDef, argumentValues)]. *)
Definition enterFunction (functionDef : FunctionDefinition) (argumentValues : list Number)
    : Interp unit :=
  fun st =>
    match RuntimeContext.enterFunction functionDef argumentValues (context st) with
    | Some c => (Returns tt, with_context c st)
    | None => (AssertFailed, st)
    end.

(** [context->exitFunction()]. *)
Definition exitFunction : Interp unit :=
  fun st =>
    match RuntimeContext.exitFunction (context st) with
    | RuntimeContext.Exited c => (Returns tt, with_context c st)
    | RuntimeContext.ExitAssertFailed => (AssertFailed, st)
    | RuntimeContext.ExitUndefined => (Undefined, st)
    end.

(** [o << result << std::endl]. *)
Definition display (result : Number) : Interp unit :=
  fun st => (Returns tt, {| context := context st; o := o st ++ [result] |}).

Definition out_of_fuel {A} : Interp A := fun st => (OutOfFuel, st).

(** ** The [interpret] methods (absyn.cpp) *)

(** The loop of [StatementList::interpret]. *)
Fixpoint interpretList (interpret : Statement -> Interp Number) (m_statements : list Statement)
    : Interp Number :=
  match m_statements with
  | [] => ret Number.zero
  | s :: rest => let* _ := interpret s in interpretList interpret rest
  end.

(** The argument loop of [FunctionCallExpression::interpret]:
    each argument is interpreted and its value appended to
    [argumentValues], first argument first. *)
Fixpoint interpretArguments (interpret : Expression -> Interp Number)
    (m_argList : list Expression) : Interp (list Number) :=
  match m_argList with
  | [] => ret []
  | e :: rest =>
      let* v := interpret e in
      let* vs := interpretArguments interpret rest in
      ret (v :: vs)
  end.

(** The [try] block of [FunctionCallExpression::interpret] with its two
    handlers and the code after it. *)
Definition tryBody (body : Interp Number) : Interp Number :=
  fun st =>
    match body st with
    | (Returns _, st') => (let* _ := exitFunction in ret Number.zero) st'
    | (Throws (ReturnFlowException value), st') => (let* _ := exitFunction in ret value) st'
    | (Throws ex, st') => (let* _ := exitFunction in throw ex) st'
    | (Undefined, st') => (Undefined, st')
    | (AssertFailed, st') => (AssertFailed, st')
    | (OutOfFuel, st') => (OutOfFuel, st')
    end.

(** One round of the loop of [WhileStatement::interpret], entered with a
    condition that is not zero: [again] evaluates the condition anew and
    goes on with the loop. *)
Definition whileBody (body again : Interp Number) : Interp Number :=
  fun st =>
    match body st with
    | (Returns _, st') => again st'
    | (Throws ContinueFlowException, st') => again st'
    | (Throws BreakFlowException, st') => (Returns Number.zero, st')
    | other => other
    end.

Definition incrDecr (m_type : IncrDecr) (value : Number) : Number :=
  match m_type with
  | OP_INCR => PrimFloat.add value Number.one
  | OP_DECR => PrimFloat.sub value Number.one
  end.

(** The [switch] of [BooleanExpression::interpret]. *)
Definition boolean (m_type : BooleanOp) (lhs rhs : Number) : Number :=
  Number.of_bool
    match m_type with
    | OP_LT => PrimFloat.ltb lhs rhs
    | OP_LE => PrimFloat.leb lhs rhs
    | OP_GT => PrimFloat.ltb rhs lhs
    | OP_GE => PrimFloat.leb rhs lhs
    | OP_EQ => PrimFloat.eqb lhs rhs
    | OP_NE => negb (PrimFloat.eqb lhs rhs)
    | OP_AND => Number.nonzero lhs && Number.nonzero rhs
    | OP_OR => Number.nonzero lhs || Number.nonzero rhs
    end.

Section Interpreter.

(** [pow] of <math.h>, which the C standard leaves to the library. *)
Variable pow : Number -> Number -> Number.

(** The [switch] of [ArithmeticExpression::interpret]. *)
Definition arithmetic (m_type : ArithmeticOp) (lhs rhs : Number) : Interp Number :=
  match m_type with
  | OP_PLUS => ret (PrimFloat.add lhs rhs)
  | OP_MINUS => ret (PrimFloat.sub lhs rhs)
  | OP_MUL => ret (PrimFloat.mul lhs rhs)
  | OP_DIV =>
      if Number.is_zero rhs then throwError "division by zero"
      else ret (PrimFloat.div lhs rhs)
  | OP_MOD =>
      if Number.is_zero rhs then throwError "modulo zero"
      else ret (PrimFloat.sub lhs (PrimFloat.mul (Number.floor (PrimFloat.div lhs rhs)) rhs))
  | OP_POW => ret (pow lhs (Number.max Number.zero (Number.floor rhs)))
  end.

(** [AbsExpression::interpret] and [AbsStatement::interpret], one case for
    each class. Every virtual call of [interpret] takes one unit of
    [fuel], and so does every round of a [while]: after the body, the loop
    evaluates its condition anew and goes on, which is the [while]
    statement run again in the state the body left. *)
Fixpoint interpretExpression (fuel : nat) (e : Expression) {struct fuel} : Interp Number :=
  match fuel with
  | O => out_of_fuel
  | S n =>
      match e with
      | ConstantExpression m_constant => ret m_constant
      | VariableExpression m_name => getVariable m_name
      | PrefixOpExpression m_name m_type =>
          let* value := getVariable m_name in
          let* _ := setVariable m_name (incrDecr m_type value) in
          ret (incrDecr m_type value)
      | PostfixOpExpression m_name m_type =>
          let* oldvalue := getVariable m_name in
          let* _ := setVariable m_name (incrDecr m_type oldvalue) in
          ret oldvalue
      | ArithmeticExpression m_lhs m_rhs m_type =>
          let* lhs := interpretExpression n m_lhs in
          let* rhs := interpretExpression n m_rhs in
          arithmetic m_type lhs rhs
      | BooleanExpression m_lhs m_rhs m_type =>
          let* lhs := interpretExpression n m_lhs in
          let* rhs := interpretExpression n m_rhs in
          ret (boolean m_type lhs rhs)
      | NegationExpression m_expr =>
          let* value := interpretExpression n m_expr in
          ret (Number.of_bool (negb (Number.nonzero value)))
      | AssignExpression m_name m_expr =>
          let* value := interpretExpression n m_expr in
          let* _ := setVariable m_name value in
          ret value
      | FunctionCallExpression m_name m_argList =>
          fun st =>
            match RuntimeContext.getFunctionDefinition (context st) m_name with
            | None => throwError ("function '" +:+ m_name +:+ "' not defined") st
            | Some functionDef =>
                if negb (Nat.eqb (length (getArguments functionDef)) (length m_argList))
                then throwError ("wrong number of arguments for function '" +:+ m_name +:+ "'") st
                else
                  (let* argumentValues := interpretArguments (interpretExpression n) m_argList in
                   let* _ := enterFunction functionDef argumentValues in
                   tryBody (interpretStatement n (getBody functionDef))) st
            end
      | MinusExpression m_expr =>
          let* value := interpretExpression n m_expr in
          ret (PrimFloat.opp value)
      end
  end

with interpretStatement (fuel : nat) (s : Statement) {struct fuel} : Interp Number :=
  match fuel with
  | O => out_of_fuel
  | S n =>
      match s with
      | ExpressionStatement m_expr =>
          let* result := interpretExpression n m_expr in
          if shouldDisplayResult m_expr
          then let* _ := display result in ret Number.zero
          else ret Number.zero
      | IfStatement m_condition m_trueStmt m_falseStmt =>
          let* condition := interpretExpression n m_condition in
          if Number.nonzero condition
          then let* _ := interpretStatement n m_trueStmt in ret Number.zero
          else match m_falseStmt with
               | Some falseStmt => let* _ := interpretStatement n falseStmt in ret Number.zero
               | None => ret Number.zero
               end
      | WhileStatement m_condition m_statement =>
          let* condition := interpretExpression n m_condition in
          if Number.nonzero condition
          then whileBody (interpretStatement n m_statement)
                         (interpretStatement n (WhileStatement m_condition m_statement))
          else ret Number.zero
      | BreakStatement => throw BreakFlowException
      | ContinueStatement => throw ContinueFlowException
      | HaltStatement => throw HaltFlowException
      | ReturnStatement m_expr =>
          match m_expr with
          | Some expr =>
              let* value := interpretExpression n expr in
              throw (ReturnFlowException value)
          | None => throw (ReturnFlowException Number.zero)
          end
      | StatementList m_statements => interpretList (interpretStatement n) m_statements
      end
  end.

End Interpreter.

(** ** The semantic context (bc.y) *)

Module SemanticContext.

(** [m_while] is an [int] counting the enclosing [while] heads; nesting
    depth stays far below the range of [int], so it is an integer here.
    [printed] is no member of the class: it holds what the context has
    written to the global [cerr] since its last [reset], oldest first,
    one entry for each call of [printError], which is the [error] the
    call was made with. *)
Record t := {
  m_inFunction : bool;
  m_funcArgs : option (list string);
  m_while : Z;
  m_error : bool;
  printed : list string
}.

Definition reset : t :=
  {| m_inFunction := false; m_funcArgs := None; m_while := 0; m_error := false;
     printed := [] |}.

Definition enterFunction (c : t) : t :=
  {| m_inFunction := true; m_funcArgs := m_funcArgs c;
     m_while := m_while c; m_error := m_error c; printed := printed c |}.

Definition setFunctionArguments (funcArgs : list string) (c : t) : t :=
  {| m_inFunction := m_inFunction c; m_funcArgs := Some funcArgs;
     m_while := m_while c; m_error := m_error c; printed := printed c |}.

Definition exitFunction (c : t) : t :=
  {| m_inFunction := false; m_funcArgs := None;
     m_while := m_while c; m_error := m_error c; printed := printed c |}.

Definition enterWhile (c : t) : t :=
  {| m_inFunction := m_inFunction c; m_funcArgs := m_funcArgs c;
     m_while := (m_while c + 1)%Z; m_error := m_error c; printed := printed c |}.

Definition exitWhile (c : t) : t :=
  {| m_inFunction := m_inFunction c; m_funcArgs := m_funcArgs c;
     m_while := (m_while c - 1)%Z; m_error := m_error c; printed := printed c |}.

Definition isInWhile (c : t) : bool := (0 <? m_while c)%Z.
Definition isInFunction (c : t) : bool := m_inFunction c.
Definition detectedError (c : t) : bool := m_error c.

(** The text [printError] writes to [cerr]. *)
Definition printError (error : string) (line_nr col_nr : Z) : string :=
  endl +:+ "semantic error: " +:+ error +:+ " at line " +:+ pretty line_nr
    +:+ ", column " +:+ pretty col_nr +:+ "." +:+ endl.

(** [m_error = true; printError(error, line_nr, col_nr)]. The position
    is that of a token; the syntax tree holds none, and the checks depend
    on none, so the call of [printError] is recorded by its [error]. *)
Definition flagError (error : string) (c : t) : t :=
  {| m_inFunction := m_inFunction c; m_funcArgs := m_funcArgs c;
     m_while := m_while c; m_error := true; printed := printed c ++ [error] |}.

Definition checkBreak (c : t) : t :=
  if negb (isInWhile c) then flagError "break outside while" c else c.

Definition checkContinue (c : t) : t :=
  if negb (isInWhile c) then flagError "continue outside while" c else c.

Definition checkReturn (c : t) : t :=
  if negb (isInFunction c) then flagError "return outside function definition" c else c.

Definition isStringInList (stringlist : list string) (s : string) : bool :=
  existsb (String.eqb s) stringlist.

Definition checkFunctionVariable (currVariableList : list string) (nextVar : string)
    (c : t) : t :=
  if isStringInList currVariableList nextVar
  then flagError "duplicate name in parameter or auto variable list" c
  else match m_funcArgs c with
       | Some funcArgs =>
           if isStringInList funcArgs nextVar
           then flagError "duplicate name in parameter or auto variable list" c
           else c
       | None => c
       end.

End SemanticContext.

(** The semantic actions the parser runs while it reduces a statement, in
    the order of the reductions: the mid-rule action [enterWhile] comes
    before the body of a [while], [exitWhile] after it, and [break],
    [continue] and [return] are checked when they are reduced.
    Expressions have no semantic actions. *)
Fixpoint checkStatement (s : Statement) (c : SemanticContext.t) : SemanticContext.t :=
  match s with
  | ExpressionStatement _ => c
  | IfStatement _ trueStmt falseStmt =>
      let c1 := checkStatement trueStmt c in
      match falseStmt with
      | Some stmt => checkStatement stmt c1
      | None => c1
      end
  | WhileStatement _ body =>
      SemanticContext.exitWhile (checkStatement body (SemanticContext.enterWhile c))
  | BreakStatement => SemanticContext.checkBreak c
  | ContinueStatement => SemanticContext.checkContinue c
  | HaltStatement => c
  | ReturnStatement _ => SemanticContext.checkReturn c
  | StatementList stmts =>
      (fix checkStatements (l : list Statement) (c : SemanticContext.t) :=
         match l with
         | [] => c
         | s' :: l' => checkStatements l' (checkStatement s' c)
         end) stmts c
  end.

(** The rule [variablelist]: every name is checked against the names
    before it in the same list, then appended. *)
Fixpoint checkVariableList (seen names : list string) (c : SemanticContext.t)
    : SemanticContext.t :=
  match names with
  | [] => c
  | x :: names' =>
      checkVariableList (seen ++ [x]) names' (SemanticContext.checkFunctionVariable seen x c)
  end.

(** The semantic actions of the rule [funcdef]. *)
Definition checkFuncDef (def : FunctionDefinition) (c : SemanticContext.t)
    : SemanticContext.t :=
  let c1 := SemanticContext.enterFunction c in
  let c2 := checkVariableList [] (m_args def) c1 in
  let c3 := SemanticContext.setFunctionArguments (m_args def) c2 in
  let c4 := checkVariableList [] (m_autos def) c3 in
  let c5 := checkStatement (StatementList (m_commands def)) c4 in
  SemanticContext.exitFunction c5.

(** ** The actions of the rule [command] and the parse loop *)

(** What is written to [cerr]: a text, or the diagnostic of a semantic
    check, which stands for the text of [SemanticContext.printError] with
    the position of the token the check was called for. *)
Inductive Line :=
| Text (s : string)
| Diagnostic (error : string).

Definition written (line_nr col_nr : Z) (l : Line) : string :=
  match l with
  | Text s => s
  | Diagnostic error => SemanticContext.printError error line_nr col_nr
  end.

Record Interpreter := {
  runContext : RuntimeContext.t;
  cout : list Number;
  cerr : list Line
}.

Definition initial : Interpreter :=
  {| runContext := RuntimeContext.empty; cout := []; cerr := [] |}.

(** Where [yyparse] stands after a command: it goes on parsing, it has
    accepted after [halt], an exception no handler catches has ended the
    process, or the evaluation had no defined result. *)
Inductive Status :=
| Parsing
| Accepted
| Terminated (ex : Exception)
| Stuck (r : Result Number).

Section Driver.

Variable pow : Number -> Number -> Number.

(** The parse of a command has run its semantic checks, from a context
    that was reset, before the action of [command] runs: what they
    printed is on [cerr] by then. *)
Definition parsed (c : SemanticContext.t) (i : Interpreter) : Interpreter :=
  {| runContext := runContext i; cout := cout i;
     cerr := cerr i ++ map Diagnostic (SemanticContext.printed c) |}.

Definition command (fuel : nat) (cmd : Command) (i : Interpreter) : Status * Interpreter :=
  match cmd with
  | FuncDefCommand def =>
      let c := checkFuncDef def SemanticContext.reset in
      let i := parsed c i in
      if SemanticContext.detectedError c
      then (Parsing, i)
      else (Parsing, {| runContext := RuntimeContext.addFunctionDefinition def (runContext i);
                        cout := cout i; cerr := cerr i |})
  | StatementLineCommand line =>
      let c := checkStatement (StatementList line) SemanticContext.reset in
      let i := parsed c i in
      if SemanticContext.detectedError c
      then (Parsing, i)
      else
        match interpretStatement pow fuel (StatementList line)
                {| context := runContext i; o := cout i |} with
        | (Returns _, st) =>
            (Parsing, {| runContext := context st; cout := o st; cerr := cerr i |})
        | (Throws (RuntimeException message), st) =>
            (Parsing, {| runContext := context st; cout := o st;
                         cerr := cerr i ++ [Text (endl +:+ message +:+ endl)] |})
        | (Throws HaltFlowException, st) =>
            (Accepted, {| runContext := context st; cout := o st; cerr := cerr i |})
        | (Throws ex, st) =>
            (Terminated ex, {| runContext := context st; cout := o st; cerr := cerr i |})
        | (r, st) =>
            (Stuck r, {| runContext := context st; cout := o st; cerr := cerr i |})
        end
  end.

(** The rule [prog : prog command]: commands run in order, each one
    checked from a reset semantic context. *)
Fixpoint prog (fuel : nat) (cmds : list Command) (i : Interpreter) : Status * Interpreter :=
  match cmds with
  | [] => (Parsing, i)
  | cmd :: rest =>
      match command fuel cmd i with
      | (Parsing, i') => prog fuel rest i'
      | stopped => stopped
      end
  end.

End Driver.

(** An instance of [pow] for the examples: powers with a small
    non-negative integral exponent by repeated multiplication, which is
    exact where the mathematical result is a double. *)
Fixpoint pow_iter (fuel : nat) (x y : Number) : Number :=
  match fuel with
  | O => Number.one
  | S fuel' =>
      if PrimFloat.leb y Number.zero then Number.one
      else PrimFloat.mul x (pow_iter fuel' x (PrimFloat.sub y Number.one))
  end.

Definition pow_small (x y : Number) : Number := pow_iter 64 x y.

(** ** The memory stack and the parser actions that build expressions *)

(** Heap addresses: what [new] returns. *)
Definition pointer : Type := nat.

Module MemoryStack.

Inductive PointerType := AbsynPointer | CharListPointer | AbsExprListPointer.

Record t := {
  m_pointerTypes : list PointerType;
  m_absynPointers : list pointer;
  m_charListPointers : list pointer;
  m_absExprListPointers : list pointer;
  m_charPointers : list pointer
}.

Definition empty : t :=
  {| m_pointerTypes := []; m_absynPointers := []; m_charListPointers := [];
     m_absExprListPointers := []; m_charPointers := [] |}.

(** [push] of an [Absyn] pointer. *)
Definition push (absynPointer : pointer) (m : t) : t :=
  {| m_pointerTypes := AbsynPointer :: m_pointerTypes m;
     m_absynPointers := absynPointer :: m_absynPointers m;
     m_charListPointers := m_charListPointers m;
     m_absExprListPointers := m_absExprListPointers m;
     m_charPointers := m_charPointers m |}.

(** [push] of a pointer to a list of strings. *)
Definition pushCharList (charListPointer : pointer) (m : t) : t :=
  {| m_pointerTypes := CharListPointer :: m_pointerTypes m;
     m_absynPointers := m_absynPointers m;
     m_charListPointers := charListPointer :: m_charListPointers m;
     m_absExprListPointers := m_absExprListPointers m;
     m_charPointers := m_charPointers m |}.

(** [push] of a pointer to a list of expressions. *)
Definition pushAbsExprList (absExprListPointer : pointer) (m : t) : t :=
  {| m_pointerTypes := AbsExprListPointer :: m_pointerTypes m;
     m_absynPointers := m_absynPointers m;
     m_charListPointers := m_charListPointers m;
     m_absExprListPointers := absExprListPointer :: m_absExprListPointers m;
     m_charPointers := m_charPointers m |}.

(** [pop()]; [None] where the code calls [top()] or [pop()] on an empty
    stack. *)
Definition pop (m : t) : option t :=
  match m_pointerTypes m with
  | [] => None
  | AbsynPointer :: types =>
      match m_absynPointers m with
      | [] => None
      | _ :: ps =>
          Some {| m_pointerTypes := types; m_absynPointers := ps;
                  m_charListPointers := m_charListPointers m;
                  m_absExprListPointers := m_absExprListPointers m;
                  m_charPointers := m_charPointers m |}
      end
  | CharListPointer :: types =>
      match m_charListPointers m with
      | [] => None
      | _ :: ps =>
          Some {| m_pointerTypes := types; m_absynPointers := m_absynPointers m;
                  m_charListPointers := ps;
                  m_absExprListPointers := m_absExprListPointers m;
                  m_charPointers := m_charPointers m |}
      end
  | AbsExprListPointer :: types =>
      match m_absExprListPointers m with
      | [] => None
      | _ :: ps =>
          Some {| m_pointerTypes := types; m_absynPointers := m_absynPointers m;
                  m_charListPointers := m_charListPointers m;
                  m_absExprListPointers := ps;
                  m_charPointers := m_charPointers m |}
      end
  end.

(** [pop(int num)]. *)
Fixpoint popN (num : nat) (m : t) : option t :=
  match num with
  | O => Some m
  | S num' =>
      match pop m with
      | Some m' => popN num' m'
      | None => None
      end
  end.

(** [popAndPush] with an [Absyn] pointer. *)
Definition popAndPush (num : nat) (absynPointer : pointer) (m : t) : option t :=
  match popN num m with
  | Some m' => Some (push absynPointer m')
  | None => None
  end.

Definition addString (charPointer : pointer) (m : t) : t :=
  {| m_pointerTypes := m_pointerTypes m;
     m_absynPointers := m_absynPointers m;
     m_charListPointers := m_charListPointers m;
     m_absExprListPointers := m_absExprListPointers m;
     m_charPointers := charPointer :: m_charPointers m |}.

(** The loop of [useString]: erase the first entry equal to the
    pointer. *)
Fixpoint eraseFirst (charPointer : pointer) (l : list pointer) : list pointer :=
  match l with
  | [] => []
  | p :: l' => if Nat.eqb p charPointer then l' else p :: eraseFirst charPointer l'
  end.

Definition useString (charPointer : pointer) (m : t) : t :=
  {| m_pointerTypes := m_pointerTypes m;
     m_absynPointers := m_absynPointers m;
     m_charListPointers := m_charListPointers m;
     m_absExprListPointers := m_absExprListPointers m;
     m_charPointers := eraseFirst charPointer (m_charPointers m) |}.

(** How often the stack of [Absyn] pointers holds [p]. *)
Definition tracked (m : t) (p : pointer) : nat :=
  length (filter (λ q, q = p) (m_absynPointers m)).

End MemoryStack.

(** The objects the expression rules allocate, children by address. *)
Inductive Node :=
| NewString (s : string)
| NewExpressionList (elements : list pointer)
| NewConstantExpression (constant : Number)
| NewVariableExpression (name : pointer)
| NewPrefixOpExpression (name : pointer) (type : IncrDecr)
| NewPostfixOpExpression (name : pointer) (type : IncrDecr)
| NewArithmeticExpression (lhs rhs : pointer) (type : ArithmeticOp)
| NewBooleanExpression (lhs rhs : pointer) (type : BooleanOp)
| NewNegationExpression (expr : pointer)
| NewAssignExpression (name expr : pointer)
| NewFunctionCallExpression (name argList : pointer)
| NewMinusExpression (expr : pointer).

(** The pointers an object owns and frees in its destructor. *)
Definition children (n : Node) : list pointer :=
  match n with
  | NewString _ | NewConstantExpression _ => []
  | NewExpressionList elements => elements
  | NewVariableExpression name
  | NewPrefixOpExpression name _
  | NewPostfixOpExpression name _ => [name]
  | NewArithmeticExpression lhs rhs _
  | NewBooleanExpression lhs rhs _ => [lhs; rhs]
  | NewNegationExpression expr | NewMinusExpression expr => [expr]
  | NewAssignExpression name expr => [name; expr]
  | NewFunctionCallExpression name argList => [name; argList]
  end.

Module Parser.

(** The heap (objects by address, next free address) and [memStack]. *)
Record t := {
  heap : list (pointer * Node);
  next : pointer;
  memStack : MemoryStack.t
}.

Definition initial : t :=
  {| heap := []; next := 0; memStack := MemoryStack.empty |}.

(** [new]. *)
Definition new (n : Node) (p : t) : pointer * t :=
  (next p, {| heap := (next p, n) :: heap p; next := S (next p); memStack := memStack p |}).

Definition withMemStack (f : MemoryStack.t -> option MemoryStack.t) (p : t) : option t :=
  match f (memStack p) with
  | Some m => Some {| heap := heap p; next := next p; memStack := m |}
  | None => None
  end.

(** The lexer action [copystring] for a [NAME] token. *)
Definition copystring (yytext : string) (p : t) : pointer * t :=
  let '(s, p1) := new (NewString yytext) p in
  (s, {| heap := heap p1; next := next p1;
         memStack := MemoryStack.addString s (memStack p1) |}).

(** The right-hand sides of the rule [expression] with the semantic
    values of their symbols. *)
Inductive Production :=
| NUMBER (v1 : Number)
| NAME (v1 : pointer)
| INCR_NAME (v2 : pointer)
| DECR_NAME (v2 : pointer)
| NAME_INCR (v1 : pointer)
| NAME_DECR (v1 : pointer)
| Arithmetic (v1 : pointer) (op : ArithmeticOp) (v3 : pointer)
| Boolean (v1 : pointer) (op : BooleanOp) (v3 : pointer)
| NOT (v2 : pointer)
| LPAREN_RPAREN (v2 : pointer)
| NAME_ASSIGN (v1 v3 : pointer)
| NAME_OPASSIGN (v1 : pointer) (op : ArithmeticOp) (v3 : pointer)
| NAME_LPAREN_RPAREN (v1 v3 : pointer)
| MINUS (v2 : pointer).

Definition stringAt (p : t) (s : pointer) : string :=
  match List.find (λ entry, Nat.eqb (fst entry) s) (heap p) with
  | Some (_, NewString text) => text
  | _ => ""
  end.

(** The action of each rule: the value of [$$] and the parser after it;
    [None] where the memory stack is popped while empty. *)
Definition reduce (rhs : Production) (p : t) : option (pointer * t) :=
  let finish (result : pointer) (f : MemoryStack.t -> option MemoryStack.t) (p' : t) :=
    match withMemStack f p' with
    | Some p'' => Some (result, p'')
    | None => None
    end in
  match rhs with
  | NUMBER v1 =>
      let '(r, p1) := new (NewConstantExpression v1) p in
      finish r (λ m, Some (MemoryStack.push r m)) p1
  | NAME v1 =>
      let '(r, p1) := new (NewVariableExpression v1) p in
      finish r (λ m, Some (MemoryStack.push r (MemoryStack.useString v1 m))) p1
  | INCR_NAME v2 =>
      let '(r, p1) := new (NewPrefixOpExpression v2 OP_INCR) p in
      finish r (λ m, Some (MemoryStack.push r (MemoryStack.useString v2 m))) p1
  | DECR_NAME v2 =>
      let '(r, p1) := new (NewPrefixOpExpression v2 OP_DECR) p in
      finish r (λ m, Some (MemoryStack.push r (MemoryStack.useString v2 m))) p1
  | NAME_INCR v1 =>
      let '(r, p1) := new (NewPostfixOpExpression v1 OP_INCR) p in
      finish r (λ m, Some (MemoryStack.push r (MemoryStack.useString v1 m))) p1
  | NAME_DECR v1 =>
      let '(r, p1) := new (NewPostfixOpExpression v1 OP_DECR) p in
      finish r (λ m, Some (MemoryStack.push r (MemoryStack.useString v1 m))) p1
  | Arithmetic v1 op v3 =>
      let '(r, p1) := new (NewArithmeticExpression v1 v3 op) p in
      finish r (MemoryStack.popAndPush 2 r) p1
  | Boolean v1 op v3 =>
      let '(r, p1) := new (NewBooleanExpression v1 v3 op) p in
      finish r (MemoryStack.popAndPush 2 r) p1
  | NOT v2 =>
      let '(r, p1) := new (NewNegationExpression v2) p in
      finish r (MemoryStack.popAndPush 1 r) p1
  | LPAREN_RPAREN v2 => Some (v2, p)
  | NAME_ASSIGN v1 v3 =>
      let '(r, p1) := new (NewAssignExpression v1 v3) p in
      finish r (λ m, MemoryStack.popAndPush 1 r (MemoryStack.useString v1 m)) p1
  | NAME_OPASSIGN v1 op v3 =>
      let '(copy, p1) := new (NewString (stringAt p v1)) p in
      let '(var, p2) := new (NewVariableExpression copy) p1 in
      let '(sum, p3) := new (NewArithmeticExpression var v3 op) p2 in
      let '(r, p4) := new (NewAssignExpression v1 sum) p3 in
      finish r (λ m, MemoryStack.popAndPush 1 r (MemoryStack.useString v1 m)) p4
  | NAME_LPAREN_RPAREN v1 v3 =>
      let '(r, p1) := new (NewFunctionCallExpression v1 v3) p in
      finish r (λ m, MemoryStack.popAndPush 1 r (MemoryStack.useString v1 m)) p1
  | MINUS v2 =>
      let '(r, p1) := new (NewMinusExpression v2) p in
      Some (r, p1)
  end.

(** An object is attached when a live object owns it. *)
Definition attached (p : t) (a : pointer) : bool :=
  existsb (λ entry, existsb (Nat.eqb a) (children (snd entry))) (heap p).

Definition live (p : t) (a : pointer) : bool :=
  existsb (λ entry, Nat.eqb (fst entry) a) (heap p).

End Parser.

(** The syntax tree [x op= e] is parsed into (bc.y, the rules for
    [PLUSASSIGN] to [POWASSIGN]). *)
Definition compoundAssign (name : string) (op : ArithmeticOp) (e : Expression) : Expression :=
  AssignExpression name (ArithmeticExpression (VariableExpression name) e op).

(** ** Vocabulary of the properties *)

(** A result that C++ defines: a returned value or a thrown exception. *)
Definition defined {A} (r : Result A) : Prop :=
  match r with
  | Returns _ | Throws _ => True
  | _ => False
  end.

(** The non-local transfers a [while] or a function call is meant to
    catch. *)
Definition isLoopFlow {A} (r : Result A) : Prop :=
  r = Throws BreakFlowException \/ r = Throws ContinueFlowException.

Definition isReturnFlow {A} (r : Result A) : Prop :=
  exists value, r = Throws (ReturnFlowException value).

(** The number of bindings of [x]: the size of its stack. *)
Definition depth (x : string) (c : RuntimeContext.t) : nat :=
  length (default [] (RuntimeContext.m_variables c !! x)).

(** How often [x] is named in a list of parameters or auto variables. *)
Definition occurrences (x : string) (names : list string) : nat :=
  length (filter (λ y, y = x) names).

(** What a call delivers for each way its body ends, when the unwinding
    succeeds. *)
Definition callResult (body : Result Number) : Result Number :=
  match body with
  | Returns _ => Returns Number.zero
  | Throws (ReturnFlowException value) => Returns value
  | other => other
  end.

(** The runtime context a function body starts in. *)
Definition entered (functionDef : FunctionDefinition) (argumentValues : list Number)
    (st : State) : State :=
  with_context
    (RuntimeContext.pushCall functionDef
       (RuntimeContext.addAutos (getAutoVariables functionDef)
          (RuntimeContext.addParameters (getArguments functionDef) argumentValues
             (context st)))) st.

(** Every stored function definition passed the semantic checks of its
    [define] command. *)
Definition functionsChecked (c : RuntimeContext.t) : Prop :=
  forall name def,
    RuntimeContext.m_functionTable c !! name = Some def ->
    SemanticContext.detectedError (checkFuncDef def SemanticContext.reset) = false.

(** The two evaluation orders of a compound assignment. *)
Section CompoundAssignment.

Variable pow : Number -> Number -> Number.

(** Read [x], evaluate [e], combine, store. *)
Definition readEvaluateCombineStore (fuel : nat) (x : string) (op : ArithmeticOp)
    (e : Expression) : Interp Number :=
  let* lhs := getVariable x in
  let* rhs := interpretExpression pow fuel e in
  let* value := arithmetic pow op lhs rhs in
  let* _ := setVariable x value in
  ret value.

(** Follows the specification's words: evaluate [e], read [x], combine,
    store. *)
Definition evaluateReadCombineStore (fuel : nat) (x : string) (op : ArithmeticOp)
    (e : Expression) : Interp Number :=
  let* rhs := interpretExpression pow fuel e in
  let* lhs := getVariable x in
  let* value := arithmetic pow op lhs rhs in
  let* _ := setVariable x value in
  ret value.

End CompoundAssignment.

(** The state of the interpreter as a state of [interpret]. *)
Definition stateOf (i : Interpreter) : State :=
  {| context := runContext i; o := cout i |}.

(** Following the claim: the arguments evaluated left to right, each in
    the state the one before it left, to the values [vs] and the state
    [st']. *)
Fixpoint evaluatedLeftToRight (interpret : Expression -> Interp Number)
    (args : list Expression) (st : State) (vs : list Number) (st' : State) : Prop :=
  match args, vs with
  | [], [] => st' = st
  | e :: args', v :: vs' =>
      exists st1,
        interpret e st = (Returns v, st1) /\
        evaluatedLeftToRight interpret args' st1 vs' st'
  | _, _ => False
  end.

(** A name without colon; the names the lexer reads are made of small
    letters, digits and underscores. *)
Fixpoint colonFree (name : string) : bool :=
  match name with
  | EmptyString => true
  | String ch rest => negb (Ascii.eqb ch (Ascii.ascii_of_nat 58)) && colonFree rest
  end.

(** The functions on the call stack have names without colon. *)
Definition namedStack (c : RuntimeContext.t) : Prop :=
  List.Forall (fun function => colonFree (getName function) = true)
    (RuntimeContext.m_callStack c).

(** So have the functions of the function table. *)
Definition wellNamed (c : RuntimeContext.t) : Prop :=
  namedStack c /\
  forall name def,
    RuntimeContext.m_functionTable c !! name = Some def -> colonFree (getName def) = true.

(** The result is the runtime error [errmessage], raised in whatever
    function. *)
Definition runtimeError (errmessage : string) (r : Result Number) : Prop :=
  exists c,
    namedStack c /\
    r = Throws (RuntimeException (RuntimeContext.throwError c errmessage)).

(** ** Example programs *)

Definition num1 : Expression := ConstantExpression 1%float.

(** [define f(n) { return n }]. *)
Definition define_f : FunctionDefinition :=
  {| m_name := "f"; m_args := ["n"]; m_autos := [];
     m_commands := [ReturnStatement (Some (VariableExpression "n"))] |}.

(** The state after [define f(n) { return n }]. *)
Definition state_f : State :=
  {| context := RuntimeContext.addFunctionDefinition define_f RuntimeContext.empty;
     o := [] |}.

(** [define f(n, m) { return n }], and the state after it. *)
Definition define_f2 : FunctionDefinition :=
  {| m_name := "f"; m_args := ["n"; "m"]; m_autos := [];
     m_commands := [ReturnStatement (Some (VariableExpression "n"))] |}.

Definition state_f2 : State :=
  {| context := RuntimeContext.addFunctionDefinition define_f2 RuntimeContext.empty;
     o := [] |}.

(** [define g() { x = 10; return 1 }]. *)
Definition define_g : FunctionDefinition :=
  {| m_name := "g"; m_args := []; m_autos := [];
     m_commands := [ExpressionStatement (AssignExpression "x" (ConstantExpression 10%float));
                    ReturnStatement (Some num1)] |}.

(** The state after [define g() { x = 10; return 1 }] and [x = 1]. *)
Definition state_g_x1 : State :=
  {| context := RuntimeContext.setVariable "x" 1%float
                  (RuntimeContext.addFunctionDefinition define_g RuntimeContext.empty);
     o := [] |}.

(** [define f(n) { if (n<=1) return 1; return n*f(n-1); }], with the
    name [fact]. *)
Definition define_fact : FunctionDefinition :=
  {| m_name := "fact"; m_args := ["n"]; m_autos := [];
     m_commands :=
       [IfStatement (BooleanExpression (VariableExpression "n") num1 OP_LE)
          (ReturnStatement (Some num1)) None;
        ReturnStatement
          (Some (ArithmeticExpression (VariableExpression "n")
                   (FunctionCallExpression "fact"
                      [ArithmeticExpression (VariableExpression "n") num1 OP_MINUS])
                   OP_MUL))] |}.

(** [i=0] and [while (i<3) { i; i=i+1; }]. *)
Definition count_to_three : list Command :=
  [StatementLineCommand
     [ExpressionStatement (AssignExpression "i" (ConstantExpression 0%float))];
   StatementLineCommand
     [WhileStatement
        (BooleanExpression (VariableExpression "i") (ConstantExpression 3%float) OP_LT)
        (StatementList
           [ExpressionStatement (VariableExpression "i");
            ExpressionStatement
              (AssignExpression "i"
                 (ArithmeticExpression (VariableExpression "i") num1 OP_PLUS))])]].

(** The state after [x = 7]. *)
Definition state_x7 : State :=
  {| context := RuntimeContext.setVariable "x" 7%float RuntimeContext.empty; o := [] |}.

(** ** Vocabulary of the proofs *)

(** How [bind] passes on a result that is not a returned value. *)
Inductive propagated {A B} : Result A -> Result B -> Prop :=
| propagated_Throws ex : propagated (Throws ex) (Throws ex)
| propagated_Undefined : propagated Undefined Undefined
| propagated_AssertFailed : propagated AssertFailed AssertFailed
| propagated_OutOfFuel : propagated OutOfFuel OutOfFuel.

(** The frame discipline: the call stack and the function table are as
    before, no stack of bindings is shorter, the output is extended. *)
Definition frame_le (st st' : State) : Prop :=
  RuntimeContext.m_callStack (context st') = RuntimeContext.m_callStack (context st) /\
  RuntimeContext.m_functionTable (context st') = RuntimeContext.m_functionTable (context st) /\
  (forall x, depth x (context st) <= depth x (context st')) /\
  o st `prefix_of` o st'.

Definition preserves {A} (m : Interp A) : Prop :=
  forall st r st', m st = (r, st') -> defined r -> frame_le st st'.

(** Induction over statements, through the statements nested in lists
    and in the optional [else] branch. *)
Section StatementInduction.

Variable P : Statement -> Prop.
Hypothesis HExpression : forall e, P (ExpressionStatement e).
Hypothesis HIf : forall c t f,
  P t -> match f with Some s => P s | None => True end -> P (IfStatement c t f).
Hypothesis HWhile : forall c s, P s -> P (WhileStatement c s).
Hypothesis HBreak : P BreakStatement.
Hypothesis HContinue : P ContinueStatement.
Hypothesis HHalt : P HaltStatement.
Hypothesis HReturn : forall e, P (ReturnStatement e).
Hypothesis HList : forall l, List.Forall P l -> P (StatementList l).

Fixpoint Statement_nested_ind (s : Statement) : P s :=
  match s with
  | ExpressionStatement e => HExpression e
  | IfStatement c t f =>
      HIf c t f (Statement_nested_ind t)
        (match f with
         | Some s' => Statement_nested_ind s'
         | None => I
         end)
  | WhileStatement c s' => HWhile c s' (Statement_nested_ind s')
  | BreakStatement => HBreak
  | ContinueStatement => HContinue
  | HaltStatement => HHalt
  | ReturnStatement e => HReturn e
  | StatementList l =>
      HList l ((fix all (l : list Statement) : List.Forall P l :=
                  match l with
                  | [] => @List.Forall_nil _ P
                  | s' :: l' => @List.Forall_cons _ P s' l' (Statement_nested_ind s') (all l')
                  end) l)
  end.

End StatementInduction.

(** The loop of the rules [statementline] and [statementmultiline]. *)
Definition checkStatements (l : list Statement) (c : SemanticContext.t) : SemanticContext.t :=
  fold_left (fun (c' : SemanticContext.t) (s : Statement) => checkStatement s c') l c.

(** What a statement leaves of the semantic context: the [while] counter
    and the function flag are restored, an error stays flagged. *)
Definition checkKeeps (c c' : SemanticContext.t) : Prop :=
  SemanticContext.m_inFunction c' = SemanticContext.m_inFunction c /\
  SemanticContext.m_while c' = SemanticContext.m_while c /\
  (SemanticContext.m_error c = true -> SemanticContext.m_error c' = true).

(** The error flag is set exactly when a diagnostic has been printed. *)
Definition reported (c : SemanticContext.t) : Prop :=
  SemanticContext.m_error c = false <-> SemanticContext.printed c = [].

(** The messages [throwError] is called with, in an evaluation with the
    function table [T]. *)
Definition raisedWith (T : gmap string FunctionDefinition) (errmessage : string) : Prop :=
  errmessage = "division by zero" \/
  errmessage = "modulo zero" \/
  (exists g, T !! g = None /\ errmessage = "function '" +:+ g +:+ "' not defined") \/
  (exists g, errmessage = "wrong number of arguments for function '" +:+ g +:+ "'").

Definition raisedIn (T : gmap string FunctionDefinition) (message : string) : Prop :=
  exists c errmessage,
    namedStack c /\
    message = RuntimeContext.throwError c errmessage /\
    raisedWith T errmessage.

(** A state with the function table [T] and names without colon. *)
Definition named (T : gmap string FunctionDefinition) (st : State) : Prop :=
  RuntimeContext.m_functionTable (context st) = T /\ wellNamed (context st).

(** [m] run in such a state raises no other runtime error. *)
Definition raising (T : gmap string FunctionDefinition) {A} (m : Interp A) : Prop :=
  forall st r st' message,
    named T st -> m st = (r, st') -> r = Throws (RuntimeException message) ->
    raisedIn T message.

(** A result that is none of [break], [continue] and [return]. *)
Definition noFlow {A} (r : Result A) : Prop := ~ isLoopFlow r /\ ~ isReturnFlow r.

(** A result that is a [break] or [continue] only inside a [while] and a
    [return] only inside a function, as the semantic context sees it. *)
Definition flowWithin (c : SemanticContext.t) {A} (r : Result A) : Prop :=
  (isLoopFlow r -> SemanticContext.isInWhile c = true) /\
  (isReturnFlow r -> SemanticContext.isInFunction c = true).

(** [m] run in a state whose functions are all checked ends in a result
    satisfying [Q]. *)
Definition ensures {A} (m : Interp A) (Q : Result A -> Prop) : Prop :=
  forall st r st', functionsChecked (context st) -> m st = (r, st') -> Q r.

(** The semantic context in which the body of a function is checked. *)
Definition bodyContext (def : FunctionDefinition) : SemanticContext.t :=
  checkVariableList [] (m_autos def)
    (SemanticContext.setFunctionArguments (m_args def)
       (checkVariableList [] (m_args def)
          (SemanticContext.enterFunction SemanticContext.reset))).

(** ** Vocabulary of the further properties *)

(** The stack of bindings of [x]; a name without an entry has none. *)
Definition stackOf (x : string) (c : RuntimeContext.t) : list Number :=
  default [] (RuntimeContext.m_variables c !! x).

(** From [old] to [new] at most the top binding differs: what lies below
    it is the same, and a binding that was there is not gone. *)
Definition topChanged (old new : list Number) : Prop :=
  tail new = tail old /\ (old <> [] -> new <> []).

(** Every name keeps its bindings but for the top one, together with the
    frame discipline. *)
Definition scoped (st st' : State) : Prop :=
  frame_le st st' /\
  forall x, topChanged (stackOf x (context st)) (stackOf x (context st')).

Definition respects (R : State -> State -> Prop) {A} (m : Interp A) : Prop :=
  forall st r st', m st = (r, st') -> defined r -> R st st'.

(** Follows the rule in words: [break] and [continue] stand inside a
    [while], [return] stands inside a function definition. *)
Fixpoint wellPlaced (inWhile inFunction : bool) (s : Statement) : bool :=
  match s with
  | ExpressionStatement _ => true
  | IfStatement _ trueStmt falseStmt =>
      wellPlaced inWhile inFunction trueStmt
      && match falseStmt with
         | Some stmt => wellPlaced inWhile inFunction stmt
         | None => true
         end
  | WhileStatement _ body => wellPlaced true inFunction body
  | BreakStatement => inWhile
  | ContinueStatement => inWhile
  | HaltStatement => true
  | ReturnStatement _ => inFunction
  | StatementList stmts => forallb (wellPlaced inWhile inFunction) stmts
  end.

(** How many entries of the stack of pointer types carry the tag [t]. *)
Fixpoint countType (t : MemoryStack.PointerType) (types : list MemoryStack.PointerType) : nat :=
  match types with
  | [] => 0
  | t' :: types' =>
      match t, t' with
      | MemoryStack.AbsynPointer, MemoryStack.AbsynPointer
      | MemoryStack.CharListPointer, MemoryStack.CharListPointer
      | MemoryStack.AbsExprListPointer, MemoryStack.AbsExprListPointer =>
          S (countType t types')
      | _, _ => countType t types'
      end
  end.

(** The stack of pointer types agrees with the three stacks of pointers:
    each holds as many entries as the type stack has tags for it. *)
Definition inSync (m : MemoryStack.t) : Prop :=
  countType MemoryStack.AbsynPointer (MemoryStack.m_pointerTypes m)
    = length (MemoryStack.m_absynPointers m) /\
  countType MemoryStack.CharListPointer (MemoryStack.m_pointerTypes m)
    = length (MemoryStack.m_charListPointers m) /\
  countType MemoryStack.AbsExprListPointer (MemoryStack.m_pointerTypes m)
    = length (MemoryStack.m_absExprListPointers m).

(** ** The position counters of the lexer (bc.lex) *)

Module Lexer.

(** [line_nr] and [col_nr], the position just after the last token read;
    they are [int]s that count characters of the input, integers here. *)
Record Position := {
  line_nr : Z;
  col_nr : Z
}.

(** [yylloc], as far as the lexer sets it. *)
Record Location := {
  first_line : Z;
  first_column : Z
}.

Definition start : Position := {| line_nr := 1; col_nr := 1 |}.

Definition yyleng (yytext : string) : Z := Z.of_nat (String.length yytext).

Definition locate (p : Position) : Location :=
  {| first_line := line_nr p; first_column := col_nr p |}.

(** [adjust]: the token starts where the lexer stands, and the column
    moves on by the length of the token. *)
Definition adjust (yytext : string) (p : Position) : Location * Position :=
  (locate p, {| line_nr := line_nr p; col_nr := (col_nr p + yyleng yytext)%Z |}).

(** The loop of [count]: it ends at the first NUL character of
    [yytext], which need not be the end of the token. *)
Fixpoint countChars (yytext : string) (p : Position) : Position :=
  match yytext with
  | EmptyString => p
  | String ch rest =>
      if Ascii.eqb ch Ascii.zero then p
      else countChars rest
             (if Ascii.eqb ch (Ascii.ascii_of_nat 10)
              then {| line_nr := (line_nr p + 1)%Z; col_nr := 1 |}
              else {| line_nr := line_nr p; col_nr := (col_nr p + 1)%Z |})
  end.

(** [count], for tokens that may hold newlines. *)
Definition count (yytext : string) (p : Position) : Location * Position :=
  (locate p, countChars yytext p).

(** The line and column [yyerror] prints for the last token read. *)
Definition yyerror (yytext : string) (p : Position) : Z * Z :=
  (line_nr p, (col_nr p - yyleng yytext)%Z).

(** The number of newline characters of a text. *)
Fixpoint newlines (yytext : string) : Z :=
  match yytext with
  | EmptyString => 0
  | String ch rest =>
      ((if Ascii.eqb ch (Ascii.ascii_of_nat 10) then 1 else 0) + newlines rest)%Z
  end.

(** A text without NUL character. *)
Fixpoint nulFree (yytext : string) : bool :=
  match yytext with
  | EmptyString => true
  | String ch rest => negb (Ascii.eqb ch Ascii.zero) && nulFree rest
  end.

(** The position in the input after a text has been read from it: a
    newline starts a line at column 1, any other character is one
    column. *)
Fixpoint advance (input : string) (p : Position) : Position :=
  match input with
  | EmptyString => p
  | String ch rest =>
      advance rest
        (if Ascii.eqb ch (Ascii.ascii_of_nat 10)
         then {| line_nr := (line_nr p + 1)%Z; col_nr := 1 |}
         else {| line_nr := line_nr p; col_nr := (col_nr p + 1)%Z |})
  end.

End Lexer.

(** ** Printing a list of names (absyn.cpp) *)

(** The loop of [FunctionDefinition::printVariableList]: the name held
    back is printed with a comma when another one follows, and with the
    end of the line when it is the last. *)
Fixpoint printVariables (previous : string) (rest : list string) : string :=
  match rest with
  | [] => previous +:+ endl
  | name :: rest' => previous +:+ ", " +:+ printVariables name rest'
  end.

Definition printVariableList (varlist : list string) : string :=
  match varlist with
  | [] => "(none)" +:+ endl
  | first :: rest => printVariables first rest
  end.

(** ** The memory stack across the actions of [expression] *)

(** How many tracked entries the action of a rule takes off the memory
    stack, and how many it puts on it (the calls on [memStack] of each
    action in bc.y). *)
Definition pops (rhs : Parser.Production) : nat :=
  match rhs with
  | Parser.Arithmetic _ _ _ | Parser.Boolean _ _ _ => 2
  | Parser.NOT _ | Parser.NAME_ASSIGN _ _ | Parser.NAME_OPASSIGN _ _ _
  | Parser.NAME_LPAREN_RPAREN _ _ => 1
  | _ => 0
  end.

Definition pushes (rhs : Parser.Production) : nat :=
  match rhs with
  | Parser.LPAREN_RPAREN _ | Parser.MINUS _ => 0
  | _ => 1
  end.

Definition tracks (p : Parser.t) : nat :=
  length (MemoryStack.m_pointerTypes (Parser.memStack p)).

(** ** Scanning a sequence of tokens *)

(** Which of the two position updates the rule of a token calls. *)
Inductive Update := Adjust | Count.

Definition update (u : Update) (yytext : string) (p : Lexer.Position)
  : Lexer.Location * Lexer.Position :=
  match u with
  | Adjust => Lexer.adjust yytext p
  | Count => Lexer.count yytext p
  end.

(** The position after the rules of a sequence of tokens have run. *)
Fixpoint scan (tokens : list (Update * string)) (p : Lexer.Position) : Lexer.Position :=
  match tokens with
  | [] => p
  | (u, yytext) :: rest => scan rest (snd (update u yytext p))
  end.

(** The input a sequence of tokens was read from. *)
Fixpoint text (tokens : list (Update * string)) : string :=
  match tokens with
  | [] => EmptyString
  | (_, yytext) :: rest => yytext +:+ text rest
  end.

(** The tokens whose rule calls [adjust] hold no newline: no pattern of
    bc.lex but the newline itself and the block comment matches one. The
    tokens whose rule calls [count] hold no NUL character, which is more
    than the patterns say: a block comment matches any character. *)
Definition countedInFull (tokens : list (Update * string)) : Prop :=
  List.Forall (fun token =>
                 match fst token with
                 | Adjust => Lexer.newlines (snd token) = 0%Z
                 | Count => Lexer.nulFree (snd token) = true
                 end) tokens.

(** ** Expressions without side effects *)

(** The expressions that hold no assignment, no increment or decrement
    and no call. *)
Fixpoint sideEffectFree (e : Expression) : bool :=
  match e with
  | ConstantExpression _ | VariableExpression _ => true
  | ArithmeticExpression m_lhs m_rhs _
  | BooleanExpression m_lhs m_rhs _ => sideEffectFree m_lhs && sideEffectFree m_rhs
  | NegationExpression m_expr | MinusExpression m_expr => sideEffectFree m_expr
  | PrefixOpExpression _ _ | PostfixOpExpression _ _
  | AssignExpression _ _ | FunctionCallExpression _ _ => false
  end.

(** * Proofs *)
(** ** Laws of the monad *)

Lemma bind_Returns {A B} (m : Interp A) (k : A -> Interp B) st a st1 :
  m st = (Returns a, st1) -> bind m k st = k a st1.
Proof. intros H. unfold bind. rewrite H. reflexivity. Qed.

Lemma bind_inv {A B} (m : Interp A) (k : A -> Interp B) st r st' :
  bind m k st = (r, st') ->
  (exists a st1, m st = (Returns a, st1) /\ k a st1 = (r, st')) \/
  (exists r1, m st = (r1, st') /\ propagated r1 r).
Proof.
  unfold bind. destruct (m st) as [[a | ex | | |] st1]; intros H.
  - left. eauto.
  - right. inversion H; subst. eexists; split; [reflexivity | constructor].
  - right. inversion H; subst. eexists; split; [reflexivity | constructor].
  - right. inversion H; subst. eexists; split; [reflexivity | constructor].
  - right. inversion H; subst. eexists; split; [reflexivity | constructor].
Qed.

Lemma bind_assoc {A B C} (m : Interp A) (k : A -> Interp B) (h : B -> Interp C) st :
  bind (bind m k) h st = bind m (fun a => bind (k a) h) st.
Proof. unfold bind. destruct (m st) as [[a | ex | | |] st1]; reflexivity. Qed.

Lemma propagated_defined {A B} (r1 : Result A) (r : Result B) :
  propagated r1 r -> defined r -> defined r1.
Proof. destruct 1; simpl; tauto. Qed.

(** ** The frame discipline of the runtime context *)

Lemma frame_le_refl st : frame_le st st.
Proof. repeat split; auto. Qed.

Lemma frame_le_trans st1 st2 st3 : frame_le st1 st2 -> frame_le st2 st3 -> frame_le st1 st3.
Proof.
  intros (H1 & H2 & H3 & H4) (K1 & K2 & K3 & K4). repeat split.
  - congruence.
  - congruence.
  - intros x. specialize (H3 x). specialize (K3 x). lia.
  - etrans; eauto.
Qed.

Lemma preserves_ret {A} (a : A) : preserves (ret a).
Proof. intros st r st' [= <- <-] _. apply frame_le_refl. Qed.

Lemma preserves_throw {A} ex : preserves (@throw A ex).
Proof. intros st r st' [= <- <-] _. apply frame_le_refl. Qed.

Lemma preserves_throwError {A} msg : preserves (@throwError A msg).
Proof. intros st r st' [= <- <-] _. apply frame_le_refl. Qed.

Lemma preserves_out_of_fuel {A} : preserves (@out_of_fuel A).
Proof. intros st r st' [= <- <-] []. Qed.

Lemma preserves_bind {A B} (m : Interp A) (k : A -> Interp B) :
  preserves m -> (forall a, preserves (k a)) -> preserves (bind m k).
Proof.
  intros Hm Hk st r st' H Hd.
  apply bind_inv in H as [(a & st1 & H1 & H2) | (r1 & H1 & Hp)].
  - eapply frame_le_trans; [eapply Hm | eapply Hk]; eauto. exact I.
  - eapply Hm; eauto. eapply propagated_defined; eauto.
Qed.

Lemma preserves_getVariable name : preserves (getVariable name).
Proof.
  intros st r st'. unfold getVariable.
  destruct (RuntimeContext.getVariable (context st) name); intros [= <- <-] _;
    apply frame_le_refl.
Qed.

Lemma depth_setVariable x name value c :
  depth x c <= depth x (RuntimeContext.setVariable name value c).
Proof.
  unfold depth, RuntimeContext.setVariable.
  destruct (RuntimeContext.m_variables c !! name) as [[| v rest] |] eqn:E; simpl;
    destruct (decide (name = x)) as [-> | Hne];
    rewrite ?lookup_insert_eq, ?lookup_insert_ne, ?E by done; simpl; lia.
Qed.

Lemma preserves_setVariable name value : preserves (setVariable name value).
Proof.
  intros st r st' [= <- <-] _. repeat split; simpl.
  - unfold RuntimeContext.setVariable.
    destruct (RuntimeContext.m_variables (context st) !! name) as [[| ? ?] |]; reflexivity.
  - unfold RuntimeContext.setVariable.
    destruct (RuntimeContext.m_variables (context st) !! name) as [[| ? ?] |]; reflexivity.
  - intros x. apply depth_setVariable.
  - reflexivity.
Qed.

Lemma preserves_display result : preserves (display result).
Proof.
  intros st r st' [= <- <-] _. repeat split; simpl; auto.
  apply prefix_app_r. reflexivity.
Qed.

Lemma occurrences_nil x : occurrences x [] = 0.
Proof. reflexivity. Qed.

Lemma occurrences_cons x y names :
  occurrences x (y :: names) = (if decide (y = x) then 1 else 0) + occurrences x names.
Proof.
  unfold occurrences. rewrite filter_cons. destruct (decide (y = x)); reflexivity.
Qed.

Lemma occurrences_app x l1 l2 :
  occurrences x (l1 ++ l2) = occurrences x l1 + occurrences x l2.
Proof. unfold occurrences. rewrite filter_app, length_app. reflexivity. Qed.

Lemma depth_addVariable x name value c :
  depth x (RuntimeContext.addVariable name value c) =
  depth x c + (if decide (name = x) then 1 else 0).
Proof.
  unfold depth, RuntimeContext.addVariable. simpl.
  destruct (decide (name = x)) as [-> | Hne].
  - rewrite lookup_insert_eq. simpl. lia.
  - rewrite lookup_insert_ne by done. simpl. lia.
Qed.

Lemma depth_addParameters x params values c :
  length params = length values ->
  depth x (RuntimeContext.addParameters params values c) = depth x c + occurrences x params.
Proof.
  revert values c. induction params as [| p params IH]; intros [| v values] c Hlen;
    simpl in *; try discriminate.
  - rewrite occurrences_nil. lia.
  - rewrite IH by lia. rewrite depth_addVariable, (occurrences_cons x p). lia.
Qed.

Lemma depth_addAutos x autos c :
  depth x (RuntimeContext.addAutos autos c) = depth x c + occurrences x autos.
Proof.
  revert c. induction autos as [| a autos IH]; intros c; simpl.
  - rewrite occurrences_nil. lia.
  - rewrite IH, depth_addVariable, (occurrences_cons x a). lia.
Qed.

Lemma addParameters_frame params values c :
  RuntimeContext.m_callStack (RuntimeContext.addParameters params values c) = RuntimeContext.m_callStack c /\
  RuntimeContext.m_functionTable (RuntimeContext.addParameters params values c) = RuntimeContext.m_functionTable c.
Proof.
  revert values c. induction params as [| p params IH]; intros [| v values] c; simpl; auto.
  destruct (IH values (RuntimeContext.addVariable p v c)) as [-> ->]. auto.
Qed.

Lemma addAutos_frame autos c :
  RuntimeContext.m_callStack (RuntimeContext.addAutos autos c) = RuntimeContext.m_callStack c /\
  RuntimeContext.m_functionTable (RuntimeContext.addAutos autos c) = RuntimeContext.m_functionTable c.
Proof.
  revert c. induction autos as [| a autos IH]; intros c; simpl; auto.
  destruct (IH (RuntimeContext.addVariable a Number.zero c)) as [-> ->]. auto.
Qed.

Lemma delVariable_Some name c :
  1 <= depth name c ->
  exists c', RuntimeContext.delVariable name c = Some c' /\
    RuntimeContext.m_callStack c' = RuntimeContext.m_callStack c /\
    RuntimeContext.m_functionTable c' = RuntimeContext.m_functionTable c /\
    forall x, depth x c' + (if decide (name = x) then 1 else 0) = depth x c.
Proof.
  unfold depth at 1, RuntimeContext.delVariable.
  destruct (RuntimeContext.m_variables c !! name) as [[| v rest] |] eqn:E; simpl; try lia.
  intros _. eexists. split; [reflexivity |]. repeat split.
  intros x. unfold depth. simpl.
  destruct (decide (name = x)) as [-> | Hne].
  - rewrite lookup_insert_eq, E. simpl. lia.
  - rewrite lookup_insert_ne by done. simpl. lia.
Qed.

Lemma delVariables_Some names c :
  (forall x, occurrences x names <= depth x c) ->
  exists c', RuntimeContext.delVariables names c = Some c' /\
    RuntimeContext.m_callStack c' = RuntimeContext.m_callStack c /\
    RuntimeContext.m_functionTable c' = RuntimeContext.m_functionTable c /\
    forall x, depth x c' + occurrences x names = depth x c.
Proof.
  revert c. induction names as [| name names IH]; intros c Hc; simpl.
  - exists c. repeat split. intros x. rewrite occurrences_nil. lia.
  - destruct (delVariable_Some name c) as (c1 & -> & Hcs & Hft & Hd).
    { specialize (Hc name). rewrite occurrences_cons in Hc.
      rewrite decide_True in Hc by done. lia. }
    destruct (IH c1) as (c2 & -> & Hcs2 & Hft2 & Hd2).
    { intros x. specialize (Hc x). specialize (Hd x).
      rewrite occurrences_cons in Hc. lia. }
    exists c2. split; [reflexivity |]. repeat split; try congruence.
    intros x. specialize (Hd x). specialize (Hd2 x). rewrite (occurrences_cons x name). lia.
Qed.

(** Leaving a function whose frame is still in place succeeds and pops
    exactly the frame. *)
Lemma exitFunction_Exited function callers c :
  RuntimeContext.m_callStack c = function :: callers ->
  (forall x, occurrences x (getAutoVariables function ++ getArguments function) <= depth x c) ->
  exists c', RuntimeContext.exitFunction c = RuntimeContext.Exited c' /\
    RuntimeContext.m_callStack c' = callers /\
    RuntimeContext.m_functionTable c' = RuntimeContext.m_functionTable c /\
    forall x, depth x c' + occurrences x (getAutoVariables function ++ getArguments function)
              = depth x c.
Proof.
  intros Hcs Hd. unfold RuntimeContext.exitFunction. rewrite Hcs.
  set (c1 := {| RuntimeContext.m_functionTable := RuntimeContext.m_functionTable c;
                RuntimeContext.m_variables := RuntimeContext.m_variables c;
                RuntimeContext.m_callStack := callers |}).
  assert (Hc1 : forall x, depth x c1 = depth x c) by reflexivity.
  destruct (delVariables_Some (getAutoVariables function) c1) as (c2 & -> & Hcs2 & Hft2 & Hd2).
  { intros x. specialize (Hd x). rewrite occurrences_app in Hd. rewrite Hc1. lia. }
  destruct (delVariables_Some (getArguments function) c2) as (c3 & -> & Hcs3 & Hft3 & Hd3).
  { intros x. specialize (Hd x). specialize (Hd2 x). rewrite occurrences_app in Hd.
    rewrite Hc1 in Hd2. lia. }
  exists c3. split; [reflexivity |]. repeat split.
  - rewrite Hcs3, Hcs2. reflexivity.
  - rewrite Hft3, Hft2. reflexivity.
  - intros x. specialize (Hd2 x). specialize (Hd3 x). rewrite Hc1 in Hd2.
    rewrite occurrences_app. lia.
Qed.

Lemma enterFunction_entered functionDef argumentValues st :
  length (getArguments functionDef) = length argumentValues ->
  enterFunction functionDef argumentValues st = (Returns tt, entered functionDef argumentValues st).
Proof.
  intros Hlen. unfold enterFunction, RuntimeContext.enterFunction.
  rewrite decide_True by done. reflexivity.
Qed.

Lemma entered_frame functionDef argumentValues st :
  length (getArguments functionDef) = length argumentValues ->
  RuntimeContext.m_callStack (context (entered functionDef argumentValues st))
    = functionDef :: RuntimeContext.m_callStack (context st) /\
  RuntimeContext.m_functionTable (context (entered functionDef argumentValues st))
    = RuntimeContext.m_functionTable (context st) /\
  o (entered functionDef argumentValues st) = o st /\
  forall x, depth x (context (entered functionDef argumentValues st))
            = depth x (context st)
              + occurrences x (getAutoVariables functionDef ++ getArguments functionDef).
Proof.
  intros Hlen. unfold entered. simpl.
  destruct (addAutos_frame (getAutoVariables functionDef)
              (RuntimeContext.addParameters (getArguments functionDef) argumentValues (context st)))
    as [Hcs Hft].
  destruct (addParameters_frame (getArguments functionDef) argumentValues (context st))
    as [Hcs' Hft'].
  repeat split.
  - rewrite Hcs, Hcs'. reflexivity.
  - rewrite Hft, Hft'. reflexivity.
  - intros x.
    change (depth x (RuntimeContext.pushCall functionDef ?c)) with (depth x c).
    rewrite depth_addAutos, depth_addParameters, occurrences_app by done. lia.
Qed.

(** The unwinding of a call: whatever defined way the body ends, the frame
    the call pushed is popped, and nothing else. *)
Lemma tryBody_unwinds (body : Interp Number) functionDef argumentValues st rb st2 :
  preserves body ->
  length (getArguments functionDef) = length argumentValues ->
  body (entered functionDef argumentValues st) = (rb, st2) ->
  defined rb ->
  exists c3,
    RuntimeContext.exitFunction (context st2) = RuntimeContext.Exited c3 /\
    tryBody body (entered functionDef argumentValues st) = (callResult rb, with_context c3 st2) /\
    RuntimeContext.m_callStack (context st2)
      = functionDef :: RuntimeContext.m_callStack (context st) /\
    RuntimeContext.m_callStack c3 = RuntimeContext.m_callStack (context st) /\
    (forall x, depth x c3
               + occurrences x (getAutoVariables functionDef ++ getArguments functionDef)
               = depth x (context st2)) /\
    frame_le st (with_context c3 st2).
Proof.
  intros Hbody Hlen Hrun Hdef.
  destruct (entered_frame functionDef argumentValues st Hlen) as (Ecs & Eft & Eo & Ed).
  destruct (Hbody _ _ _ Hrun Hdef) as (Bcs & Bft & Bd & Bo).
  destruct (exitFunction_Exited functionDef (RuntimeContext.m_callStack (context st)) (context st2))
    as (c3 & Hexit & Xcs & Xft & Xd).
  { rewrite Bcs, Ecs. reflexivity. }
  { intros x. specialize (Bd x). rewrite Ed in Bd. lia. }
  exists c3. split; [exact Hexit |]. split.
  { unfold tryBody. rewrite Hrun.
    destruct rb as [v | [ | | | value | message] | | |]; try contradiction;
      unfold bind, exitFunction; rewrite Hexit; reflexivity. }
  split; [rewrite Bcs, Ecs; reflexivity |].
  split; [exact Xcs |]. split; [exact Xd |].
  repeat split; simpl.
  - exact Xcs.
  - rewrite Xft, Bft, Eft. reflexivity.
  - intros x. specialize (Bd x). specialize (Xd x). rewrite Ed in Bd. lia.
  - rewrite <- Eo. exact Bo.
Qed.

Lemma callResult_defined rb : defined (callResult rb) -> defined rb.
Proof. destruct rb as [v | [ | | | value | message] | | |]; simpl; tauto. Qed.

Lemma tryBody_undefined (body : Interp Number) st rb st2 :
  body st = (rb, st2) -> ~ defined rb -> tryBody body st = (rb, st2).
Proof.
  intros Hrun Hdef. unfold tryBody. rewrite Hrun.
  destruct rb as [v | ex | | |]; simpl in Hdef; try tauto; reflexivity.
Qed.

Lemma defined_dec {A} (r : Result A) : defined r \/ ~ defined r.
Proof. destruct r; simpl; tauto. Qed.

Lemma preserves_call (body : Interp Number) functionDef argumentValues :
  preserves body ->
  preserves (let* _ := enterFunction functionDef argumentValues in tryBody body).
Proof.
  intros Hbody st r st' H Hdef.
  apply bind_inv in H as [([] & st1 & H1 & H2) | (r1 & H1 & Hp)].
  - unfold enterFunction, RuntimeContext.enterFunction in H1.
    destruct (decide (length (getArguments functionDef) = length argumentValues)) as [Hlen |];
      [| discriminate].
    injection H1 as <-. fold (entered functionDef argumentValues st) in H2.
    destruct (body (entered functionDef argumentValues st)) as [rb st2] eqn:Hrun.
    destruct (defined_dec rb) as [Hrb | Hrb].
    + destruct (tryBody_unwinds body functionDef argumentValues st rb st2 Hbody Hlen Hrun Hrb)
        as (c3 & _ & Htry & _ & _ & _ & Hframe).
      rewrite Htry in H2. injection H2 as <- <-. exact Hframe.
    + rewrite (tryBody_undefined _ _ _ _ Hrun Hrb) in H2. injection H2 as <- <-. contradiction.
  - unfold enterFunction in H1.
    destruct (RuntimeContext.enterFunction functionDef argumentValues (context st));
      injection H1 as <- <-; inversion Hp; subst; contradiction.
Qed.

Lemma preserves_interpretList (interpret : Statement -> Interp Number) l :
  (forall s, preserves (interpret s)) -> preserves (interpretList interpret l).
Proof.
  intros H. induction l as [| s l IH]; simpl.
  - apply preserves_ret.
  - apply preserves_bind; auto.
Qed.

Lemma preserves_interpretArguments (interpret : Expression -> Interp Number) l :
  (forall e, preserves (interpret e)) -> preserves (interpretArguments interpret l).
Proof.
  intros H. induction l as [| e l IH]; simpl.
  - apply preserves_ret.
  - apply preserves_bind; auto. intros v. apply preserves_bind; auto.
    intros vs. apply preserves_ret.
Qed.

Lemma preserves_whileBody (body again : Interp Number) :
  preserves body -> preserves again -> preserves (whileBody body again).
Proof.
  intros Hb Ha st r st' H Hdef. unfold whileBody in H.
  destruct (body st) as [rb st1] eqn:Hrun.
  destruct rb as [v | [ | | | value | message] | | |];
    try (injection H as <- <-; first [contradiction | eapply Hb; eauto; exact I]).
  - eapply frame_le_trans; [eapply Hb | eapply Ha]; eauto; exact I.
  - eapply frame_le_trans; [eapply Hb | eapply Ha]; eauto; exact I.
Qed.

Lemma preserves_arithmetic pow m_type lhs rhs : preserves (arithmetic pow m_type lhs rhs).
Proof.
  destruct m_type; simpl; try apply preserves_ret;
    destruct (Number.is_zero rhs); auto using @preserves_ret, @preserves_throwError.
Qed.

Create HintDb preserves.

#[local] Hint Resolve preserves_ret preserves_throw preserves_throwError preserves_out_of_fuel
  preserves_getVariable preserves_setVariable preserves_display preserves_arithmetic
  : preserves.

(** Every [interpret] leaves the call stack and the function table as it
    found them, pops no binding it did not push, and only appends to the
    output. *)
Lemma interpret_preserves pow fuel :
  (forall e, preserves (interpretExpression pow fuel e)) /\
  (forall s, preserves (interpretStatement pow fuel s)).
Proof.
  induction fuel as [| n [IHe IHs]].
  - split; intros; apply preserves_out_of_fuel.
  - split.
    + intros e. destruct e; simpl;
        try (repeat first [ apply preserves_bind; [ | intros ? ] | solve [eauto with preserves] ]).
      intros st r st' H Hdef.
      destruct (RuntimeContext.getFunctionDefinition (context st) m_name0) as [functionDef |].
      * destruct (negb _).
        -- eapply preserves_throwError; eauto.
        -- revert H Hdef. apply preserves_bind.
           ++ apply preserves_interpretArguments, IHe.
           ++ intros vs. apply preserves_call, IHs.
      * eapply preserves_throwError; eauto.
    + intros s. destruct s; simpl.
      * apply preserves_bind; [apply IHe | intros result].
        destruct (shouldDisplayResult _); eauto using @preserves_bind with preserves.
      * apply preserves_bind; [apply IHe | intros condition].
        destruct (Number.nonzero condition); [| destruct m_falseStmt];
          eauto using @preserves_bind with preserves.
      * apply preserves_bind; [apply IHe | intros condition].
        destruct (Number.nonzero condition); eauto using @preserves_whileBody with preserves.
      * apply preserves_throw.
      * apply preserves_throw.
      * apply preserves_throw.
      * destruct m_expr; eauto using @preserves_bind with preserves.
      * apply preserves_interpretList, IHs.
Qed.

(** ** The semantic checks *)

Lemma checkStatement_StatementList l c :
  checkStatement (StatementList l) c = checkStatements l c.
Proof.
  revert c. induction l as [| s l IH]; intros c; [reflexivity |].
  simpl in *. apply IH.
Qed.

Lemma checkKeeps_refl c : checkKeeps c c.
Proof. repeat split; auto. Qed.

Lemma checkKeeps_trans c1 c2 c3 : checkKeeps c1 c2 -> checkKeeps c2 c3 -> checkKeeps c1 c3.
Proof. intros (H1 & H2 & H3) (K1 & K2 & K3). repeat split; try congruence. auto. Qed.

Lemma checkKeeps_flag error c (b : bool) :
  checkKeeps c (if b then SemanticContext.flagError error c else c).
Proof. destruct b; repeat split; auto. Qed.

Lemma checkStatements_keeps l :
  List.Forall (fun s => forall c, checkKeeps c (checkStatement s c)) l ->
  forall c, checkKeeps c (checkStatements l c).
Proof.
  induction 1 as [| s l Hs _ IH]; intros c; simpl.
  - apply checkKeeps_refl.
  - eapply checkKeeps_trans; [apply Hs | apply IH].
Qed.

Lemma checkStatement_keeps s : forall c, checkKeeps c (checkStatement s c).
Proof.
  induction s as [e | e t f IHt IHf | e s IH | | | | e | l IH] using Statement_nested_ind;
    intros c; try rewrite checkStatement_StatementList; simpl.
  - apply checkKeeps_refl.
  - destruct f as [s |].
    + eapply checkKeeps_trans; [apply IHt | apply IHf].
    + apply IHt.
  - destruct (IH (SemanticContext.enterWhile c)) as (H1 & H2 & H3).
    repeat split; simpl.
    + rewrite H1. reflexivity.
    + rewrite H2. simpl. lia.
    + exact H3.
  - apply checkKeeps_flag.
  - apply checkKeeps_flag.
  - apply checkKeeps_refl.
  - apply checkKeeps_flag.
  - apply checkStatements_keeps, IH.
Qed.

Lemma checkKeeps_no_error c c' :
  checkKeeps c c' -> SemanticContext.detectedError c' = false ->
  SemanticContext.detectedError c = false.
Proof.
  intros (_ & _ & H) H'. unfold SemanticContext.detectedError in *.
  destruct (SemanticContext.m_error c); [rewrite H in H' by reflexivity; discriminate | reflexivity].
Qed.

(** ** Non-local transfers *)

Lemma noFlow_Returns {A} (a : A) : noFlow (Returns a).
Proof. split; [intros [H | H]; discriminate | intros [v H]; discriminate]. Qed.

Lemma noFlow_RuntimeException {A} message : noFlow (@Throws A (RuntimeException message)).
Proof. split; [intros [H | H]; discriminate | intros [v H]; discriminate]. Qed.

Lemma noFlow_not_Throws {A} (r : Result A) : (forall ex, r <> Throws ex) -> noFlow r.
Proof.
  intros H. split; [intros [-> | ->] | intros [v ->]]; eapply H; reflexivity.
Qed.

Lemma propagated_noFlow {A B} (r1 : Result A) (r : Result B) :
  propagated r1 r -> noFlow r1 -> noFlow r.
Proof.
  intros Hp [H1 H2]. destruct Hp as [ex | | |]; try (apply noFlow_not_Throws; discriminate).
  split.
  - intros [H | H]; apply H1; [left | right]; congruence.
  - intros [v H]. apply H2. exists v. congruence.
Qed.

Lemma propagated_flowWithin c {A B} (r1 : Result A) (r : Result B) :
  propagated r1 r -> flowWithin c r1 -> flowWithin c r.
Proof.
  intros Hp [H1 H2]. destruct Hp as [ex | | |];
    try (split; [intros [H | H]; discriminate | intros [v H]; discriminate]).
  split.
  - intros [H | H]; apply H1; [left | right]; congruence.
  - intros [v H]. apply H2. exists v. congruence.
Qed.

Lemma noFlow_flowWithin c {A} (r : Result A) : noFlow r -> flowWithin c r.
Proof. intros [H1 H2]. split; intros H; contradiction. Qed.

Lemma functionsChecked_frame st st' :
  frame_le st st' -> functionsChecked (context st) -> functionsChecked (context st').
Proof. intros (_ & Hft & _) H name def. rewrite Hft. apply H. Qed.

Lemma ensures_bind {A B} (m : Interp A) (k : A -> Interp B) (Q1 : Result A -> Prop)
    (Q : Result B -> Prop) :
  preserves m -> ensures m Q1 -> (forall a, ensures (k a) Q) ->
  (forall r1 r, propagated r1 r -> Q1 r1 -> Q r) ->
  ensures (bind m k) Q.
Proof.
  intros Hp Hm Hk Hprop st r st' Hc H.
  apply bind_inv in H as [(a & st1 & H1 & H2) | (r1 & H1 & Hpr)].
  - eapply Hk; [| exact H2]. eapply functionsChecked_frame; [| exact Hc].
    eapply Hp; [exact H1 | exact I].
  - eapply Hprop; [exact Hpr |]. eapply Hm; eauto.
Qed.

Lemma ensures_ret {A} (a : A) (Q : Result A -> Prop) : Q (Returns a) -> ensures (ret a) Q.
Proof. intros H st r st' _ [= <- <-]. exact H. Qed.

Lemma ensures_noFlow_flowWithin c {A} (m : Interp A) :
  ensures m noFlow -> ensures m (flowWithin c).
Proof. intros H st r st' Hc Hr. apply noFlow_flowWithin. eapply H; eauto. Qed.

Lemma ensures_getVariable name : ensures (getVariable name) noFlow.
Proof.
  intros st r st' _. unfold getVariable.
  destruct (RuntimeContext.getVariable (context st) name); intros [= <- <-].
  - apply noFlow_Returns.
  - apply noFlow_not_Throws. discriminate.
Qed.

Lemma ensures_setVariable name value : ensures (setVariable name value) noFlow.
Proof. intros st r st' _ [= <- <-]. apply noFlow_Returns. Qed.

Lemma ensures_display result : ensures (display result) noFlow.
Proof. intros st r st' _ [= <- <-]. apply noFlow_Returns. Qed.

Lemma ensures_throwError {A} message : ensures (@throwError A message) noFlow.
Proof. intros st r st' _ [= <- <-]. apply noFlow_RuntimeException. Qed.

Lemma ensures_out_of_fuel {A} : ensures (@out_of_fuel A) noFlow.
Proof. intros st r st' _ [= <- <-]. apply noFlow_not_Throws. discriminate. Qed.

Lemma ensures_arithmetic pow m_type lhs rhs : ensures (arithmetic pow m_type lhs rhs) noFlow.
Proof.
  destruct m_type; simpl; try (apply ensures_ret, noFlow_Returns);
    destruct (Number.is_zero rhs);
    first [apply ensures_throwError | apply ensures_ret, noFlow_Returns].
Qed.

Lemma ensures_interpretArguments (interpret : Expression -> Interp Number) l :
  (forall e, preserves (interpret e)) -> (forall e, ensures (interpret e) noFlow) ->
  ensures (interpretArguments interpret l) noFlow.
Proof.
  intros Hp He. induction l as [| e l IH]; simpl.
  - apply ensures_ret, noFlow_Returns.
  - eapply ensures_bind; [apply Hp | apply He | | apply @propagated_noFlow].
    intros v. eapply ensures_bind;
      [apply preserves_interpretArguments, Hp | apply IH | | apply @propagated_noFlow].
    intros vs. apply ensures_ret, noFlow_Returns.
Qed.

Lemma checkVariableList_keeps names : forall seen c,
  SemanticContext.m_inFunction (checkVariableList seen names c) = SemanticContext.m_inFunction c /\
  SemanticContext.m_while (checkVariableList seen names c) = SemanticContext.m_while c.
Proof.
  induction names as [| x names IH]; intros seen c; simpl; [auto |].
  destruct (IH (seen ++ [x])%list (SemanticContext.checkFunctionVariable seen x c)) as [-> ->].
  unfold SemanticContext.checkFunctionVariable.
  destruct (SemanticContext.isStringInList seen x); [auto |].
  destruct (SemanticContext.m_funcArgs c) as [funcArgs |]; [| auto].
  destruct (SemanticContext.isStringInList funcArgs x); auto.
Qed.

Lemma bodyContext_while def : SemanticContext.m_while (bodyContext def) = 0%Z.
Proof.
  unfold bodyContext.
  destruct (checkVariableList_keeps (m_autos def) []
              (SemanticContext.setFunctionArguments (m_args def)
                 (checkVariableList [] (m_args def)
                    (SemanticContext.enterFunction SemanticContext.reset)))) as [_ ->].
  simpl.
  destruct (checkVariableList_keeps (m_args def) []
              (SemanticContext.enterFunction SemanticContext.reset)) as [_ ->].
  reflexivity.
Qed.

Lemma checkFuncDef_body def :
  SemanticContext.detectedError (checkFuncDef def SemanticContext.reset) = false ->
  SemanticContext.detectedError (checkStatement (getBody def) (bodyContext def)) = false.
Proof. intros H. exact H. Qed.

Lemma flowWithin_keeps c c' {A} (r : Result A) :
  checkKeeps c c' -> flowWithin c' r -> flowWithin c r.
Proof.
  intros (H1 & H2 & _) [K1 K2].
  unfold flowWithin, SemanticContext.isInWhile, SemanticContext.isInFunction in *.
  rewrite <- H1, <- H2. auto.
Qed.

Lemma ensures_throw_flowWithin c ex :
  (ex = BreakFlowException \/ ex = ContinueFlowException -> SemanticContext.isInWhile c = true) ->
  (forall value, ex = ReturnFlowException value -> SemanticContext.isInFunction c = true) ->
  ensures (@throw Number ex) (flowWithin c).
Proof.
  intros H1 H2 st r st' _ [= <- <-]. split.
  - intros [H | H]; injection H as ->; apply H1; auto.
  - intros [value H]. injection H as ->. eapply H2. reflexivity.
Qed.

Lemma tryBody_noFlow (body : Interp Number) st rb st2 r st' :
  body st = (rb, st2) -> ~ isLoopFlow rb -> tryBody body st = (r, st') -> noFlow r.
Proof.
  intros Hrun Hloop. unfold tryBody. rewrite Hrun.
  assert (Hexit : forall (k : Interp Number) s r' s',
             (forall s1 r1 s2, k s1 = (r1, s2) -> noFlow r1) ->
             (let* _ := exitFunction in k) s = (r', s') -> noFlow r').
  { intros k s r' s' Hk H. apply bind_inv in H as [([] & s1 & _ & H) | (r1 & H & Hp)].
    - eapply Hk; eauto.
    - eapply propagated_noFlow; [exact Hp |]. unfold exitFunction in H.
      destruct (RuntimeContext.exitFunction (context s)); injection H as <- <-;
        first [apply noFlow_Returns | apply noFlow_not_Throws; discriminate]. }
  destruct rb as [v | [ | | | value | message] | | |]; intros H.
  - eapply Hexit; [| exact H]. intros s1 r1 s2 [= <- <-]. apply noFlow_Returns.
  - exfalso. apply Hloop. right. reflexivity.
  - exfalso. apply Hloop. left. reflexivity.
  - eapply Hexit; [| exact H]. intros s1 r1 s2 [= <- <-].
    split; [intros [K | K]; discriminate | intros [v K]; discriminate].
  - eapply Hexit; [| exact H]. intros s1 r1 s2 [= <- <-]. apply noFlow_Returns.
  - eapply Hexit; [| exact H]. intros s1 r1 s2 [= <- <-]. apply noFlow_RuntimeException.
  - injection H as <- <-. apply noFlow_not_Throws. discriminate.
  - injection H as <- <-. apply noFlow_not_Throws. discriminate.
  - injection H as <- <-. apply noFlow_not_Throws. discriminate.
Qed.

Lemma not_inWhile_zero c :
  SemanticContext.m_while c = 0%Z -> SemanticContext.isInWhile c = true -> False.
Proof. unfold SemanticContext.isInWhile. intros ->. discriminate. Qed.

Lemma ensures_whileBody c (body again : Interp Number) :
  preserves body ->
  ensures body (flowWithin (SemanticContext.enterWhile c)) ->
  ensures again (flowWithin c) ->
  ensures (whileBody body again) (flowWithin c).
Proof.
  intros Hp Hb Ha st r st' Hc H. unfold whileBody in H.
  destruct (body st) as [rb st1] eqn:Hrun.
  assert (Hc1 : defined rb -> functionsChecked (context st1)).
  { intros Hd. eapply functionsChecked_frame; [eapply Hp; eauto | exact Hc]. }
  pose proof (Hb _ _ _ Hc Hrun) as [_ Hret].
  destruct rb as [v | [ | | | value | message] | | |];
    try (eapply Ha; [apply Hc1; exact I | exact H]);
    injection H as <- <-.
  - apply noFlow_flowWithin, noFlow_Returns.
  - apply noFlow_flowWithin. split; [intros [K | K]; discriminate | intros [v K]; discriminate].
  - split; [intros [K | K]; discriminate |]. intros K. apply Hret. exact K.
  - apply noFlow_flowWithin, noFlow_RuntimeException.
  - apply noFlow_flowWithin, noFlow_not_Throws. discriminate.
  - apply noFlow_flowWithin, noFlow_not_Throws. discriminate.
  - apply noFlow_flowWithin, noFlow_not_Throws. discriminate.
Qed.

Lemma ensures_interpretList (interpret : Statement -> Interp Number) l :
  (forall s, preserves (interpret s)) ->
  forall c,
    (forall s c', checkKeeps c c' ->
       SemanticContext.detectedError (checkStatement s c') = false ->
       ensures (interpret s) (flowWithin c')) ->
    SemanticContext.detectedError (checkStatements l c) = false ->
    ensures (interpretList interpret l) (flowWithin c).
Proof.
  intros Hp. induction l as [| s l IH]; intros c Hs Herr; simpl.
  - apply ensures_ret, noFlow_flowWithin, noFlow_Returns.
  - simpl in Herr.
    assert (Hk : checkKeeps c (checkStatement s c)) by apply checkStatement_keeps.
    assert (Herr1 : SemanticContext.detectedError (checkStatement s c) = false).
    { eapply checkKeeps_no_error; [| exact Herr].
      apply checkStatements_keeps. apply List.Forall_forall. intros s' _.
      apply checkStatement_keeps. }
    eapply ensures_bind with (Q1 := flowWithin c).
    + apply Hp.
    + apply Hs; [apply checkKeeps_refl | exact Herr1].
    + intros _. intros st r st' Hc H. eapply flowWithin_keeps; [exact Hk |].
      eapply IH; [| exact Herr | exact Hc | exact H].
      intros s' c' Hk' Herr'. apply Hs; [| exact Herr'].
      eapply checkKeeps_trans; eauto.
    + intros r1 r. apply propagated_flowWithin.
Qed.

(** A checked statement lets [break] and [continue] out only inside a
    [while], and [return] only inside a function; an expression lets none
    of them out. *)
Lemma interpret_flow pow fuel :
  (forall e, ensures (interpretExpression pow fuel e) noFlow) /\
  (forall s c,
     (0 <= SemanticContext.m_while c)%Z ->
     SemanticContext.detectedError (checkStatement s c) = false ->
     ensures (interpretStatement pow fuel s) (flowWithin c)).
Proof.
  induction fuel as [| n [IHe IHs]].
  - split; intros; [| apply ensures_noFlow_flowWithin]; apply ensures_out_of_fuel.
  - destruct (interpret_preserves pow n) as [Pe Ps].
    assert (IHs' : forall s c' c,
               checkKeeps c c' -> (0 <= SemanticContext.m_while c)%Z ->
               SemanticContext.detectedError (checkStatement s c') = false ->
               ensures (interpretStatement pow n s) (flowWithin c)).
    { intros s c' c Hk Hw Herr st r st' Hc H. eapply flowWithin_keeps; [exact Hk |].
      eapply IHs; [| exact Herr | exact Hc | exact H].
      destruct Hk as (_ & -> & _). exact Hw. }
    split.
    + intros e. destruct e; simpl.
      * apply ensures_ret, noFlow_Returns.
      * apply ensures_getVariable.
      * eapply ensures_bind;
          [apply preserves_getVariable | apply ensures_getVariable | | apply @propagated_noFlow].
        intros value. eapply ensures_bind;
          [apply preserves_setVariable | apply ensures_setVariable | | apply @propagated_noFlow].
        intros _. apply ensures_ret, noFlow_Returns.
      * eapply ensures_bind;
          [apply preserves_getVariable | apply ensures_getVariable | | apply @propagated_noFlow].
        intros value. eapply ensures_bind;
          [apply preserves_setVariable | apply ensures_setVariable | | apply @propagated_noFlow].
        intros _. apply ensures_ret, noFlow_Returns.
      * eapply ensures_bind; [apply Pe | apply IHe | | apply @propagated_noFlow].
        intros lhs. eapply ensures_bind; [apply Pe | apply IHe | | apply @propagated_noFlow].
        intros rhs. apply ensures_arithmetic.
      * eapply ensures_bind; [apply Pe | apply IHe | | apply @propagated_noFlow].
        intros lhs. eapply ensures_bind; [apply Pe | apply IHe | | apply @propagated_noFlow].
        intros rhs. apply ensures_ret, noFlow_Returns.
      * eapply ensures_bind; [apply Pe | apply IHe | | apply @propagated_noFlow].
        intros value. apply ensures_ret, noFlow_Returns.
      * eapply ensures_bind; [apply Pe | apply IHe | | apply @propagated_noFlow].
        intros value. eapply ensures_bind;
          [apply preserves_setVariable | apply ensures_setVariable | | apply @propagated_noFlow].
        intros _. apply ensures_ret, noFlow_Returns.
      * intros st r st' Hc H.
        destruct (RuntimeContext.getFunctionDefinition (context st) m_name0)
          as [functionDef |] eqn:Hlookup; [| eapply ensures_throwError; eauto].
        destruct (negb _); [eapply ensures_throwError; eauto |].
        apply bind_inv in H as [(vs & st1 & Hargs & H) | (r1 & Hargs & Hp)].
        2:{ eapply propagated_noFlow; [exact Hp |].
            eapply ensures_interpretArguments; eauto. }
        assert (Hc1 : functionsChecked (context st1)).
        { eapply functionsChecked_frame; [| exact Hc].
          eapply preserves_interpretArguments; [exact Pe | exact Hargs | exact I]. }
        apply bind_inv in H as [([] & st2 & Henter & H) | (r1 & Henter & Hp)].
        2:{ eapply propagated_noFlow; [exact Hp |]. unfold enterFunction in Henter.
            destruct (RuntimeContext.enterFunction functionDef vs (context st1));
              injection Henter as <- <-;
              first [apply noFlow_Returns | apply noFlow_not_Throws; discriminate]. }
        assert (Hc2 : functionsChecked (context st2)).
        { unfold enterFunction, RuntimeContext.enterFunction in Henter.
          destruct (decide _) as [Hlen |]; [| discriminate]. injection Henter as <-.
          fold (entered functionDef vs st1).
          intros name def.
          destruct (entered_frame functionDef vs st1 Hlen) as (_ & -> & _). apply Hc1. }
        destruct (interpretStatement pow n (getBody functionDef) st2) as [rb st3] eqn:Hrun.
        eapply tryBody_noFlow; [exact Hrun | | exact H].
        intros Hloop.
        assert (Hbody : flowWithin (bodyContext functionDef) rb).
        { eapply IHs; [| | exact Hc2 | exact Hrun].
          - rewrite bodyContext_while. lia.
          - apply checkFuncDef_body. eapply Hc. exact Hlookup. }
        destruct Hbody as [Hw _].
        eapply not_inWhile_zero; [apply bodyContext_while | apply Hw, Hloop].
      * eapply ensures_bind; [apply Pe | apply IHe | | apply @propagated_noFlow].
        intros value. apply ensures_ret, noFlow_Returns.
    + intros s c Hw Herr. destruct s; simpl.
      * eapply ensures_bind with (Q1 := noFlow); [apply Pe | apply IHe | |].
        -- intros result. apply ensures_noFlow_flowWithin.
           destruct (shouldDisplayResult _); [| apply ensures_ret, noFlow_Returns].
           eapply ensures_bind;
             [apply preserves_display | apply ensures_display | | apply @propagated_noFlow].
           intros _. apply ensures_ret, noFlow_Returns.
        -- intros r1 r Hp H1. eapply noFlow_flowWithin, propagated_noFlow; eauto.
      * eapply ensures_bind with (Q1 := noFlow); [apply Pe | apply IHe | |].
        2:{ intros r1 r Hp H1. eapply noFlow_flowWithin, propagated_noFlow; eauto. }
        intros condition. simpl in Herr.
        assert (Ht : SemanticContext.detectedError (checkStatement s c) = false).
        { destruct m_falseStmt as [f |]; [| exact Herr].
          eapply checkKeeps_no_error; [apply checkStatement_keeps | exact Herr]. }
        destruct (Number.nonzero condition); [| destruct m_falseStmt as [f |]].
        -- eapply ensures_bind with (Q1 := flowWithin c);
             [apply Ps | apply IHs; assumption | | apply propagated_flowWithin].
           intros _. apply ensures_ret, noFlow_flowWithin, noFlow_Returns.
        -- eapply ensures_bind with (Q1 := flowWithin c);
             [apply Ps | | | apply propagated_flowWithin].
           ++ eapply IHs'; [apply checkStatement_keeps | exact Hw | exact Herr].
           ++ intros _. apply ensures_ret, noFlow_flowWithin, noFlow_Returns.
        -- apply ensures_ret, noFlow_flowWithin, noFlow_Returns.
      * eapply ensures_bind with (Q1 := noFlow); [apply Pe | apply IHe | |].
        2:{ intros r1 r Hp H1. eapply noFlow_flowWithin, propagated_noFlow; eauto. }
        intros condition.
        destruct (Number.nonzero condition);
          [| apply ensures_ret, noFlow_flowWithin, noFlow_Returns].
        apply ensures_whileBody; [apply Ps | |].
        -- apply IHs; [simpl; lia |]. exact Herr.
        -- apply IHs; assumption.
      * apply ensures_throw_flowWithin.
        -- intros _. simpl in Herr. unfold SemanticContext.checkBreak in Herr.
           destruct (SemanticContext.isInWhile c) eqn:E; [reflexivity | discriminate Herr].
        -- intros value. discriminate.
      * apply ensures_throw_flowWithin.
        -- intros _. simpl in Herr. unfold SemanticContext.checkContinue in Herr.
           destruct (SemanticContext.isInWhile c) eqn:E; [reflexivity | discriminate Herr].
        -- intros value. discriminate.
      * apply ensures_throw_flowWithin.
        -- intros [K | K]; discriminate.
        -- intros value. discriminate.
      * assert (Hf : SemanticContext.isInFunction c = true).
        { simpl in Herr. unfold SemanticContext.checkReturn in Herr.
          destruct (SemanticContext.isInFunction c) eqn:E; [reflexivity | discriminate Herr]. }
        destruct m_expr as [expr |].
        -- eapply ensures_bind with (Q1 := noFlow); [apply Pe | apply IHe | |].
           2:{ intros r1 r Hp H1. eapply noFlow_flowWithin, propagated_noFlow; eauto. }
           intros value. apply ensures_throw_flowWithin.
           ++ intros [K | K]; discriminate.
           ++ intros _ _. exact Hf.
        -- apply ensures_throw_flowWithin.
           ++ intros [K | K]; discriminate.
           ++ intros _ _. exact Hf.
      * rewrite checkStatement_StatementList in Herr.
        apply ensures_interpretList; [exact Ps | | exact Herr].
        intros s c' Hk Herr'. apply IHs; [| exact Herr'].
        destruct Hk as (_ & -> & _). exact Hw.
Qed.

(** ** The parse loop keeps the function table checked *)

Lemma functionsChecked_empty : functionsChecked RuntimeContext.empty.
Proof. intros name def H. simpl in H. rewrite lookup_empty in H. discriminate. Qed.

Lemma functionsChecked_add def c :
  SemanticContext.detectedError (checkFuncDef def SemanticContext.reset) = false ->
  functionsChecked c ->
  functionsChecked (RuntimeContext.addFunctionDefinition def c).
Proof.
  intros Hdef Hc name def' H. simpl in H.
  rewrite lookup_insert_Some in H.
  destruct H as [H | H]; destruct H as [H1 H2].
  - rewrite <- H2. exact Hdef.
  - eapply Hc. exact H2.
Qed.

Lemma toplevel_flow pow fuel line st r st' :
  functionsChecked (context st) ->
  SemanticContext.detectedError (checkStatement (StatementList line) SemanticContext.reset)
    = false ->
  interpretStatement pow fuel (StatementList line) st = (r, st') ->
  noFlow r.
Proof.
  intros Hc Herr H.
  destruct (interpret_flow pow fuel) as [_ Hs].
  destruct (Hs (StatementList line) SemanticContext.reset ltac:(simpl; lia) Herr st r st' Hc H)
    as [Hloop Hret].
  split; intros K; [apply Hloop in K | apply Hret in K]; discriminate K.
Qed.

(** Every diagnostic comes with the error flag, and the flag with a
    diagnostic. *)
Lemma reported_reset : reported SemanticContext.reset.
Proof. split; reflexivity. Qed.

Lemma reported_flag error c (b : bool) :
  reported c -> reported (if b then SemanticContext.flagError error c else c).
Proof.
  intros H. destruct b; [| exact H]. split; simpl; [discriminate |].
  intros K. apply app_eq_nil in K as [_ K]. discriminate K.
Qed.

Lemma checkStatements_reported l :
  List.Forall (fun s => forall c, reported c -> reported (checkStatement s c)) l ->
  forall c, reported c -> reported (checkStatements l c).
Proof.
  induction 1 as [| s l Hs _ IH]; intros c Hc; simpl; [exact Hc |].
  apply IH, Hs, Hc.
Qed.

Lemma checkStatement_reported s : forall c, reported c -> reported (checkStatement s c).
Proof.
  induction s as [e | e t f IHt IHf | e s IH | | | | e | l IH] using Statement_nested_ind;
    intros c Hc; try rewrite checkStatement_StatementList; simpl.
  - exact Hc.
  - destruct f as [s |]; [apply IHf |]; apply IHt, Hc.
  - apply (IH (SemanticContext.enterWhile c) Hc).
  - apply reported_flag, Hc.
  - apply reported_flag, Hc.
  - exact Hc.
  - apply reported_flag, Hc.
  - apply checkStatements_reported; [exact IH | exact Hc].
Qed.

Lemma checkVariableList_reported names : forall seen c,
  reported c -> reported (checkVariableList seen names c).
Proof.
  induction names as [| x names IH]; intros seen c Hc; simpl; [exact Hc |].
  apply IH. unfold SemanticContext.checkFunctionVariable.
  destruct (SemanticContext.isStringInList seen x);
    [apply (reported_flag _ _ true), Hc |].
  destruct (SemanticContext.m_funcArgs c) as [funcArgs |]; [| exact Hc].
  apply reported_flag, Hc.
Qed.

Lemma checkFuncDef_reported def : reported (checkFuncDef def SemanticContext.reset).
Proof.
  unfold checkFuncDef.
  apply (checkStatement_reported (StatementList (m_commands def))
           (checkVariableList [] (m_autos def)
              (SemanticContext.setFunctionArguments (m_args def)
                 (checkVariableList [] (m_args def)
                    (SemanticContext.enterFunction SemanticContext.reset))))).
  apply (checkVariableList_reported (m_autos def) []
           (SemanticContext.setFunctionArguments (m_args def)
              (checkVariableList [] (m_args def)
                 (SemanticContext.enterFunction SemanticContext.reset)))).
  apply (checkVariableList_reported (m_args def) []
           (SemanticContext.enterFunction SemanticContext.reset)).
  exact reported_reset.
Qed.

Lemma parsed_checked c i :
  reported c -> SemanticContext.detectedError c = false -> parsed c i = i.
Proof.
  intros Hc Herr. unfold parsed. rewrite (proj1 Hc Herr). simpl. rewrite app_nil_r.
  destruct i. reflexivity.
Qed.

(** The action of [command] for a command that passed the checks. *)
Lemma command_FuncDef_checked pow fuel def i :
  SemanticContext.detectedError (checkFuncDef def SemanticContext.reset) = false ->
  command pow fuel (FuncDefCommand def) i
  = (Parsing, {| runContext := RuntimeContext.addFunctionDefinition def (runContext i);
                 cout := cout i; cerr := cerr i |}).
Proof.
  intros Herr. unfold command. cbv zeta.
  rewrite (parsed_checked _ i (checkFuncDef_reported def) Herr), Herr. reflexivity.
Qed.

Lemma command_StatementLine_checked pow fuel line i :
  SemanticContext.detectedError
    (checkStatement (StatementList line) SemanticContext.reset) = false ->
  command pow fuel (StatementLineCommand line) i
  = match interpretStatement pow fuel (StatementList line) (stateOf i) with
    | (Returns _, st) =>
        (Parsing, {| runContext := context st; cout := o st; cerr := cerr i |})
    | (Throws (RuntimeException message), st) =>
        (Parsing, {| runContext := context st; cout := o st;
                     cerr := cerr i ++ [Text (endl +:+ message +:+ endl)] |})
    | (Throws HaltFlowException, st) =>
        (Accepted, {| runContext := context st; cout := o st; cerr := cerr i |})
    | (Throws ex, st) =>
        (Terminated ex, {| runContext := context st; cout := o st; cerr := cerr i |})
    | (r, st) =>
        (Stuck r, {| runContext := context st; cout := o st; cerr := cerr i |})
    end.
Proof.
  intros Herr. unfold command. cbv zeta.
  rewrite (parsed_checked _ i
             (checkStatement_reported (StatementList line) _ reported_reset) Herr), Herr.
  reflexivity.
Qed.

(** [command] with the parse of the command written out. *)
Ltac unfold_command :=
  unfold command; cbv zeta; unfold parsed; cbn [runContext cout cerr].

Lemma command_checked pow fuel cmd i status i' :
  functionsChecked (runContext i) ->
  command pow fuel cmd i = (status, i') ->
  (status = Parsing -> functionsChecked (runContext i')) /\
  (forall ex, status <> Terminated ex).
Proof.
  intros Hc. destruct cmd as [def | line]; unfold_command.
  - destruct (SemanticContext.detectedError (checkFuncDef def SemanticContext.reset)) eqn:Herr;
      intros [= <- <-]; (split; [intros _ | discriminate]); [exact Hc |].
    apply functionsChecked_add; assumption.
  - destruct (SemanticContext.detectedError
                (checkStatement (StatementList line) SemanticContext.reset)) eqn:Herr.
    { intros [= <- <-]. split; [intros _; exact Hc | discriminate]. }
    destruct (interpretStatement pow fuel (StatementList line)
                {| context := runContext i; o := cout i |}) as [r st] eqn:Hrun.
    pose proof (toplevel_flow pow fuel line (stateOf i) r st Hc Herr Hrun) as [Hloop Hret].
    assert (Hframe : defined r -> functionsChecked (context st)).
    { intros Hd. apply (functionsChecked_frame (stateOf i)); [| exact Hc].
      eapply (proj2 (interpret_preserves pow fuel)); [exact Hrun | exact Hd]. }
    destruct r as [v | [ | | | value | message] | | |]; intros [= <- <-]; simpl.
    + split; [intros _; apply Hframe; exact I | discriminate].
    + exfalso. apply Hloop. right. reflexivity.
    + exfalso. apply Hloop. left. reflexivity.
    + split; discriminate.
    + exfalso. apply Hret. exists value. reflexivity.
    + split; [intros _; apply Hframe; exact I | discriminate].
    + split; discriminate.
    + split; discriminate.
    + split; discriminate.
Qed.

Lemma prog_checked pow fuel cmds : forall i status i',
  functionsChecked (runContext i) ->
  prog pow fuel cmds i = (status, i') ->
  (status = Parsing -> functionsChecked (runContext i')) /\
  (forall ex, status <> Terminated ex).
Proof.
  induction cmds as [| cmd cmds IH]; intros i status i' Hc; simpl.
  - intros [= <- <-]. split; [intros _; exact Hc | discriminate].
  - destruct (command pow fuel cmd i) as [status1 i1] eqn:Hcmd.
    destruct (command_checked pow fuel cmd i status1 i1 Hc Hcmd) as [H1 H2].
    destruct status1; try (intros [= <- <-]; split; [discriminate | exact H2]).
    intros H. eapply IH; [apply H1; reflexivity | exact H].
Qed.

(** No sequence of commands ends the process through an exception that
    nothing catches: whatever is thrown is a runtime error, which the
    parse loop reports, or [halt], which it accepts. *)
Theorem prog_never_terminated pow fuel cmds ex :
  fst (prog pow fuel cmds initial) <> Terminated ex.
Proof.
  destruct (prog pow fuel cmds initial) as [status i] eqn:H.
  eapply prog_checked; [| exact H]. apply functionsChecked_empty.
Qed.

Lemma command_call_stack pow fuel cmd i status i' :
  RuntimeContext.m_callStack (runContext i) = [] ->
  command pow fuel cmd i = (status, i') ->
  (forall r, status <> Stuck r) ->
  RuntimeContext.m_callStack (runContext i') = [].
Proof.
  intros Hcs. destruct cmd as [def | line]; unfold_command.
  - destruct (SemanticContext.detectedError (checkFuncDef def SemanticContext.reset));
      intros [= <- <-] _; exact Hcs.
  - destruct (SemanticContext.detectedError
                (checkStatement (StatementList line) SemanticContext.reset)).
    { intros [= <- <-] _. exact Hcs. }
    destruct (interpretStatement pow fuel (StatementList line)
                {| context := runContext i; o := cout i |}) as [r st] eqn:Hrun.
    assert (Hframe : defined r -> RuntimeContext.m_callStack (context st) = []).
    { intros Hd.
      destruct (proj2 (interpret_preserves pow fuel) _ (stateOf i) r st Hrun Hd) as (-> & _).
      exact Hcs. }
    destruct r as [v | [ | | | value | message] | | |]; intros [= <- <-] Hstuck; simpl;
      try (apply Hframe; exact I); exfalso; eapply Hstuck; reflexivity.
Qed.

(** Between commands no call is active and the call stack is empty. *)
Theorem prog_call_stack_empty pow fuel cmds : forall i status i',
  RuntimeContext.m_callStack (runContext i) = [] ->
  prog pow fuel cmds i = (status, i') ->
  (forall r, status <> Stuck r) ->
  RuntimeContext.m_callStack (runContext i') = [].
Proof.
  induction cmds as [| cmd cmds IH]; intros i status i' Hcs; simpl.
  - intros [= <- <-] _. exact Hcs.
  - destruct (command pow fuel cmd i) as [status1 i1] eqn:Hcmd.
    pose proof (command_call_stack pow fuel cmd i status1 i1 Hcs Hcmd) as H1.
    destruct status1; try (intros [= <- <-] Hstuck; apply H1; exact Hstuck).
    intros H Hstuck. eapply IH; [| exact H | exact Hstuck]. apply H1. discriminate.
Qed.

Lemma while_catches pow fuel condition body :
  ensures (interpretStatement pow fuel (WhileStatement condition body))
          (fun r => ~ isLoopFlow r).
Proof.
  induction fuel as [| n IH]; intros st r st' Hc H.
  - injection H as <- <-. intros [K | K]; discriminate.
  - simpl in H. destruct (interpret_preserves pow n) as [Pe Ps].
    destruct (interpret_flow pow n) as [Fe _].
    apply bind_inv in H as [(v & st1 & Hcond & H) | (r1 & Hcond & Hp)].
    2:{ apply (propagated_noFlow _ _ Hp). eapply Fe; eauto. }
    assert (Hc1 : functionsChecked (context st1)).
    { eapply functionsChecked_frame; [eapply Pe; [exact Hcond | exact I] | exact Hc]. }
    destruct (Number.nonzero v).
    2:{ injection H as <- <-. intros [K | K]; discriminate. }
    unfold whileBody in H.
    destruct (interpretStatement pow n body st1) as [rb st2] eqn:Hrun.
    assert (Hc2 : defined rb -> functionsChecked (context st2)).
    { intros Hd. eapply functionsChecked_frame; [eapply Ps; eauto | exact Hc1]. }
    destruct rb as [v' | [ | | | value | message] | | |];
      try (eapply IH; [apply Hc2; exact I | exact H]);
      injection H as <- <-; intros [K | K]; discriminate.
Qed.

(** ** The evaluator on the scenarios of the specification *)

Example floor_examples :
  Number.floor 0x1.7333333333333p+1%float = 2%float /\
  Number.floor (-3)%float = (-3)%float /\
  Number.floor (-0.5)%float = (-1)%float /\
  Number.floor 0.5%float = 0%float /\
  Number.floor infinity = infinity /\
  Number.floor nan = nan.
Proof. split_and!; reflexivity. Qed.

Example scenario_arithmetic :
  cout (snd (prog pow_small 10
               [StatementLineCommand
                  [ExpressionStatement
                     (ArithmeticExpression num1
                        (ArithmeticExpression (ConstantExpression 2%float)
                           (ConstantExpression 3%float) OP_MUL) OP_PLUS)]] initial))
  = [7%float].
Proof. vm_compute. reflexivity. Qed.

Example scenario_factorial :
  cout (snd (prog pow_small 40
               [FuncDefCommand define_fact;
                StatementLineCommand
                  [ExpressionStatement
                     (FunctionCallExpression "fact" [ConstantExpression 5%float])]] initial))
  = [120%float].
Proof. vm_compute. reflexivity. Qed.

Example scenario_while :
  cout (snd (prog pow_small 20 count_to_three initial)) = [0%float; 1%float; 2%float].
Proof. vm_compute. reflexivity. Qed.

Example scenario_duplicate_name :
  let g := {| m_name := "g"; m_args := ["x"]; m_autos := ["x"];
              m_commands := [ExpressionStatement (AssignExpression "x" num1);
                             ReturnStatement (Some (VariableExpression "x"))] |} in
  SemanticContext.detectedError (checkFuncDef g SemanticContext.reset) = true /\
  prog pow_small 4 [FuncDefCommand g; StatementLineCommand [ExpressionStatement num1]] initial
  = (Parsing, {| runContext := RuntimeContext.empty; cout := [1%float];
                 cerr := [Diagnostic "duplicate name in parameter or auto variable list"] |}).
Proof. split; vm_compute; reflexivity. Qed.

Example scenario_division_by_zero :
  let result := prog pow_small 4
                  [StatementLineCommand
                     [ExpressionStatement
                        (ArithmeticExpression num1 (ConstantExpression 0%float) OP_DIV)];
                   StatementLineCommand [ExpressionStatement (ConstantExpression 2%float)]]
                  initial in
  fst result = Parsing /\
  cout (snd result) = [2%float] /\
  cerr (snd result)
  = [Text (endl +:+ "runtime error in function (main): division by zero." +:+ endl)].
Proof. split_and!; vm_compute; reflexivity. Qed.

Example scenario_break_outside_while :
  SemanticContext.detectedError
    (checkStatement (StatementList [BreakStatement]) SemanticContext.reset) = true /\
  prog pow_small 4 [StatementLineCommand [BreakStatement]] initial
  = (Parsing, {| runContext := RuntimeContext.empty; cout := [];
                 cerr := [Diagnostic "break outside while"] |}).
Proof. split; vm_compute; reflexivity. Qed.

Example scenario_halt :
  fst (prog pow_small 4
         [StatementLineCommand [HaltStatement];
          StatementLineCommand [ExpressionStatement num1]] initial) = Accepted /\
  cout (snd (prog pow_small 4
               [StatementLineCommand [HaltStatement];
                StatementLineCommand [ExpressionStatement num1]] initial)) = [].
Proof. split; vm_compute; reflexivity. Qed.

(** ** Properties of the evaluator *)

Lemma interpretArguments_length (interpret : Expression -> Interp Number) l :
  forall st vs st', interpretArguments interpret l st = (Returns vs, st') ->
  length vs = length l.
Proof.
  induction l as [| e l IH]; intros st vs st' H; simpl in H.
  - injection H as <- <-. reflexivity.
  - apply bind_inv in H as [(v & st1 & _ & H) | (r1 & _ & Hp)]; [| inversion Hp].
    apply bind_inv in H as [(vs' & st2 & Hl & H) | (r1 & _ & Hp)]; [| inversion Hp].
    injection H as <- <-. simpl. f_equal. eapply IH. exact Hl.
Qed.

Lemma bind_ext {A B} (m : Interp A) (k1 k2 : A -> Interp B) st :
  (forall a st1, k1 a st1 = k2 a st1) -> bind m k1 st = bind m k2 st.
Proof.
  intros H. unfold bind. destruct (m st) as [[a | ex | | |] st1]; auto.
Qed.

Lemma interpretList_app (interpret : Statement -> Interp Number) l1 l2 st :
  interpretList interpret (l1 ++ l2) st =
  (let* _ := interpretList interpret l1 in interpretList interpret l2) st.
Proof.
  revert st. induction l1 as [| s l1 IH]; intros st; simpl.
  - reflexivity.
  - rewrite bind_assoc. apply bind_ext. intros _ st1. apply IH.
Qed.

Lemma interpretArguments_app (interpret : Expression -> Interp Number) l1 l2 st :
  interpretArguments interpret (l1 ++ l2) st =
  (let* vs1 := interpretArguments interpret l1 in
   let* vs2 := interpretArguments interpret l2 in
   ret (vs1 ++ vs2)%list) st.
Proof.
  revert st. induction l1 as [| e l1 IH]; intros st; simpl.
  - unfold bind, ret. destruct (interpretArguments interpret l2 st) as [[vs | ex | | |] st1];
      reflexivity.
  - rewrite bind_assoc. apply bind_ext. intros v st1.
    rewrite bind_assoc. unfold bind at 1. rewrite IH. unfold bind, ret.
    destruct (interpretArguments interpret l1 st1) as [[vs1 | ex | | |] st2]; try reflexivity.
    destruct (interpretArguments interpret l2 st2) as [[vs2 | ex | | |] st3]; reflexivity.
Qed.

(** Reading a variable: the top of its stack, [0] for a name without an
    entry, and nothing defined for an entry whose stack is empty. *)
Lemma getVariable_cases c x :
  (forall v rest,
     RuntimeContext.m_variables c !! x = Some (v :: rest) ->
     RuntimeContext.getVariable c x = Some v) /\
  (RuntimeContext.m_variables c !! x = None ->
   RuntimeContext.getVariable c x = Some Number.zero) /\
  (RuntimeContext.m_variables c !! x = Some [] ->
   RuntimeContext.getVariable c x = None).
Proof.
  unfold RuntimeContext.getVariable. split_and!.
  - intros v rest H. rewrite H. reflexivity.
  - intros H. rewrite H. reflexivity.
  - intros H. rewrite H. reflexivity.
Qed.

(** Popping the last binding of a name leaves its entry in the map, with
    an empty stack. *)
Lemma delVariable_last c x v :
  RuntimeContext.m_variables c !! x = Some [v] ->
  exists c', RuntimeContext.delVariable x c = Some c' /\
             RuntimeContext.m_variables c' !! x = Some [] /\
             RuntimeContext.getVariable c' x = None.
Proof.
  intros H. unfold RuntimeContext.delVariable. rewrite H. eexists. split; [reflexivity |].
  unfold RuntimeContext.getVariable. simpl. rewrite lookup_insert_eq. split; reflexivity.
Qed.

(** C1. Reading a variable yields the top of its stack, and [0] for a
    name that has no entry ([getVariable_cases]); but for a name whose
    bindings were all popped the entry is still there, empty, and the read
    is undefined instead of yielding [0]: after [define f(n) { return n }]
    and [f(1)], which prints [1], the command [n] has no defined result. *)
Theorem variable_read_after_call_undefined :
  let program :=
    [FuncDefCommand define_f;
     StatementLineCommand [ExpressionStatement (FunctionCallExpression "f" [num1])];
     StatementLineCommand [ExpressionStatement (VariableExpression "n")]] in
  fst (prog pow_small 8 program initial) = Stuck Undefined /\
  cout (snd (prog pow_small 8 program initial)) = [1%float] /\
  RuntimeContext.m_variables (runContext (snd (prog pow_small 8 program initial))) !! "n"
    = Some [] /\
  RuntimeContext.getVariable (runContext (snd (prog pow_small 8 program initial))) "n"
    = None /\
  RuntimeContext.getVariable (runContext (snd (prog pow_small 8 program initial))) "m"
    = Some 0%float.
Proof.
  intros program. split_and!; vm_compute; reflexivity.
Qed.

(** C2. Once the body of a call has begun, every defined way it ends
    (falling through, [return], a runtime error, [halt], any exception)
    is followed by [exitFunction], which succeeds: the call stack, one
    frame deeper during the body, is popped once, and the stack of every
    name loses exactly one value for each time the name is an auto
    variable or a parameter of the function. *)
Theorem call_unwinds_frame pow n f args st functionDef vs st1 rb st2 :
  RuntimeContext.getFunctionDefinition (context st) f = Some functionDef ->
  length (getArguments functionDef) = length args ->
  interpretArguments (interpretExpression pow n) args st = (Returns vs, st1) ->
  interpretStatement pow n (getBody functionDef) (entered functionDef vs st1) = (rb, st2) ->
  defined rb ->
  exists c3,
    RuntimeContext.exitFunction (context st2) = RuntimeContext.Exited c3 /\
    interpretExpression pow (S n) (FunctionCallExpression f args) st
      = (callResult rb, with_context c3 st2) /\
    RuntimeContext.m_callStack (context st2)
      = functionDef :: RuntimeContext.m_callStack (context st) /\
    RuntimeContext.m_callStack c3 = RuntimeContext.m_callStack (context st) /\
    (forall x, depth x c3
               + occurrences x (getAutoVariables functionDef ++ getArguments functionDef)
               = depth x (context st2)).
Proof.
  intros Hlookup Hlen Hargs Hrun Hdef.
  destruct (interpret_preserves pow n) as [Pe Ps].
  assert (Hvs : length (getArguments functionDef) = length vs).
  { rewrite Hlen. symmetry. eapply interpretArguments_length. exact Hargs. }
  destruct (preserves_interpretArguments _ args Pe _ _ _ Hargs I) as (Acs & _).
  destruct (tryBody_unwinds _ functionDef vs st1 rb st2 (Ps (getBody functionDef)) Hvs Hrun Hdef)
    as (c3 & Hexit & Htry & Hcs2 & Hcs3 & Hd & _).
  exists c3. split; [exact Hexit |]. split.
  { simpl. rewrite Hlookup. rewrite Hlen, Nat.eqb_refl. simpl.
    unfold bind at 1. rewrite Hargs.
    unfold bind at 1. rewrite (enterFunction_entered _ _ _ Hvs). exact Htry. }
  split; [rewrite Hcs2, Acs; reflexivity |].
  split; [rewrite Hcs3, Acs; reflexivity | exact Hd].
Qed.

Lemma call_unwinds_frame_witness :
  exists c3,
    RuntimeContext.exitFunction
      (context (entered define_f [1%float]
                  (stateOf (snd (prog pow_small 0 [FuncDefCommand define_f] initial)))))
      = RuntimeContext.Exited c3 /\
    interpretExpression pow_small 4 (FunctionCallExpression "f" [num1])
      (stateOf (snd (prog pow_small 0 [FuncDefCommand define_f] initial)))
      = (callResult (Throws (ReturnFlowException 1%float)),
         with_context c3
           (entered define_f [1%float]
              (stateOf (snd (prog pow_small 0 [FuncDefCommand define_f] initial))))) /\
    RuntimeContext.m_callStack
      (context (entered define_f [1%float]
                  (stateOf (snd (prog pow_small 0 [FuncDefCommand define_f] initial)))))
      = define_f :: RuntimeContext.m_callStack
                      (context (stateOf (snd (prog pow_small 0 [FuncDefCommand define_f] initial)))) /\
    RuntimeContext.m_callStack c3
      = RuntimeContext.m_callStack
          (context (stateOf (snd (prog pow_small 0 [FuncDefCommand define_f] initial)))) /\
    (forall x, depth x c3
               + occurrences x (getAutoVariables define_f ++ getArguments define_f)
               = depth x
                   (context (entered define_f [1%float]
                      (stateOf (snd (prog pow_small 0 [FuncDefCommand define_f] initial)))))).
Proof.
  apply (call_unwinds_frame pow_small 3 "f" [num1]
           (stateOf (snd (prog pow_small 0 [FuncDefCommand define_f] initial)))
           define_f [1%float]
           (stateOf (snd (prog pow_small 0 [FuncDefCommand define_f] initial)))
           (Throws (ReturnFlowException 1%float))
           (entered define_f [1%float]
              (stateOf (snd (prog pow_small 0 [FuncDefCommand define_f] initial))))).
  - vm_compute. reflexivity.
  - reflexivity.
  - vm_compute. reflexivity.
  - vm_compute. reflexivity.
  - exact I.
Defined.

(** C3. In every state reached by running commands (more generally, in
    every state with the function table of such an interpreter), a
    statement line that passes the semantic checks never ends in a
    [break], [continue] or [return] transfer; a [while] statement, checked
    or not, never lets a [break] or [continue] out, and a function call
    never lets a [return] out. Together with [prog_never_terminated]:
    [halt] is the only transfer that reaches the top level. *)
Theorem only_halt_escapes pow fuel cmds i :
  prog pow fuel cmds initial = (Parsing, i) ->
  forall fuel' st,
    RuntimeContext.m_functionTable (context st) = RuntimeContext.m_functionTable (runContext i) ->
    (forall line r st',
       SemanticContext.detectedError
         (checkStatement (StatementList line) SemanticContext.reset) = false ->
       interpretStatement pow fuel' (StatementList line) st = (r, st') ->
       ~ isLoopFlow r /\ ~ isReturnFlow r) /\
    (forall condition body r st',
       interpretStatement pow fuel' (WhileStatement condition body) st = (r, st') ->
       ~ isLoopFlow r) /\
    (forall f args r st',
       interpretExpression pow fuel' (FunctionCallExpression f args) st = (r, st') ->
       ~ isReturnFlow r).
Proof.
  intros Hprog fuel' st Hft.
  assert (Hc : functionsChecked (context st)).
  { intros name def. rewrite Hft.
    apply (proj1 (prog_checked pow fuel cmds initial Parsing i functionsChecked_empty Hprog)).
    reflexivity. }
  split_and!.
  - intros line r st' Herr H. eapply toplevel_flow; eauto.
  - intros condition body r st' H. eapply while_catches; eauto.
  - intros f args r st' H.
    eapply (proj1 (interpret_flow pow fuel') (FunctionCallExpression f args)); eauto.
Qed.

Lemma only_halt_escapes_witness :
  ~ isLoopFlow
      (fst (interpretStatement pow_small 8
              (StatementList [ExpressionStatement (FunctionCallExpression "f" [num1])])
              (stateOf (snd (prog pow_small 0 [FuncDefCommand define_f] initial))))) /\
  ~ isReturnFlow
      (fst (interpretStatement pow_small 8
              (StatementList [ExpressionStatement (FunctionCallExpression "f" [num1])])
              (stateOf (snd (prog pow_small 0 [FuncDefCommand define_f] initial))))).
Proof.
  destruct (only_halt_escapes pow_small 0 [FuncDefCommand define_f]
              (snd (prog pow_small 0 [FuncDefCommand define_f] initial)) eq_refl 8
              (stateOf (snd (prog pow_small 0 [FuncDefCommand define_f] initial))) eq_refl)
    as (Hline & _ & _).
  apply (Hline [ExpressionStatement (FunctionCallExpression "f" [num1])] _ _ eq_refl
           (surjective_pairing _)).
Defined.

(** C4, as amended. The compound assignment [x op= e] is the assignment
    [x = x op e], and that reads [x], then evaluates [e], then combines
    and stores: the left operand is the value [x] had before [e] ran, so
    what [e] does to [x] does not reach it. *)
Theorem compound_assignment_reads_first pow fuel x op e st :
  compoundAssign x op e = AssignExpression x (ArithmeticExpression (VariableExpression x) e op) /\
  interpretExpression pow (S (S (S fuel))) (compoundAssign x op e) st
    = readEvaluateCombineStore pow (S fuel) x op e st.
Proof.
  split; [reflexivity |].
  unfold compoundAssign, readEvaluateCombineStore.
  change (interpretExpression pow (S (S (S fuel)))
            (AssignExpression x (ArithmeticExpression (VariableExpression x) e op)))
    with (let* value := (let* lhs := getVariable x in
                         let* rhs := interpretExpression pow (S fuel) e in
                         arithmetic pow op lhs rhs) in
          let* _ := setVariable x value in ret value).
  rewrite bind_assoc. apply bind_ext. intros lhs st1.
  rewrite bind_assoc. reflexivity.
Qed.

(** C4, the claim as stated fails: after [define g() { x = 10; return 1 }]
    and [x = 1], the code evaluates [x += g()] to [2], while evaluating
    [g()] first and reading [x] after it gives [11]. *)
Lemma compound_assignment_order_counterexample :
  fst (interpretExpression pow_small 10
         (compoundAssign "x" OP_PLUS (FunctionCallExpression "g" [])) state_g_x1)
    = Returns 2%float /\
  fst (evaluateReadCombineStore pow_small 8 "x" OP_PLUS (FunctionCallExpression "g" [])
         state_g_x1)
    = Returns 11%float /\
  interpretExpression pow_small 10
    (compoundAssign "x" OP_PLUS (FunctionCallExpression "g" [])) state_g_x1
  <> evaluateReadCombineStore pow_small 8 "x" OP_PLUS (FunctionCallExpression "g" [])
       state_g_x1.
Proof.
  assert (H1 : fst (interpretExpression pow_small 10
                      (compoundAssign "x" OP_PLUS (FunctionCallExpression "g" [])) state_g_x1)
               = Returns 2%float) by (vm_compute; reflexivity).
  assert (H2 : fst (evaluateReadCombineStore pow_small 8 "x" OP_PLUS
                      (FunctionCallExpression "g" []) state_g_x1)
               = Returns 11%float) by (vm_compute; reflexivity).
  split_and!; [exact H1 | exact H2 |].
  intros H. rewrite H, H2 in H1.
  apply (f_equal (fun r => match r with
                           | Returns v => PrimFloat.eqb v 2%float
                           | _ => false
                           end)) in H1.
  vm_compute in H1. discriminate H1.
Qed.

Lemma append_cancel_l (s a b : string) : s +:+ a = s +:+ b -> a = b.
Proof.
  induction s as [| ch s IH]; simpl; [auto |]. intros [= H]. auto.
Qed.

(** ** The runtime errors an evaluation raises *)

Lemma colonFree_split a : forall b x y,
  colonFree a = true -> colonFree b = true ->
  a +:+ ": " +:+ x = b +:+ ": " +:+ y -> a = b /\ x = y.
Proof.
  induction a as [| ch a IH]; intros [| ch' b] x y Ha Hb H; cbn in *.
  - injection H as H. auto.
  - injection H as H1 H2. subst ch'. discriminate Hb.
  - injection H as H1 H2. subst ch. discriminate Ha.
  - injection H as H1 H2. subst ch'.
    apply andb_true_iff in Ha as [_ Ha]. apply andb_true_iff in Hb as [_ Hb].
    destruct (IH b x y Ha Hb H2) as [-> ->]. auto.
Qed.

Lemma length_append (a b : string) :
  String.length (a +:+ b) = String.length a + String.length b.
Proof.
  induction a as [| ch a IH]; [reflexivity |].
  change (S (String.length (a +:+ b)) = S (String.length a + String.length b)).
  rewrite IH. reflexivity.
Qed.

Lemma append_cancel_r (s : string) : forall a b, a +:+ s = b +:+ s -> a = b.
Proof.
  induction a as [| ch a IH]; intros [| ch' b] H.
  - reflexivity.
  - apply (f_equal String.length) in H. rewrite !length_append in H.
    change (String.length (String ch' b)) with (S (String.length b)) in H.
    change (String.length "") with 0 in H. lia.
  - apply (f_equal String.length) in H. rewrite !length_append in H.
    change (String.length (String ch a)) with (S (String.length a)) in H.
    change (String.length "") with 0 in H. lia.
  - change (String ch (a +:+ s) = String ch' (b +:+ s)) in H.
    injection H as -> H. f_equal. apply IH, H.
Qed.

(** The message of a runtime error tells what [throwError] was called
    with, in whatever function. *)
Lemma throwError_inj c1 c2 m1 m2 :
  namedStack c1 -> namedStack c2 ->
  RuntimeContext.throwError c1 m1 = RuntimeContext.throwError c2 m2 -> m1 = m2.
Proof.
  intros H1 H2 H. unfold RuntimeContext.throwError in H. apply append_cancel_l in H.
  assert (Hcurr : forall c, namedStack c ->
            colonFree match RuntimeContext.m_callStack c with
                      | [] => "(main)"
                      | function :: _ => getName function
                      end = true).
  { intros c Hc. unfold namedStack in Hc.
    destruct (RuntimeContext.m_callStack c) as [| function rest]; [reflexivity |].
    inversion Hc; assumption. }
  apply colonFree_split in H as [_ H]; [| apply Hcurr, H1 | apply Hcurr, H2].
  apply append_cancel_r in H. exact H.
Qed.

Lemma named_frame T st st' : frame_le st st' -> named T st -> named T st'.
Proof.
  intros (Hcs & Hft & _) (HT & Hstack & Htable). unfold named, wellNamed, namedStack.
  rewrite Hcs, Hft. auto.
Qed.

Lemma raising_bind T {A B} (m : Interp A) (k : A -> Interp B) :
  preserves m -> raising T m -> (forall a, raising T (k a)) -> raising T (bind m k).
Proof.
  intros Hp Hm Hk st r st' message Hst H Hr.
  apply bind_inv in H as [(a & st1 & H1 & H2) | (r1 & H1 & Hpr)].
  - eapply Hk; [| exact H2 | exact Hr]. eapply named_frame; [| exact Hst].
    eapply Hp; [exact H1 | exact I].
  - subst r. inversion Hpr; subst. eapply Hm; [exact Hst | exact H1 | reflexivity].
Qed.

Lemma raising_none T {A} (m : Interp A) :
  (forall st r st' message, m st = (r, st') -> r <> Throws (RuntimeException message)) ->
  raising T m.
Proof. intros H st r st' message _ Hrun Hr. exfalso. eapply H; eauto. Qed.

Lemma raising_ret T {A} (a : A) : raising T (ret a).
Proof. apply raising_none. intros st r st' message [= <- <-]. discriminate. Qed.

Lemma raising_getVariable T name : raising T (getVariable name).
Proof.
  apply raising_none. intros st r st' message. unfold getVariable.
  destruct (RuntimeContext.getVariable (context st) name); intros [= <- <-]; discriminate.
Qed.

Lemma raising_setVariable T name value : raising T (setVariable name value).
Proof. apply raising_none. intros st r st' message [= <- <-]. discriminate. Qed.

Lemma raising_display T result : raising T (display result).
Proof. apply raising_none. intros st r st' message [= <- <-]. discriminate. Qed.

Lemma raising_out_of_fuel T {A} : raising T (@out_of_fuel A).
Proof. apply raising_none. intros st r st' message [= <- <-]. discriminate. Qed.

Lemma raising_throw T {A} ex :
  (forall message, ex <> RuntimeException message) -> raising T (@throw A ex).
Proof.
  intros Hex. apply raising_none. intros st r st' message [= <- <-] [= H].
  eapply Hex. exact H.
Qed.

Lemma raising_throwError T {A} errmessage :
  raisedWith T errmessage -> raising T (@throwError A errmessage).
Proof.
  intros Hmsg st r st' message (_ & Hstack & _) [= <- <-] [= <-].
  exists (context st), errmessage. auto.
Qed.

Lemma raising_arithmetic T pow m_type lhs rhs : raising T (arithmetic pow m_type lhs rhs).
Proof.
  destruct m_type; simpl; try apply raising_ret;
    (destruct (Number.is_zero rhs); [| apply raising_ret]);
    apply raising_throwError; [left | right; left]; reflexivity.
Qed.

Lemma raising_interpretArguments T (interpret : Expression -> Interp Number) l :
  (forall e, preserves (interpret e)) -> (forall e, raising T (interpret e)) ->
  raising T (interpretArguments interpret l).
Proof.
  intros Hp He. induction l as [| e l IH]; simpl; [apply raising_ret |].
  apply raising_bind; [apply Hp | apply He |]. intros v.
  apply raising_bind; [apply preserves_interpretArguments, Hp | apply IH |].
  intros vs. apply raising_ret.
Qed.

Lemma raising_interpretList T (interpret : Statement -> Interp Number) l :
  (forall s, preserves (interpret s)) -> (forall s, raising T (interpret s)) ->
  raising T (interpretList interpret l).
Proof.
  intros Hp Hs. induction l as [| s l IH]; simpl; [apply raising_ret |].
  apply raising_bind; [apply Hp | apply Hs |]. intros _. exact IH.
Qed.

Lemma raising_whileBody T (body again : Interp Number) :
  preserves body -> raising T body -> raising T again -> raising T (whileBody body again).
Proof.
  intros Hp Hb Ha st r st' message Hst H Hr. unfold whileBody in H.
  destruct (body st) as [rb st1] eqn:Hrun.
  assert (Hst1 : defined rb -> named T st1).
  { intros Hd. eapply named_frame; [| exact Hst]. eapply Hp; eauto. }
  destruct rb as [v | [ | | | value | message'] | | |];
    try (injection H as <- <-; discriminate Hr).
  - eapply Ha; [apply Hst1; exact I | exact H | exact Hr].
  - eapply Ha; [apply Hst1; exact I | exact H | exact Hr].
  - injection H as <- <-. injection Hr as <-.
    eapply Hb; [exact Hst | exact Hrun | reflexivity].
Qed.

Lemma raising_tryBody T (body : Interp Number) : raising T body -> raising T (tryBody body).
Proof.
  intros Hb st r st' message Hst H Hr. unfold tryBody in H.
  destruct (body st) as [rb st1] eqn:Hrun.
  assert (Hexit : forall (k : Interp Number) s,
             (let* _ := exitFunction in k) s = (r, st') ->
             exists s1, k s1 = (r, st')).
  { intros k s K. apply bind_inv in K as [([] & s1 & _ & K) | (r1 & K & Hpr)]; [eauto |].
    exfalso. subst r. inversion Hpr; subst. unfold exitFunction in K.
    destruct (RuntimeContext.exitFunction (context s)); discriminate K. }
  destruct rb as [v | [ | | | value | message'] | | |];
    try (injection H as <- <-; discriminate Hr);
    apply Hexit in H as [s1 H]; injection H as <- <-; try discriminate Hr.
  injection Hr as <-. eapply Hb; [exact Hst | exact Hrun | reflexivity].
Qed.

Lemma interpret_raising T pow fuel :
  (forall e, raising T (interpretExpression pow fuel e)) /\
  (forall s, raising T (interpretStatement pow fuel s)).
Proof.
  induction fuel as [| n [IHe IHs]].
  - split; intros; apply raising_out_of_fuel.
  - destruct (interpret_preserves pow n) as [Pe Ps].
    split.
    + intros e.
      destruct e as [constant | name | name type | name type | lhs rhs type | lhs rhs type
                     | expr | name expr | name argList | expr]; simpl.
      * apply raising_ret.
      * apply raising_getVariable.
      * apply raising_bind; [apply preserves_getVariable | apply raising_getVariable |].
        intros value.
        apply raising_bind; [apply preserves_setVariable | apply raising_setVariable |].
        intros _. apply raising_ret.
      * apply raising_bind; [apply preserves_getVariable | apply raising_getVariable |].
        intros value.
        apply raising_bind; [apply preserves_setVariable | apply raising_setVariable |].
        intros _. apply raising_ret.
      * apply raising_bind; [apply Pe | apply IHe |]. intros l.
        apply raising_bind; [apply Pe | apply IHe |]. intros r. apply raising_arithmetic.
      * apply raising_bind; [apply Pe | apply IHe |]. intros l.
        apply raising_bind; [apply Pe | apply IHe |]. intros r. apply raising_ret.
      * apply raising_bind; [apply Pe | apply IHe |]. intros value. apply raising_ret.
      * apply raising_bind; [apply Pe | apply IHe |]. intros value.
        apply raising_bind; [apply preserves_setVariable | apply raising_setVariable |].
        intros _. apply raising_ret.
      * intros st r st' message Hst H Hr.
        destruct (RuntimeContext.getFunctionDefinition (context st) name)
          as [functionDef |] eqn:Hlookup.
        2:{ eapply raising_throwError; [| exact Hst | exact H | exact Hr].
            right; right; left. exists name. split; [| reflexivity].
            destruct Hst as [<- _]. exact Hlookup. }
        destruct (negb _).
        { eapply raising_throwError; [| exact Hst | exact H | exact Hr].
          right; right; right. exists name. reflexivity. }
        apply bind_inv in H as [(vs & st1 & Hargs & H) | (r1 & Hargs & Hp)].
        2:{ subst r. inversion Hp; subst.
            eapply (raising_interpretArguments T _ argList Pe IHe);
              [exact Hst | exact Hargs | reflexivity]. }
        assert (Hst1 : named T st1).
        { eapply named_frame; [| exact Hst].
          eapply preserves_interpretArguments; [exact Pe | exact Hargs | exact I]. }
        apply bind_inv in H as [([] & st2 & Henter & H) | (r1 & Henter & Hp)].
        2:{ exfalso. subst r. inversion Hp; subst. unfold enterFunction in Henter.
            destruct (RuntimeContext.enterFunction functionDef vs (context st1));
              discriminate Henter. }
        assert (Hst2 : named T st2).
        { unfold enterFunction, RuntimeContext.enterFunction in Henter.
          destruct (decide _) as [Hlen |]; [| discriminate]. injection Henter as <-.
          fold (entered functionDef vs st1).
          destruct (entered_frame functionDef vs st1 Hlen) as (Hcs & Hft & _).
          destruct Hst1 as (HT & Hstack & Htable).
          unfold named, wellNamed, namedStack. rewrite Hcs, Hft.
          split_and!; [exact HT | constructor; [| exact Hstack] | exact Htable].
          destruct Hst as (HTst & _ & Htable_st). eapply Htable_st. exact Hlookup. }
        eapply raising_tryBody; [apply IHs | exact Hst2 | exact H | exact Hr].
      * apply raising_bind; [apply Pe | apply IHe |]. intros value. apply raising_ret.
    + intros s.
      destruct s as [expr | condition trueStmt falseStmt | condition body | | | | expr | l];
        simpl.
      * apply raising_bind; [apply Pe | apply IHe |]. intros result.
        destruct (shouldDisplayResult expr); [| apply raising_ret].
        apply raising_bind; [apply preserves_display | apply raising_display |].
        intros _. apply raising_ret.
      * apply raising_bind; [apply Pe | apply IHe |]. intros v.
        destruct (Number.nonzero v); [| destruct falseStmt as [f |]].
        -- apply raising_bind; [apply Ps | apply IHs |]. intros _. apply raising_ret.
        -- apply raising_bind; [apply Ps | apply IHs |]. intros _. apply raising_ret.
        -- apply raising_ret.
      * apply raising_bind; [apply Pe | apply IHe |]. intros v.
        destruct (Number.nonzero v); [| apply raising_ret].
        apply raising_whileBody; [apply Ps | apply IHs | apply IHs].
      * apply raising_throw. discriminate.
      * apply raising_throw. discriminate.
      * apply raising_throw. discriminate.
      * destruct expr as [expr |].
        -- apply raising_bind; [apply Pe | apply IHe |]. intros value.
           apply raising_throw. discriminate.
        -- apply raising_throw. discriminate.
      * apply raising_interpretList; [apply Ps | apply IHs].
Qed.

(** ** The arguments of a call *)

Lemma evaluatedLeftToRight_interpretArguments (interpret : Expression -> Interp Number) args :
  forall st vs st1,
    interpretArguments interpret args st = (Returns vs, st1) <->
    evaluatedLeftToRight interpret args st vs st1.
Proof.
  induction args as [| e args IH]; intros st vs st1; simpl.
  - unfold ret. split.
    + intros [= <- <-]. reflexivity.
    + destruct vs; [intros ->; reflexivity | contradiction].
  - unfold bind, ret. destruct (interpret e st) as [[v | ex | | |] st2] eqn:He.
    + destruct (interpretArguments interpret args st2) as [[vs' | ex | | |] st3] eqn:Hrest.
      * split.
        -- intros [= <- <-]. exists st2. split; [reflexivity |]. apply IH, Hrest.
        -- destruct vs as [| v0 vs0]; [contradiction |].
           intros (st2' & [= <- <-] & Hev). apply IH in Hev. rewrite Hrest in Hev.
           injection Hev as <- <-. reflexivity.
      * split; [discriminate |]. destruct vs as [| v0 vs0]; [contradiction |].
        intros (st2' & [= <- <-] & Hev). apply IH in Hev. rewrite Hrest in Hev. discriminate Hev.
      * split; [discriminate |]. destruct vs as [| v0 vs0]; [contradiction |].
        intros (st2' & [= <- <-] & Hev). apply IH in Hev. rewrite Hrest in Hev. discriminate Hev.
      * split; [discriminate |]. destruct vs as [| v0 vs0]; [contradiction |].
        intros (st2' & [= <- <-] & Hev). apply IH in Hev. rewrite Hrest in Hev. discriminate Hev.
      * split; [discriminate |]. destruct vs as [| v0 vs0]; [contradiction |].
        intros (st2' & [= <- <-] & Hev). apply IH in Hev. rewrite Hrest in Hev. discriminate Hev.
    + split; [discriminate |]. destruct vs; [contradiction |]. intros (st2' & K & _). discriminate K.
    + split; [discriminate |]. destruct vs; [contradiction |]. intros (st2' & K & _). discriminate K.
    + split; [discriminate |]. destruct vs; [contradiction |]. intros (st2' & K & _). discriminate K.
    + split; [discriminate |]. destruct vs; [contradiction |]. intros (st2' & K & _). discriminate K.
Qed.

Lemma evaluatedLeftToRight_length (interpret : Expression -> Interp Number) args :
  forall st vs st1, evaluatedLeftToRight interpret args st vs st1 -> length vs = length args.
Proof.
  induction args as [| e args IH]; intros st [| v vs] st1 H; simpl in *;
    try contradiction; [reflexivity |].
  destruct H as (st2 & _ & H). f_equal. eapply IH, H.
Qed.

(** The first argument that does not return a value ends the evaluation
    of the arguments. *)
Lemma interpretArguments_stops (interpret : Expression -> Interp Number) earlier e later :
  forall st vs st1 r st2,
    evaluatedLeftToRight interpret earlier st vs st1 ->
    interpret e st1 = (r, st2) ->
    (forall v, r <> Returns v) ->
    exists r',
      interpretArguments interpret (earlier ++ e :: later) st = (r', st2) /\ propagated r r'.
Proof.
  induction earlier as [| e0 earlier IH]; intros st vs st1 r st2 Hev He Hr.
  - destruct vs; [| contradiction]. simpl in Hev. subst st1. simpl. unfold bind. rewrite He.
    destruct r as [v | ex | | |]; [exfalso; eapply Hr; reflexivity | | | |];
      eexists; split; try reflexivity; constructor.
  - destruct vs as [| v vs]; [contradiction |]. destruct Hev as (st0 & He0 & Hev).
    destruct (IH st0 vs st1 r st2 Hev He Hr) as (r' & Hrun & Hp).
    simpl. unfold bind at 1. rewrite He0. unfold bind. rewrite Hrun.
    inversion Hp; subst; eexists; split; try reflexivity; constructor.
Qed.

(** Either every argument returns a value, or there is a first one that
    does not. *)
Lemma arguments_evaluated_or_stopped (interpret : Expression -> Interp Number) args :
  forall st,
    (exists vs st1, evaluatedLeftToRight interpret args st vs st1) \/
    (exists earlier e later vs st1 r st2,
       args = (earlier ++ e :: later)%list /\
       evaluatedLeftToRight interpret earlier st vs st1 /\
       interpret e st1 = (r, st2) /\
       (forall v, r <> Returns v)).
Proof.
  induction args as [| e args IH]; intros st.
  - left. exists [], st. reflexivity.
  - destruct (interpret e st) as [r st1] eqn:He.
    assert (Hstop : (forall v, r <> Returns v) ->
              exists earlier e' later vs st1' r' st2,
                e :: args = (earlier ++ e' :: later)%list /\
                evaluatedLeftToRight interpret earlier st vs st1' /\
                interpret e' st1' = (r', st2) /\
                (forall v, r' <> Returns v)).
    { intros Hr. exists [], e, args, [], st, r, st1. split_and!; auto. reflexivity. }
    destruct r as [v | ex | | |]; try (right; apply Hstop; discriminate).
    destruct (IH st1) as [(vs & st2 & Hev) | (earlier & e' & later & vs & st2 & r' & st3 &
                                                -> & Hev & He' & Hr')].
    + left. exists (v :: vs), st2. simpl. eauto.
    + right. exists (e :: earlier), e', later, (v :: vs), st2, r', st3.
      split_and!; auto. simpl. eauto.
Qed.

(** C5, as corrected. A call of a function that is not in the function
    table throws "function 'f' not defined", and a call whose number of
    arguments differs from the number of parameters throws "wrong number
    of arguments for function 'f'"; both leave the state as it is at any
    fuel, also at the fuel with which no argument could be evaluated. The
    first error is raised exactly when the function is absent, whatever
    runs during the call (function names holding no colon, as the names
    the lexer reads). In the remaining case the call raises no error of
    its own: the arguments are evaluated left to right, each in the state
    the one before it left, on the call stack of the caller; the first
    argument that does not return a value ends the call with its result,
    no later argument evaluated and no frame entered; and when every
    argument has returned, the frame is entered with their values and the
    body run. One of the two happens. *)
Theorem call_checks_before_arguments pow n f args st :
  (RuntimeContext.getFunctionDefinition (context st) f = None ->
   interpretExpression pow (S n) (FunctionCallExpression f args) st
     = (Throws (RuntimeException
                  (RuntimeContext.throwError (context st)
                     ("function '" +:+ f +:+ "' not defined"))), st)) /\
  (forall functionDef,
     RuntimeContext.getFunctionDefinition (context st) f = Some functionDef ->
     length (getArguments functionDef) <> length args ->
     interpretExpression pow (S n) (FunctionCallExpression f args) st
       = (Throws (RuntimeException
                    (RuntimeContext.throwError (context st)
                       ("wrong number of arguments for function '" +:+ f +:+ "'"))), st)) /\
  (wellNamed (context st) ->
   (RuntimeContext.getFunctionDefinition (context st) f = None <->
    runtimeError ("function '" +:+ f +:+ "' not defined")
      (fst (interpretExpression pow (S n) (FunctionCallExpression f args) st)))) /\
  (forall functionDef,
     RuntimeContext.getFunctionDefinition (context st) f = Some functionDef ->
     length (getArguments functionDef) = length args ->
     (forall vs st1,
        evaluatedLeftToRight (interpretExpression pow n) args st vs st1 ->
        RuntimeContext.m_callStack (context st1) = RuntimeContext.m_callStack (context st) /\
        exists c1,
          RuntimeContext.enterFunction functionDef vs (context st1) = Some c1 /\
          RuntimeContext.m_callStack c1
            = functionDef :: RuntimeContext.m_callStack (context st) /\
          interpretExpression pow (S n) (FunctionCallExpression f args) st
            = tryBody (interpretStatement pow n (getBody functionDef)) (with_context c1 st1)) /\
     (forall earlier e later vs st1 r st2,
        args = (earlier ++ e :: later)%list ->
        evaluatedLeftToRight (interpretExpression pow n) earlier st vs st1 ->
        interpretExpression pow n e st1 = (r, st2) ->
        (forall v, r <> Returns v) ->
        interpretExpression pow (S n) (FunctionCallExpression f args) st = (r, st2)) /\
     ((exists vs st1, evaluatedLeftToRight (interpretExpression pow n) args st vs st1) \/
      (exists earlier e later vs st1 r st2,
         args = (earlier ++ e :: later)%list /\
         evaluatedLeftToRight (interpretExpression pow n) earlier st vs st1 /\
         interpretExpression pow n e st1 = (r, st2) /\
         (forall v, r <> Returns v)))).
Proof.
  assert (Habsent :
            RuntimeContext.getFunctionDefinition (context st) f = None ->
            interpretExpression pow (S n) (FunctionCallExpression f args) st
            = (Throws (RuntimeException
                         (RuntimeContext.throwError (context st)
                            ("function '" +:+ f +:+ "' not defined"))), st)).
  { intros H. simpl. rewrite H. reflexivity. }
  split_and!.
  - exact Habsent.
  - intros functionDef H Hlen. simpl. rewrite H.
    apply Nat.eqb_neq in Hlen. rewrite Hlen. reflexivity.
  - intros Hnamed. split.
    + intros H. rewrite (Habsent H). exists (context st). split; [apply Hnamed | reflexivity].
    + intros (c & Hc & Hr).
      destruct (RuntimeContext.getFunctionDefinition (context st) f) as [functionDef |] eqn:H;
        [exfalso | reflexivity].
      destruct (interpretExpression pow (S n) (FunctionCallExpression f args) st)
        as [r st'] eqn:Hrun.
      simpl in Hr.
      destruct (proj1 (interpret_raising (RuntimeContext.m_functionTable (context st))
                         pow (S n)) (FunctionCallExpression f args) st r st' _
                  (conj eq_refl Hnamed) Hrun Hr)
        as (c' & errmessage & Hc' & Hmessage & Hwith).
      apply throwError_inj in Hmessage; [| exact Hc | exact Hc']. subst errmessage.
      destruct Hwith as [K | [K | [(g & Hg & K) | (g & K)]]];
        try (cbn in K; discriminate K).
      apply append_cancel_l in K. apply append_cancel_r in K. subst g.
      unfold RuntimeContext.getFunctionDefinition in H. rewrite H in Hg. discriminate Hg.
  - intros functionDef H Hlen.
    assert (Hcall : interpretExpression pow (S n) (FunctionCallExpression f args) st
                    = (let* argumentValues :=
                         interpretArguments (interpretExpression pow n) args in
                       let* _ := enterFunction functionDef argumentValues in
                       tryBody (interpretStatement pow n (getBody functionDef))) st).
    { simpl. rewrite H, Hlen, Nat.eqb_refl. reflexivity. }
    split_and!.
    + intros vs st1 Hev.
      pose proof (evaluatedLeftToRight_length _ _ _ _ _ Hev) as Hvs.
      apply evaluatedLeftToRight_interpretArguments in Hev.
      assert (Hframe : frame_le st st1).
      { eapply preserves_interpretArguments;
          [apply (interpret_preserves pow n) | exact Hev | exact I]. }
      destruct Hframe as (Hcs & _).
      split; [exact Hcs |].
      assert (Hlen' : length (getArguments functionDef) = length vs) by congruence.
      exists (context (entered functionDef vs st1)). split_and!.
      * unfold RuntimeContext.enterFunction. rewrite decide_True by exact Hlen'. reflexivity.
      * destruct (entered_frame functionDef vs st1 Hlen') as (-> & _). rewrite Hcs. reflexivity.
      * rewrite Hcall. unfold bind at 1. rewrite Hev. unfold bind.
        rewrite (enterFunction_entered functionDef vs st1 Hlen'). reflexivity.
    + intros earlier e later vs st1 r st2 -> Hev He Hr.
      destruct (interpretArguments_stops _ earlier e later st vs st1 r st2 Hev He Hr)
        as (r' & Hrun & Hp).
      rewrite Hcall. unfold bind at 1. rewrite Hrun. inversion Hp; subst; reflexivity.
    + apply arguments_evaluated_or_stopped.
Qed.

(** [f(x = 5, g())] with [g] not defined, after [define f(n, m) {...}]:
    the first argument has assigned [x] when the second ends the call.
    [h(1)] with [h] not defined. *)
Lemma call_checks_before_arguments_witness :
  interpretExpression pow_small 3
    (FunctionCallExpression "f"
       [AssignExpression "x" (ConstantExpression 5%float); FunctionCallExpression "g" []])
    state_f2
    = (Throws (RuntimeException "runtime error in function (main): function 'g' not defined."),
       {| context := RuntimeContext.setVariable "x" 5%float (context state_f2);
          o := [] |}) /\
  runtimeError "function 'h' not defined"
    (fst (interpretExpression pow_small 3 (FunctionCallExpression "h" [num1]) state_f2)).
Proof.
  split.
  - destruct (call_checks_before_arguments pow_small 2 "f"
                [AssignExpression "x" (ConstantExpression 5%float);
                 FunctionCallExpression "g" []] state_f2) as (_ & _ & _ & H).
    destruct (H define_f2 eq_refl eq_refl) as (_ & Hstop & _).
    apply (Hstop [AssignExpression "x" (ConstantExpression 5%float)]
             (FunctionCallExpression "g" []) [] [5%float]
             {| context := RuntimeContext.setVariable "x" 5%float (context state_f2);
                o := [] |}).
    + reflexivity.
    + simpl. eexists. split; reflexivity.
    + reflexivity.
    + discriminate.
  - destruct (call_checks_before_arguments pow_small 2 "h" [num1] state_f2) as (_ & _ & H & _).
    apply H; [| reflexivity].
    split; [constructor |].
    intros name def Hdef. unfold state_f2 in Hdef. simpl in Hdef.
    apply lookup_insert_Some in Hdef as [[_ <-] | [_ Hdef]]; [reflexivity |].
    rewrite lookup_empty in Hdef. discriminate Hdef.
Defined.

(** C5, the claim as stated fails: after [define f(n) { return n }], the
    call [f(f(1, 1))] has one argument, as [f] has one parameter, and
    raises "wrong number of arguments for function 'f'", which its
    argument throws. *)
Lemma wrong_number_from_argument_counterexample :
  interpretExpression pow_small 10
    (FunctionCallExpression "f" [FunctionCallExpression "f" [num1; num1]]) state_f
    = (Throws (RuntimeException
                 (RuntimeContext.throwError (context state_f)
                    "wrong number of arguments for function 'f'")), state_f) /\
  ~ (exists functionDef,
       RuntimeContext.getFunctionDefinition (context state_f) "f" = Some functionDef /\
       length (getArguments functionDef)
       <> length [FunctionCallExpression "f" [num1; num1]]).
Proof.
  split; [vm_compute; reflexivity |].
  intros (functionDef & Hdef & Hlen). vm_compute in Hdef. injection Hdef as <-.
  apply Hlen. reflexivity.
Qed.

(** C6. With both operands evaluated, a division throws "division by
    zero" exactly when the right operand equals zero and returns the
    quotient otherwise; a modulo throws "modulo zero" exactly when the
    right operand equals zero and returns [lhs - floor(lhs / rhs) * rhs]
    otherwise. *)
Theorem division_modulo_by_zero pow n l r st lhs st1 rhs st2 :
  interpretExpression pow n l st = (Returns lhs, st1) ->
  interpretExpression pow n r st1 = (Returns rhs, st2) ->
  interpretExpression pow (S n) (ArithmeticExpression l r OP_DIV) st
    = (if Number.is_zero rhs
       then Throws (RuntimeException
                      (RuntimeContext.throwError (context st2) "division by zero"))
       else Returns (PrimFloat.div lhs rhs), st2) /\
  interpretExpression pow (S n) (ArithmeticExpression l r OP_MOD) st
    = (if Number.is_zero rhs
       then Throws (RuntimeException
                      (RuntimeContext.throwError (context st2) "modulo zero"))
       else Returns (PrimFloat.sub lhs
                       (PrimFloat.mul (Number.floor (PrimFloat.div lhs rhs)) rhs)), st2).
Proof.
  intros Hl Hr.
  split; simpl; unfold bind; rewrite Hl, Hr; simpl; destruct (Number.is_zero rhs); reflexivity.
Qed.

Lemma division_modulo_by_zero_witness :
  interpretExpression pow_small 2
    (ArithmeticExpression num1 (ConstantExpression 0%float) OP_DIV) state_x7
    = (Throws (RuntimeException "runtime error in function (main): division by zero."),
       state_x7) /\
  interpretExpression pow_small 2
    (ArithmeticExpression num1 (ConstantExpression 0%float) OP_MOD) state_x7
    = (Throws (RuntimeException "runtime error in function (main): modulo zero."),
       state_x7).
Proof.
  apply (division_modulo_by_zero pow_small 1 num1 (ConstantExpression 0%float)
           state_x7 1%float state_x7 0%float state_x7); reflexivity.
Defined.

(** C7. For [&&] and [||] the right operand is interpreted after the left
    one whatever the left value is, so that its effects and its exceptions
    always take place; the value is [1] when both operands differ from
    zero (for [||], at least one) and [0] otherwise. *)
Theorem and_or_evaluate_both_operands pow n l r st lhs st1 :
  interpretExpression pow n l st = (Returns lhs, st1) ->
  (forall op, op = OP_AND \/ op = OP_OR ->
     interpretExpression pow (S n) (BooleanExpression l r op) st
       = (let* rhs := interpretExpression pow n r in ret (boolean op lhs rhs)) st1) /\
  (forall rhs st2,
     interpretExpression pow n r st1 = (Returns rhs, st2) ->
     interpretExpression pow (S n) (BooleanExpression l r OP_AND) st
       = (Returns (if Number.nonzero lhs && Number.nonzero rhs
                   then Number.one else Number.zero), st2) /\
     interpretExpression pow (S n) (BooleanExpression l r OP_OR) st
       = (Returns (if Number.nonzero lhs || Number.nonzero rhs
                   then Number.one else Number.zero), st2)) /\
  (forall op ex st2,
     op = OP_AND \/ op = OP_OR ->
     interpretExpression pow n r st1 = (Throws ex, st2) ->
     interpretExpression pow (S n) (BooleanExpression l r op) st = (Throws ex, st2)).
Proof.
  intros Hl. split_and!.
  - intros op _. simpl. unfold bind at 1. rewrite Hl. reflexivity.
  - intros rhs st2 Hr. split; simpl; unfold bind; rewrite Hl, Hr; reflexivity.
  - intros op ex st2 _ Hr. simpl. unfold bind. rewrite Hl, Hr. reflexivity.
Qed.

(** [0 && (x = 5)] and [1 || (x = 5)] both assign to [x]. *)
Lemma and_or_evaluate_both_operands_witness :
  (let result := interpretExpression pow_small 3
                   (BooleanExpression (ConstantExpression 0%float)
                      (AssignExpression "x" (ConstantExpression 5%float)) OP_AND) state_x7 in
   fst result = Returns 0%float /\
   RuntimeContext.getVariable (context (snd result)) "x" = Some 5%float) /\
  (let result := interpretExpression pow_small 3
                   (BooleanExpression num1
                      (AssignExpression "x" (ConstantExpression 5%float)) OP_OR) state_x7 in
   fst result = Returns 1%float /\
   RuntimeContext.getVariable (context (snd result)) "x" = Some 5%float).
Proof.
  pose (st2 := with_context (RuntimeContext.setVariable "x" 5%float (context state_x7)) state_x7).
  destruct (and_or_evaluate_both_operands pow_small 2 (ConstantExpression 0%float)
              (AssignExpression "x" (ConstantExpression 5%float))
              state_x7 0%float state_x7 eq_refl) as (_ & H0 & _).
  destruct (and_or_evaluate_both_operands pow_small 2 num1
              (AssignExpression "x" (ConstantExpression 5%float))
              state_x7 1%float state_x7 eq_refl) as (_ & H1 & _).
  destruct (H0 5%float st2 eq_refl) as [Hand _].
  destruct (H1 5%float st2 eq_refl) as [_ Hor].
  split; cbv zeta.
  - rewrite Hand. split; reflexivity.
  - rewrite Hor. split; reflexivity.
Defined.

(** C8. The rule for unary minus allocates its [MinusExpression] and
    leaves the memory stack alone: after [1] and then [-1] are reduced,
    the new fragment is live and unattached but not tracked, and the
    tracked entry is its operand, which is attached. The rule for [!],
    on the same input, tracks its result and pops the operand. *)
Theorem unary_minus_not_tracked :
  exists operand p1 result p2 result' p2',
    Parser.reduce (Parser.NUMBER 1%float) Parser.initial = Some (operand, p1) /\
    Parser.reduce (Parser.MINUS operand) p1 = Some (result, p2) /\
    Parser.live p2 result = true /\
    Parser.attached p2 result = false /\
    MemoryStack.tracked (Parser.memStack p2) result = 0 /\
    MemoryStack.m_absynPointers (Parser.memStack p2) = [operand] /\
    Parser.attached p2 operand = true /\
    Parser.reduce (Parser.NOT operand) p1 = Some (result', p2') /\
    MemoryStack.m_absynPointers (Parser.memStack p2') = [result'] /\
    Parser.attached p2' result' = false.
Proof.
  do 6 eexists. split_and!; reflexivity.
Qed.

(** Every rule of [expression] but the one for unary minus leaves its
    result on top of the stack of tracked [Absyn] pointers (the rule for
    parentheses, which allocates nothing, passes its operand on). *)
Lemma reduce_tracks_result rhs p result p' :
  (forall v2, rhs <> Parser.MINUS v2) ->
  (forall v2, rhs <> Parser.LPAREN_RPAREN v2) ->
  Parser.reduce rhs p = Some (result, p') ->
  head (MemoryStack.m_absynPointers (Parser.memStack p')) = Some result.
Proof.
  assert (Htrack : forall f q q' r,
             (forall m m', f m = Some m' ->
                head (MemoryStack.m_absynPointers m') = Some r) ->
             Parser.withMemStack f q = Some q' ->
             head (MemoryStack.m_absynPointers (Parser.memStack q')) = Some r).
  { intros f q q' r Hf. unfold Parser.withMemStack.
    destruct (f (Parser.memStack q)) as [m |] eqn:E; [| discriminate].
    intros [= <-]. simpl. eapply Hf. exact E. }
  assert (Hpop : forall k r m m',
             MemoryStack.popAndPush k r m = Some m' ->
             head (MemoryStack.m_absynPointers m') = Some r).
  { intros k r m m'. unfold MemoryStack.popAndPush.
    destruct (MemoryStack.popN k m); [| discriminate]. intros [= <-]. reflexivity. }
  intros Hminus Hparen.
  destruct rhs;
    try solve [exfalso; eapply Hminus; reflexivity | exfalso; eapply Hparen; reflexivity];
    unfold Parser.reduce, Parser.new; cbv beta iota zeta;
    match goal with
    | |- context [Parser.withMemStack ?f ?q] =>
        destruct (Parser.withMemStack f q) as [q' |] eqn:E; [| discriminate];
        intros [= <- <-]; (eapply Htrack; [| exact E]);
        intros m m' Hm; cbv beta in Hm;
        first [ injection Hm as <-; reflexivity | eapply Hpop; exact Hm ]
    end.
Qed.

(** A unary minus never touches the memory stack, and its result is a
    fresh address. *)
Lemma reduce_MINUS v2 p :
  Parser.reduce (Parser.MINUS v2) p
  = Some (Parser.next p,
          {| Parser.heap := (Parser.next p, NewMinusExpression v2) :: Parser.heap p;
             Parser.next := S (Parser.next p);
             Parser.memStack := Parser.memStack p |}).
Proof. reflexivity. Qed.

(** C9. A power is [pow(lhs, max(0, floor(rhs)))]: the exponent is the
    floor of the right operand, replaced by [0] unless that floor is
    positive, and with the exponent [0] the result is [1]. So [2 ^ -3]
    is [1] and [2 ^ 2.9] is [4]. What is used of [pow] is what the C
    standard fixes: [pow(x, 0)] is [1] for every [x], and [pow(2, 2)],
    being exact, is [4]. *)
Theorem power_clamps_exponent pow :
  (forall x, pow x Number.zero = Number.one) ->
  pow 2%float 2%float = 4%float ->
  (forall n l r st lhs st1 rhs st2,
     interpretExpression pow n l st = (Returns lhs, st1) ->
     interpretExpression pow n r st1 = (Returns rhs, st2) ->
     interpretExpression pow (S n) (ArithmeticExpression l r OP_POW) st
       = (Returns (pow lhs (Number.max Number.zero (Number.floor rhs))), st2) /\
     (PrimFloat.ltb Number.zero (Number.floor rhs) = false ->
      interpretExpression pow (S n) (ArithmeticExpression l r OP_POW) st
        = (Returns Number.one, st2))) /\
  (forall st,
     interpretExpression pow 3
       (ArithmeticExpression (ConstantExpression 2%float)
          (MinusExpression (ConstantExpression 3%float)) OP_POW) st
     = (Returns 1%float, st)) /\
  (forall st,
     interpretExpression pow 2
       (ArithmeticExpression (ConstantExpression 2%float)
          (ConstantExpression 0x1.7333333333333p+1%float) OP_POW) st
     = (Returns 4%float, st)).
Proof.
  intros Hzero Hexact.
  assert (Hgen : forall n l r st lhs st1 rhs st2,
             interpretExpression pow n l st = (Returns lhs, st1) ->
             interpretExpression pow n r st1 = (Returns rhs, st2) ->
             interpretExpression pow (S n) (ArithmeticExpression l r OP_POW) st
               = (Returns (pow lhs (Number.max Number.zero (Number.floor rhs))), st2) /\
             (PrimFloat.ltb Number.zero (Number.floor rhs) = false ->
              interpretExpression pow (S n) (ArithmeticExpression l r OP_POW) st
                = (Returns Number.one, st2))).
  { intros n l r st lhs st1 rhs st2 Hl Hr.
    assert (H : interpretExpression pow (S n) (ArithmeticExpression l r OP_POW) st
                = (Returns (pow lhs (Number.max Number.zero (Number.floor rhs))), st2)).
    { simpl. unfold bind. rewrite Hl, Hr. reflexivity. }
    split; [exact H |].
    intros Hfloor. rewrite H. unfold Number.max. rewrite Hfloor, Hzero. reflexivity. }
  split_and!.
  - exact Hgen.
  - intros st.
    destruct (Hgen 2 (ConstantExpression 2%float) (MinusExpression (ConstantExpression 3%float))
                st 2%float st (-3)%float st eq_refl eq_refl) as [_ Hneg].
    apply Hneg. reflexivity.
  - intros st.
    destruct (Hgen 1 (ConstantExpression 2%float)
                (ConstantExpression 0x1.7333333333333p+1%float)
                st 2%float st 0x1.7333333333333p+1%float st eq_refl eq_refl) as [H _].
    rewrite H.
    change (Number.max Number.zero (Number.floor 0x1.7333333333333p+1%float)) with 2%float.
    rewrite Hexact. reflexivity.
Qed.

Lemma power_clamps_exponent_witness :
  interpretExpression pow_small 3
    (ArithmeticExpression (ConstantExpression 2%float)
       (MinusExpression (ConstantExpression 3%float)) OP_POW) state_x7
  = (Returns 1%float, state_x7) /\
  interpretExpression pow_small 2
    (ArithmeticExpression (ConstantExpression 2%float)
       (ConstantExpression 0x1.7333333333333p+1%float) OP_POW) state_x7
  = (Returns 4%float, state_x7).
Proof.
  destruct (power_clamps_exponent pow_small) as (_ & H1 & H2).
  - intros x. reflexivity.
  - reflexivity.
  - split; [apply H1 | apply H2].
Defined.

(** C10. When the statements [pre] of a checked statement line have run
    and the next statement throws a runtime error, the whole line throws
    that error in the state the failing statement left: what [pre]
    printed and wrote stays, the statements after the failing one do not
    run (the result does not depend on them), the message goes to [cerr]
    and the parse loop goes on with the next command. *)
Theorem runtime_error_keeps_effects pow fuel pre s post i v st1 message st2 :
  SemanticContext.detectedError
    (checkStatement (StatementList (pre ++ s :: post)) SemanticContext.reset) = false ->
  interpretList (interpretStatement pow fuel) pre (stateOf i) = (Returns v, st1) ->
  interpretStatement pow fuel s st1 = (Throws (RuntimeException message), st2) ->
  interpretStatement pow (S fuel) (StatementList (pre ++ s :: post)) (stateOf i)
    = (Throws (RuntimeException message), st2) /\
  command pow (S fuel) (StatementLineCommand (pre ++ s :: post)) i
    = (Parsing, {| runContext := context st2; cout := o st2;
                   cerr := cerr i ++ [Text (endl +:+ message +:+ endl)] |}) /\
  cout i `prefix_of` o st1 /\
  o st1 `prefix_of` o st2 /\
  (forall rest,
     prog pow (S fuel) (StatementLineCommand (pre ++ s :: post) :: rest) i
     = prog pow (S fuel) rest {| runContext := context st2; cout := o st2;
                                 cerr := cerr i ++ [Text (endl +:+ message +:+ endl)] |}).
Proof.
  intros Herr Hpre Hs.
  assert (Hline : interpretStatement pow (S fuel) (StatementList (pre ++ s :: post)) (stateOf i)
                  = (Throws (RuntimeException message), st2)).
  { simpl. rewrite interpretList_app. unfold bind at 1. rewrite Hpre. simpl.
    unfold bind. rewrite Hs. reflexivity. }
  assert (Hcmd : command pow (S fuel) (StatementLineCommand (pre ++ s :: post)) i
                 = (Parsing, {| runContext := context st2; cout := o st2;
                                cerr := cerr i ++ [Text (endl +:+ message +:+ endl)] |})).
  { rewrite command_StatementLine_checked by exact Herr. rewrite Hline. reflexivity. }
  destruct (interpret_preserves pow fuel) as [_ Ps].
  split_and!.
  - exact Hline.
  - exact Hcmd.
  - apply (preserves_interpretList _ pre Ps _ _ _ Hpre I).
  - apply (Ps s _ _ _ Hs I).
  - intros rest. change (prog pow (S fuel) (?c :: rest) i)
      with (match command pow (S fuel) c i with
            | (Parsing, i') => prog pow (S fuel) rest i'
            | stopped => stopped
            end).
    rewrite Hcmd. reflexivity.
Qed.

(** [x = 5; x; 1 / 0; x = 9; 3] after [x = 7]: [5] is printed and stays
    the value of [x], [x = 9] and [3] do not run, and the next command
    [x] prints [5]. *)
Lemma runtime_error_keeps_effects_witness :
  let line_pre := [ExpressionStatement (AssignExpression "x" (ConstantExpression 5%float));
                   ExpressionStatement (VariableExpression "x")] in
  let failing := ExpressionStatement
                   (ArithmeticExpression num1 (ConstantExpression 0%float) OP_DIV) in
  let line_post := [ExpressionStatement (AssignExpression "x" (ConstantExpression 9%float));
                    ExpressionStatement (ConstantExpression 3%float)] in
  let i := {| runContext := context state_x7; cout := []; cerr := [] |} in
  let result := prog pow_small 4
                  [StatementLineCommand (line_pre ++ failing :: line_post);
                   StatementLineCommand [ExpressionStatement (VariableExpression "x")]] i in
  fst result = Parsing /\
  cout (snd result) = [5%float; 5%float] /\
  cerr (snd result)
  = [Text (endl +:+ "runtime error in function (main): division by zero." +:+ endl)].
Proof.
  intros line_pre failing line_post i result.
  pose (st1 := {| context := RuntimeContext.setVariable "x" 5%float (context state_x7);
                  o := [5%float] |}).
  destruct (runtime_error_keeps_effects pow_small 3 line_pre failing line_post i
              Number.zero st1 "runtime error in function (main): division by zero." st1)
    as (_ & _ & _ & _ & Hprog).
  - reflexivity.
  - reflexivity.
  - reflexivity.
  - unfold result. rewrite Hprog. split_and!; reflexivity.
Defined.

(** * Further properties *)

(** ** The runtime context *)

Lemma depth_stackOf x c : depth x c = length (stackOf x c).
Proof. reflexivity. Qed.

Lemma stackOf_setVariable x v c y :
  stackOf y (RuntimeContext.setVariable x v c)
  = if decide (x = y) then v :: tail (stackOf y c) else stackOf y c.
Proof.
  unfold stackOf, RuntimeContext.setVariable.
  destruct (decide (x = y)) as [<- | Hne].
  - destruct (RuntimeContext.m_variables c !! x) as [[| w rest] |] eqn:E; simpl;
      rewrite lookup_insert_eq; reflexivity.
  - destruct (RuntimeContext.m_variables c !! x) as [[| w rest] |] eqn:E; simpl;
      rewrite lookup_insert_ne by done; reflexivity.
Qed.

Lemma stackOf_addVariable x v c y :
  stackOf y (RuntimeContext.addVariable x v c)
  = if decide (x = y) then v :: stackOf y c else stackOf y c.
Proof.
  unfold stackOf, RuntimeContext.addVariable. simpl.
  destruct (decide (x = y)) as [<- | Hne].
  - rewrite lookup_insert_eq. reflexivity.
  - rewrite lookup_insert_ne by done. reflexivity.
Qed.

Lemma stackOf_delVariable x c c' y :
  RuntimeContext.delVariable x c = Some c' ->
  stackOf y c' = if decide (x = y) then tail (stackOf y c) else stackOf y c.
Proof.
  unfold stackOf, RuntimeContext.delVariable.
  destruct (RuntimeContext.m_variables c !! x) as [[| w rest] |] eqn:E; try discriminate.
  intros [= <-]. simpl. destruct (decide (x = y)) as [<- | Hne].
  - rewrite lookup_insert_eq, E. reflexivity.
  - rewrite lookup_insert_ne by done. reflexivity.
Qed.

(** X1. Writing a variable and reading it back gives the value written;
    the write replaces the top binding of the name (or makes the first
    one) and touches nothing else: not the bindings below, not another
    name, not the function table, not the call stack. *)
Theorem setVariable_then_getVariable x v c :
  RuntimeContext.getVariable (RuntimeContext.setVariable x v c) x = Some v /\
  stackOf x (RuntimeContext.setVariable x v c) = v :: tail (stackOf x c) /\
  (forall y, y <> x ->
     RuntimeContext.m_variables (RuntimeContext.setVariable x v c) !! y
     = RuntimeContext.m_variables c !! y) /\
  RuntimeContext.m_functionTable (RuntimeContext.setVariable x v c)
    = RuntimeContext.m_functionTable c /\
  RuntimeContext.m_callStack (RuntimeContext.setVariable x v c) = RuntimeContext.m_callStack c.
Proof.
  split_and!.
  - unfold RuntimeContext.getVariable, RuntimeContext.setVariable.
    destruct (RuntimeContext.m_variables c !! x) as [[| w rest] |]; simpl;
      rewrite lookup_insert_eq; reflexivity.
  - rewrite stackOf_setVariable, decide_True by done. reflexivity.
  - intros y Hne. unfold RuntimeContext.setVariable.
    destruct (RuntimeContext.m_variables c !! x) as [[| w rest] |]; simpl;
      rewrite lookup_insert_ne by done; reflexivity.
  - unfold RuntimeContext.setVariable.
    destruct (RuntimeContext.m_variables c !! x) as [[| w rest] |]; reflexivity.
  - unfold RuntimeContext.setVariable.
    destruct (RuntimeContext.m_variables c !! x) as [[| w rest] |]; reflexivity.
Qed.

(** X2. Popping a binding right after pushing it succeeds and gives every
    name the bindings it had; but the name now has an entry in the map, so
    that a name which had none, and read as [0], afterwards has an empty
    stack, whose read is undefined. Popping a name without a binding is
    undefined. *)
Theorem delVariable_after_addVariable x v c :
  (exists c',
     RuntimeContext.delVariable x (RuntimeContext.addVariable x v c) = Some c' /\
     (forall y, stackOf y c' = stackOf y c) /\
     RuntimeContext.m_variables c' !! x = Some (stackOf x c) /\
     (RuntimeContext.m_variables c !! x = None ->
      RuntimeContext.getVariable c x = Some Number.zero /\
      RuntimeContext.getVariable c' x = None)) /\
  (RuntimeContext.delVariable x c = None <-> stackOf x c = []).
Proof.
  split.
  - unfold RuntimeContext.delVariable at 1.
    assert (E : RuntimeContext.m_variables (RuntimeContext.addVariable x v c) !! x
                = Some (v :: stackOf x c)).
    { unfold RuntimeContext.addVariable. simpl. rewrite lookup_insert_eq. reflexivity. }
    rewrite E. eexists. split; [reflexivity |]. split_and!.
    + intros y. unfold stackOf. simpl. destruct (decide (x = y)) as [<- | Hne].
      * rewrite lookup_insert_eq. reflexivity.
      * rewrite !lookup_insert_ne by done. reflexivity.
    + simpl. rewrite lookup_insert_eq. reflexivity.
    + intros Habsent. unfold RuntimeContext.getVariable. simpl.
      rewrite Habsent, lookup_insert_eq. unfold stackOf. rewrite Habsent. split; reflexivity.
  - unfold RuntimeContext.delVariable, stackOf.
    destruct (RuntimeContext.m_variables c !! x) as [[| w rest] |]; simpl;
      split; intros H; try reflexivity; discriminate H.
Qed.

Lemma getVariable_stackOf x c v rest :
  stackOf x c = v :: rest -> RuntimeContext.getVariable c x = Some v.
Proof.
  unfold stackOf, RuntimeContext.getVariable.
  destruct (RuntimeContext.m_variables c !! x) as [[| w l] |]; simpl; intros [= -> ->] || intros [=].
  reflexivity.
Qed.

Lemma stackOf_addParameters x params : forall values c,
  length params = length values ->
  exists pushed,
    stackOf x (RuntimeContext.addParameters params values c) = (pushed ++ stackOf x c)%list /\
    length pushed = occurrences x params.
Proof.
  induction params as [| p params IH]; intros [| v values] c Hlen; simpl in *; try discriminate.
  - exists []. split; reflexivity.
  - destruct (IH values (RuntimeContext.addVariable p v c)) as (pushed & -> & Hpushed); [lia |].
    rewrite stackOf_addVariable, occurrences_cons. destruct (decide (p = x)).
    + exists (pushed ++ [v])%list. rewrite <- app_assoc, length_app. simpl. split; [reflexivity | lia].
    + exists pushed. split; [reflexivity | lia].
Qed.

Lemma stackOf_addParameters_notin x params : forall values c,
  x ∉ params -> stackOf x (RuntimeContext.addParameters params values c) = stackOf x c.
Proof.
  induction params as [| p params IH]; intros [| v values] c Hx; simpl; try reflexivity.
  apply not_elem_of_cons in Hx as [Hne Hx].
  rewrite IH by exact Hx. rewrite stackOf_addVariable, decide_False by congruence. reflexivity.
Qed.

Lemma stackOf_addAutos x autos : forall c,
  stackOf x (RuntimeContext.addAutos autos c)
  = (replicate (occurrences x autos) Number.zero ++ stackOf x c)%list.
Proof.
  induction autos as [| a autos IH]; intros c; simpl.
  - reflexivity.
  - rewrite IH, stackOf_addVariable, occurrences_cons. destruct (decide (a = x)); simpl.
    + rewrite cons_middle, app_assoc, <- replicate_S_end. reflexivity.
    + reflexivity.
Qed.

Lemma stackOf_delVariables x names : forall c c',
  RuntimeContext.delVariables names c = Some c' ->
  stackOf x c' = drop (occurrences x names) (stackOf x c).
Proof.
  induction names as [| name names IH]; intros c c'; simpl.
  - intros [= <-]. reflexivity.
  - destruct (RuntimeContext.delVariable name c) as [c1 |] eqn:E; [| discriminate].
    intros H. rewrite (IH _ _ H), (stackOf_delVariable _ _ _ x E), occurrences_cons.
    destruct (decide (name = x)); simpl; [| reflexivity].
    destruct (stackOf x c) as [| w l]; simpl; [rewrite drop_nil; reflexivity | reflexivity].
Qed.

Lemma stackOf_exitFunction x c c' function callers :
  RuntimeContext.m_callStack c = function :: callers ->
  RuntimeContext.exitFunction c = RuntimeContext.Exited c' ->
  stackOf x c'
  = drop (occurrences x (getAutoVariables function ++ getArguments function)) (stackOf x c).
Proof.
  intros Hcs. unfold RuntimeContext.exitFunction. rewrite Hcs.
  destruct (RuntimeContext.delVariables (getAutoVariables function) _) as [c2 |] eqn:E2;
    [| discriminate].
  destruct (RuntimeContext.delVariables (getArguments function) c2) as [c3 |] eqn:E3;
    [| discriminate].
  intros [= <-].
  rewrite (stackOf_delVariables _ _ _ _ E3), (stackOf_delVariables _ _ _ _ E2).
  rewrite drop_drop, occurrences_app. reflexivity.
Qed.

Lemma getVariable_addParameters params : forall values c i p v,
  NoDup params ->
  params !! i = Some p -> values !! i = Some v ->
  exists rest,
    stackOf p (RuntimeContext.addParameters params values c) = v :: rest.
Proof.
  induction params as [| p0 params IH]; intros [| v0 values] c i p v Hnd Hp Hv;
    try (destruct i; discriminate).
  apply NoDup_cons in Hnd as [Hnotin Hnd]. simpl. destruct i as [| i]; simpl in *.
  - injection Hp as <-. injection Hv as <-.
    rewrite stackOf_addParameters_notin by exact Hnotin.
    rewrite stackOf_addVariable, decide_True by done. eauto.
  - eapply IH; eauto.
Qed.

(** X3. [enterFunction] fails its assertion exactly when the numbers of
    parameters and of values differ. Otherwise it pushes the function on
    the call stack and binds the names: every auto variable reads [0], and
    with pairwise distinct parameters each parameter that is not also an
    auto variable reads its argument. [exitFunction] right after it
    succeeds and gives every name the bindings it had before, and the call
    stack and function table as they were. On an empty call stack
    [exitFunction] fails its assertion. *)
Theorem exitFunction_after_enterFunction function argValues c :
  (length (getArguments function) <> length argValues <->
   RuntimeContext.enterFunction function argValues c = None) /\
  (length (getArguments function) = length argValues ->
   exists c1 c2,
     RuntimeContext.enterFunction function argValues c = Some c1 /\
     RuntimeContext.m_callStack c1 = function :: RuntimeContext.m_callStack c /\
     (forall a, a ∈ getAutoVariables function ->
        RuntimeContext.getVariable c1 a = Some Number.zero) /\
     (NoDup (getArguments function) ->
      forall i p v,
        getArguments function !! i = Some p -> argValues !! i = Some v ->
        p ∉ getAutoVariables function ->
        RuntimeContext.getVariable c1 p = Some v) /\
     RuntimeContext.exitFunction c1 = RuntimeContext.Exited c2 /\
     (forall x, stackOf x c2 = stackOf x c) /\
     RuntimeContext.m_callStack c2 = RuntimeContext.m_callStack c /\
     RuntimeContext.m_functionTable c2 = RuntimeContext.m_functionTable c) /\
  (RuntimeContext.m_callStack c = [] ->
   RuntimeContext.exitFunction c = RuntimeContext.ExitAssertFailed).
Proof.
  split_and!.
  - unfold RuntimeContext.enterFunction.
    destruct (decide (length (getArguments function) = length argValues));
      split; intros H; try reflexivity; try discriminate; try assumption; contradiction.
  - intros Hlen.
    set (st := {| context := c; o := [] |}).
    destruct (entered_frame function argValues st Hlen) as (Ecs & Eft & _ & Ed).
    set (c1 := context (entered function argValues st)) in *.
    assert (Hstack : forall x, exists pushed,
               stackOf x c1 = (pushed ++ stackOf x c)%list /\
               length pushed
               = occurrences x (getAutoVariables function ++ getArguments function)).
    { intros x. subst c1. unfold entered. simpl.
      change (stackOf x (RuntimeContext.pushCall function ?c0)) with (stackOf x c0).
      rewrite stackOf_addAutos.
      destruct (stackOf_addParameters x (getArguments function) argValues c Hlen)
        as (pushed & -> & Hp).
      eexists. rewrite app_assoc. split; [reflexivity |].
      rewrite length_app, length_replicate, occurrences_app. lia. }
    destruct (exitFunction_Exited function (RuntimeContext.m_callStack c) c1)
      as (c2 & Hexit & Xcs & Xft & Xd).
    { exact Ecs. }
    { intros x. rewrite Ed. simpl. lia. }
    exists c1, c2. split_and!.
    + unfold RuntimeContext.enterFunction. rewrite decide_True by done. reflexivity.
    + exact Ecs.
    + intros a Ha. subst c1. unfold entered. simpl.
      assert (Hocc : 1 <= occurrences a (getAutoVariables function)).
      { clear - Ha. induction Ha as [a l | a b l _ IH]; rewrite occurrences_cons.
        - rewrite decide_True by done. lia.
        - lia. }
      assert (Hr : exists rest,
                 stackOf a (RuntimeContext.pushCall function
                              (RuntimeContext.addAutos (getAutoVariables function)
                                 (RuntimeContext.addParameters (getArguments function)
                                    argValues c)))
                 = Number.zero :: rest).
      { change (stackOf a (RuntimeContext.pushCall function ?c0)) with (stackOf a c0).
        rewrite stackOf_addAutos.
        destruct (occurrences a (getAutoVariables function)) as [| k]; [lia |].
        eexists. reflexivity. }
      destruct Hr as [rest Hr]. exact (getVariable_stackOf _ _ _ _ Hr).
    + intros Hnd i p v Hp Hv Hnotin. subst c1. unfold entered. simpl.
      destruct (getVariable_addParameters (getArguments function) argValues c i p v Hnd Hp Hv)
        as (rest & Hrest).
      assert (Hocc : occurrences p (getAutoVariables function) = 0).
      { clear - Hnotin. induction (getAutoVariables function) as [| b l IH];
          [reflexivity |].
        apply not_elem_of_cons in Hnotin as [Hne Hnotin].
        rewrite occurrences_cons, decide_False by congruence. simpl. auto. }
      apply (getVariable_stackOf _ _ v rest).
      change (stackOf p (RuntimeContext.pushCall function ?c0)) with (stackOf p c0).
      rewrite stackOf_addAutos, Hocc. simpl. exact Hrest.
    + exact Hexit.
    + intros x. rewrite (stackOf_exitFunction x c1 c2 function _ Ecs Hexit).
      destruct (Hstack x) as (pushed & -> & <-). rewrite drop_app_length. reflexivity.
    + exact Xcs.
    + rewrite Xft. exact Eft.
  - intros Hcs. unfold RuntimeContext.exitFunction. rewrite Hcs. reflexivity.
Qed.

(** [define fact(n)] called with [5] over [n = 7]: inside, [n] reads [5];
    afterwards [n] is [7] again. *)
Lemma exitFunction_after_enterFunction_witness :
  exists c1 c2,
    RuntimeContext.enterFunction define_fact [5%float]
      (RuntimeContext.setVariable "n" 7%float RuntimeContext.empty) = Some c1 /\
    RuntimeContext.getVariable c1 "n" = Some 5%float /\
    RuntimeContext.exitFunction c1 = RuntimeContext.Exited c2 /\
    stackOf "n" c2 = [7%float].
Proof.
  destruct (exitFunction_after_enterFunction define_fact [5%float]
              (RuntimeContext.setVariable "n" 7%float RuntimeContext.empty))
    as (_ & H & _).
  destruct (H eq_refl) as (c1 & c2 & Henter & _ & _ & Hparam & Hexit & Hstack & _).
  exists c1, c2. split_and!.
  - exact Henter.
  - apply (Hparam ltac:(repeat constructor; set_solver) 0 "n" 5%float eq_refl eq_refl).
    set_solver.
  - exact Hexit.
  - rewrite Hstack. reflexivity.
Defined.

(** ** Scopes: what an evaluation does to the bindings *)

Lemma topChanged_refl s : topChanged s s.
Proof. split; auto. Qed.

Lemma topChanged_trans s1 s2 s3 : topChanged s1 s2 -> topChanged s2 s3 -> topChanged s1 s3.
Proof. intros [H1 H2] [K1 K2]. split; [congruence | auto]. Qed.

Lemma drop_topChanged (pushed s s2 : list Number) :
  topChanged (pushed ++ s) s2 -> 1 <= length pushed -> drop (length pushed) s2 = s.
Proof.
  intros [Htail Hne] Hlen. destruct pushed as [| p pushed]; [simpl in Hlen; lia |].
  destruct s2 as [| h t]; [exfalso; apply Hne; [discriminate | reflexivity] |].
  simpl in *. subst t. apply drop_app_length.
Qed.

Lemma topChanged_frame (pushed s s2 : list Number) :
  topChanged (pushed ++ s) s2 -> topChanged s (drop (length pushed) s2).
Proof.
  intros H. destruct pushed as [| p pushed]; [exact H |].
  rewrite (drop_topChanged (p :: pushed) s s2 H) by (simpl; lia). apply topChanged_refl.
Qed.

Lemma scoped_refl st : scoped st st.
Proof. split; [apply frame_le_refl | intros x; apply topChanged_refl]. Qed.

Lemma scoped_trans st1 st2 st3 : scoped st1 st2 -> scoped st2 st3 -> scoped st1 st3.
Proof.
  intros [F1 S1] [F2 S2]. split; [eapply frame_le_trans; eauto |].
  intros x. eapply topChanged_trans; eauto.
Qed.

Lemma stackOf_entered function argValues st x :
  length (getArguments function) = length argValues ->
  exists pushed,
    stackOf x (context (entered function argValues st))
    = (pushed ++ stackOf x (context st))%list /\
    length pushed = occurrences x (getAutoVariables function ++ getArguments function).
Proof.
  intros Hlen. unfold entered. simpl.
  change (stackOf x (RuntimeContext.pushCall function ?c0)) with (stackOf x c0).
  rewrite stackOf_addAutos.
  destruct (stackOf_addParameters x (getArguments function) argValues (context st) Hlen)
    as (pushed & -> & Hp).
  eexists. rewrite app_assoc. split; [reflexivity |].
  rewrite length_app, length_replicate, occurrences_app. lia.
Qed.

Section Respects.

Variable R : State -> State -> Prop.
Hypothesis R_refl : forall st, R st st.
Hypothesis R_trans : forall st1 st2 st3, R st1 st2 -> R st2 st3 -> R st1 st3.
Hypothesis R_setVariable : forall name value st,
  R st (with_context (RuntimeContext.setVariable name value (context st)) st).
Hypothesis R_display : forall result st,
  R st {| context := context st; o := o st ++ [result] |}.
Hypothesis R_call : forall (body : Interp Number) functionDef argumentValues,
  respects R body ->
  respects R (let* _ := enterFunction functionDef argumentValues in tryBody body).

Lemma respects_ret {A} (a : A) : respects R (ret a).
Proof. intros st r st' [= <- <-] _. apply R_refl. Qed.

Lemma respects_unchanged {A} (m : Interp A) :
  (forall st, snd (m st) = st) -> respects R m.
Proof.
  intros H st r st' Hrun _. specialize (H st). rewrite Hrun in H. simpl in H. subst st'.
  apply R_refl.
Qed.

Lemma respects_bind {A B} (m : Interp A) (k : A -> Interp B) :
  respects R m -> (forall a, respects R (k a)) -> respects R (bind m k).
Proof.
  intros Hm Hk st r st' H Hd.
  apply bind_inv in H as [(a & st1 & H1 & H2) | (r1 & H1 & Hp)].
  - eapply R_trans; [eapply Hm | eapply Hk]; eauto. exact I.
  - eapply Hm; eauto. eapply propagated_defined; eauto.
Qed.

Lemma respects_getVariable name : respects R (getVariable name).
Proof.
  apply respects_unchanged. intros st. unfold getVariable.
  destruct (RuntimeContext.getVariable (context st) name); reflexivity.
Qed.

Lemma respects_setVariable name value : respects R (setVariable name value).
Proof. intros st r st' [= <- <-] _. apply R_setVariable. Qed.

Lemma respects_display result : respects R (display result).
Proof. intros st r st' [= <- <-] _. apply R_display. Qed.

Lemma respects_arithmetic pow m_type lhs rhs : respects R (arithmetic pow m_type lhs rhs).
Proof.
  apply respects_unchanged. intros st.
  destruct m_type; simpl; try reflexivity; destruct (Number.is_zero rhs); reflexivity.
Qed.

Lemma respects_interpretList (interpret : Statement -> Interp Number) l :
  (forall s, respects R (interpret s)) -> respects R (interpretList interpret l).
Proof.
  intros H. induction l as [| s l IH]; simpl.
  - apply respects_ret.
  - apply respects_bind; auto.
Qed.

Lemma respects_interpretArguments (interpret : Expression -> Interp Number) l :
  (forall e, respects R (interpret e)) -> respects R (interpretArguments interpret l).
Proof.
  intros H. induction l as [| e l IH]; simpl.
  - apply respects_ret.
  - apply respects_bind; auto. intros v. apply respects_bind; auto.
    intros vs. apply respects_ret.
Qed.

Lemma respects_whileBody (body again : Interp Number) :
  respects R body -> respects R again -> respects R (whileBody body again).
Proof.
  intros Hb Ha st r st' H Hdef. unfold whileBody in H.
  destruct (body st) as [rb st1] eqn:Hrun.
  destruct rb as [v | [ | | | value | message] | | |];
    try (injection H as <- <-; first [contradiction | eapply Hb; eauto; exact I]).
  - eapply R_trans; [eapply Hb | eapply Ha]; eauto; exact I.
  - eapply R_trans; [eapply Hb | eapply Ha]; eauto; exact I.
Qed.

Lemma interpret_respects pow fuel :
  (forall e, respects R (interpretExpression pow fuel e)) /\
  (forall s, respects R (interpretStatement pow fuel s)).
Proof.
  induction fuel as [| n [IHe IHs]].
  - split; intros; apply respects_unchanged; reflexivity.
  - split.
    + intros e. destruct e; simpl.
      * apply respects_ret.
      * apply respects_getVariable.
      * apply respects_bind; [apply respects_getVariable | intros value].
        apply respects_bind; [apply respects_setVariable | intros _; apply respects_ret].
      * apply respects_bind; [apply respects_getVariable | intros value].
        apply respects_bind; [apply respects_setVariable | intros _; apply respects_ret].
      * apply respects_bind; [apply IHe | intros lhs].
        apply respects_bind; [apply IHe | intros rhs; apply respects_arithmetic].
      * apply respects_bind; [apply IHe | intros lhs].
        apply respects_bind; [apply IHe | intros rhs; apply respects_ret].
      * apply respects_bind; [apply IHe | intros value; apply respects_ret].
      * apply respects_bind; [apply IHe | intros value].
        apply respects_bind; [apply respects_setVariable | intros _; apply respects_ret].
      * intros st r st' H Hdef.
        destruct (RuntimeContext.getFunctionDefinition (context st) m_name0) as [functionDef |].
        -- destruct (negb _).
           ++ injection H as <- <-. apply R_refl.
           ++ revert H Hdef. apply respects_bind.
              ** apply respects_interpretArguments, IHe.
              ** intros vs. apply R_call, IHs.
        -- injection H as <- <-. apply R_refl.
      * apply respects_bind; [apply IHe | intros value; apply respects_ret].
    + intros s. destruct s; simpl.
      * apply respects_bind; [apply IHe | intros result].
        destruct (shouldDisplayResult _); [| apply respects_ret].
        apply respects_bind; [apply respects_display | intros _; apply respects_ret].
      * apply respects_bind; [apply IHe | intros condition].
        destruct (Number.nonzero condition); [| destruct m_falseStmt].
        -- apply respects_bind; [apply IHs | intros _; apply respects_ret].
        -- apply respects_bind; [apply IHs | intros _; apply respects_ret].
        -- apply respects_ret.
      * apply respects_bind; [apply IHe | intros condition].
        destruct (Number.nonzero condition); [| apply respects_ret].
        apply respects_whileBody; apply IHs.
      * intros st r st' [= <- <-] _. apply R_refl.
      * intros st r st' [= <- <-] _. apply R_refl.
      * intros st r st' [= <- <-] _. apply R_refl.
      * destruct m_expr; [| intros st r st' [= <- <-] _; apply R_refl].
        apply respects_bind; [apply IHe | intros value].
        intros st r st' [= <- <-] _. apply R_refl.
      * apply respects_interpretList, IHs.
Qed.

End Respects.

Lemma scoped_call (body : Interp Number) functionDef argumentValues :
  respects scoped body ->
  respects scoped (let* _ := enterFunction functionDef argumentValues in tryBody body).
Proof.
  intros Hbody st r st' H Hdef.
  assert (Pbody : preserves body).
  { intros s1 r1 s2 H1 Hd. apply (Hbody s1 r1 s2 H1 Hd). }
  apply bind_inv in H as [([] & st1 & H1 & H2) | (r1 & H1 & Hp)].
  - unfold enterFunction, RuntimeContext.enterFunction in H1.
    destruct (decide (length (getArguments functionDef) = length argumentValues)) as [Hlen |];
      [| discriminate].
    injection H1 as <-. fold (entered functionDef argumentValues st) in H2.
    destruct (body (entered functionDef argumentValues st)) as [rb st2] eqn:Hrun.
    destruct (defined_dec rb) as [Hrb | Hrb].
    + destruct (tryBody_unwinds body functionDef argumentValues st rb st2 Pbody Hlen Hrun Hrb)
        as (c3 & Hexit & Htry & Hcs2 & _ & _ & Hframe).
      rewrite Htry in H2. injection H2 as <- <-. split; [exact Hframe |].
      intros x. simpl.
      rewrite (stackOf_exitFunction x _ _ _ _ Hcs2 Hexit).
      destruct (stackOf_entered functionDef argumentValues st x Hlen) as (pushed & Hp & <-).
      apply topChanged_frame. rewrite <- Hp. apply (Hbody _ _ _ Hrun Hrb).
    + rewrite (tryBody_undefined _ _ _ _ Hrun Hrb) in H2. injection H2 as <- <-. contradiction.
  - unfold enterFunction in H1.
    destruct (RuntimeContext.enterFunction functionDef argumentValues (context st));
      injection H1 as <- <-; inversion Hp; subst; contradiction.
Qed.

Lemma interpret_scoped pow fuel :
  (forall e, respects scoped (interpretExpression pow fuel e)) /\
  (forall s, respects scoped (interpretStatement pow fuel s)).
Proof.
  apply interpret_respects.
  - apply scoped_refl.
  - apply scoped_trans.
  - intros name value st. split.
    + eapply preserves_setVariable; [reflexivity | exact I].
    + intros x. simpl. rewrite stackOf_setVariable. destruct (decide (name = x)).
      * split; [reflexivity | discriminate].
      * apply topChanged_refl.
  - intros result st. split.
    + eapply preserves_display; [reflexivity | exact I].
    + intros x. apply topChanged_refl.
  - apply scoped_call.
Qed.

(** X4. An evaluation that ends in a defined way changes at most the top
    binding of each name: the bindings below the top one are the same
    afterwards, and a name that was bound is still bound. *)
Theorem evaluation_changes_top_bindings_only pow fuel :
  (forall e st r st' x,
     interpretExpression pow fuel e st = (r, st') -> defined r ->
     tail (stackOf x (context st')) = tail (stackOf x (context st)) /\
     (stackOf x (context st) <> [] -> stackOf x (context st') <> [])) /\
  (forall s st r st' x,
     interpretStatement pow fuel s st = (r, st') -> defined r ->
     tail (stackOf x (context st')) = tail (stackOf x (context st)) /\
     (stackOf x (context st) <> [] -> stackOf x (context st') <> [])).
Proof.
  destruct (interpret_scoped pow fuel) as [He Hs]. split.
  - intros e st r st' x H Hd. apply (He e st r st' H Hd).
  - intros s st r st' x H Hd. apply (Hs s st r st' H Hd).
Qed.

(** With [n = 7]: after the line [n = 1; fact(5); m = 2] the stack of [n]
    has one binding and that of [m] one. *)
Lemma evaluation_changes_top_bindings_only_witness :
  let st := {| context := RuntimeContext.setVariable "n" 7%float
                            (RuntimeContext.addFunctionDefinition define_fact
                               RuntimeContext.empty);
               o := [] |} in
  let line := StatementList
                [ExpressionStatement (AssignExpression "n" num1);
                 ExpressionStatement (FunctionCallExpression "fact" [ConstantExpression 5%float]);
                 ExpressionStatement (AssignExpression "m" (ConstantExpression 2%float))] in
  tail (stackOf "n" (context (snd (interpretStatement pow_small 40 line st)))) = [] /\
  stackOf "n" (context (snd (interpretStatement pow_small 40 line st))) <> [].
Proof.
  intros st line.
  destruct (evaluation_changes_top_bindings_only pow_small 40) as [_ Hs].
  destruct (Hs line st (Returns Number.zero) (snd (interpretStatement pow_small 40 line st)) "n")
    as [Htail Hbound].
  - vm_compute. reflexivity.
  - exact I.
  - split; [rewrite Htail; reflexivity | apply Hbound; discriminate].
Defined.

(** X5. The parameters and auto variables of a function shadow the
    bindings of the caller only during the call: when a call ends in a
    defined way, every name that is a parameter or an auto variable of the
    function has exactly the bindings it had when the arguments had been
    evaluated, whatever the body did to it. *)
Theorem call_restores_locals pow n f args st functionDef vs st1 r st3 x :
  RuntimeContext.getFunctionDefinition (context st) f = Some functionDef ->
  length (getArguments functionDef) = length args ->
  interpretArguments (interpretExpression pow n) args st = (Returns vs, st1) ->
  interpretExpression pow (S n) (FunctionCallExpression f args) st = (r, st3) ->
  defined r ->
  x ∈ (getAutoVariables functionDef ++ getArguments functionDef)%list ->
  stackOf x (context st3) = stackOf x (context st1).
Proof.
  intros Hlookup Hlen Hargs Hrun Hdef Hx.
  assert (Hvs : length (getArguments functionDef) = length vs).
  { rewrite Hlen. symmetry. eapply interpretArguments_length. exact Hargs. }
  simpl in Hrun. rewrite Hlookup, Hlen, Nat.eqb_refl in Hrun. simpl in Hrun.
  unfold bind at 1 in Hrun. rewrite Hargs in Hrun.
  unfold bind at 1 in Hrun. rewrite (enterFunction_entered _ _ _ Hvs) in Hrun.
  destruct (interpret_scoped pow n) as [_ Hs].
  destruct (interpretStatement pow n (getBody functionDef) (entered functionDef vs st1))
    as [rb st2] eqn:Hbody.
  destruct (defined_dec rb) as [Hrb | Hrb].
  2:{ rewrite (tryBody_undefined _ _ _ _ Hbody Hrb) in Hrun. injection Hrun as <- <-.
      contradiction. }
  assert (Pbody : preserves (interpretStatement pow n (getBody functionDef))).
  { apply interpret_preserves. }
  destruct (tryBody_unwinds _ functionDef vs st1 rb st2 Pbody Hvs Hbody Hrb)
    as (c3 & Hexit & Htry & Hcs2 & _ & _ & _).
  rewrite Htry in Hrun. injection Hrun as <- <-. simpl.
  rewrite (stackOf_exitFunction x _ _ _ _ Hcs2 Hexit).
  destruct (stackOf_entered functionDef vs st1 x Hvs) as (pushed & Hp & Hk).
  rewrite <- Hk. apply drop_topChanged.
  - rewrite <- Hp. apply (Hs _ _ _ _ Hbody Hrb).
  - rewrite Hk. clear - Hx.
    induction Hx as [y l | y z l _ IH]; rewrite occurrences_cons.
    + rewrite decide_True by done. lia.
    + lia.
Qed.

(** [define h(x) auto y { x = 3; y = 4; z = 5 }] called over [x = 1]: after
    [h(2)], [x] is [1] again, while [z] stays assigned. *)
Lemma call_restores_locals_witness :
  let h := {| m_name := "h"; m_args := ["x"]; m_autos := ["y"];
              m_commands :=
                [ExpressionStatement (AssignExpression "x" (ConstantExpression 3%float));
                 ExpressionStatement (AssignExpression "y" (ConstantExpression 4%float));
                 ExpressionStatement (AssignExpression "z" (ConstantExpression 5%float))] |} in
  let st := {| context := RuntimeContext.setVariable "x" 1%float
                            (RuntimeContext.addFunctionDefinition h RuntimeContext.empty);
               o := [] |} in
  let after := snd (interpretExpression pow_small 6
                      (FunctionCallExpression "h" [ConstantExpression 2%float]) st) in
  stackOf "x" (context after) = [1%float] /\
  stackOf "y" (context after) = [] /\
  stackOf "z" (context after) = [5%float].
Proof.
  intros h st after.
  assert (Hx : forall x, x ∈ ["y"; "x"] -> stackOf x (context after) = stackOf x (context st)).
  { intros x Hx.
    apply (call_restores_locals pow_small 5 "h" [ConstantExpression 2%float] st h
             [2%float] st (Returns Number.zero) after x).
    - reflexivity.
    - reflexivity.
    - reflexivity.
    - vm_compute. reflexivity.
    - exact I.
    - exact Hx. }
  split_and!.
  - rewrite (Hx "x") by set_solver. reflexivity.
  - rewrite (Hx "y") by set_solver. reflexivity.
  - vm_compute. reflexivity.
Defined.

(** ** More of the evaluator *)

(** X6. An evaluation that ends in a defined way leaves the call stack
    and the function table as they were and only appends to the output:
    nothing printed is taken back, and no function is defined or dropped
    while statements run. *)
Theorem evaluation_keeps_frame pow fuel :
  (forall e st r st',
     interpretExpression pow fuel e st = (r, st') -> defined r ->
     RuntimeContext.m_callStack (context st') = RuntimeContext.m_callStack (context st) /\
     RuntimeContext.m_functionTable (context st')
       = RuntimeContext.m_functionTable (context st) /\
     o st `prefix_of` o st') /\
  (forall s st r st',
     interpretStatement pow fuel s st = (r, st') -> defined r ->
     RuntimeContext.m_callStack (context st') = RuntimeContext.m_callStack (context st) /\
     RuntimeContext.m_functionTable (context st')
       = RuntimeContext.m_functionTable (context st) /\
     o st `prefix_of` o st').
Proof.
  destruct (interpret_preserves pow fuel) as [He Hs]. split.
  - intros e st r st' H Hd. destruct (He e st r st' H Hd) as (H1 & H2 & _ & H4). auto.
  - intros s st r st' H Hd. destruct (Hs s st r st' H Hd) as (H1 & H2 & _ & H4). auto.
Qed.

Lemma evaluation_keeps_frame_witness :
  [1%float] `prefix_of`
    o (snd (interpretStatement pow_small 40
              (StatementList
                 [ExpressionStatement
                    (FunctionCallExpression "fact" [ConstantExpression 5%float])])
              {| context := RuntimeContext.addFunctionDefinition define_fact
                              RuntimeContext.empty;
                 o := [1%float] |})).
Proof.
  destruct (evaluation_keeps_frame pow_small 40) as [_ Hs].
  destruct (Hs (StatementList
                  [ExpressionStatement
                     (FunctionCallExpression "fact" [ConstantExpression 5%float])])
              {| context := RuntimeContext.addFunctionDefinition define_fact
                              RuntimeContext.empty;
                 o := [1%float] |}
              (Returns Number.zero) _ (surjective_pairing _)) as (_ & _ & Hout).
  - vm_compute. exact I.
  - exact Hout.
Defined.

(** X7. With a variable whose read is defined (bound, or without an
    entry and then read as [0]), [++x] and [--x] return the new value,
    [x++] and [x--] the old one, and all store the new value as the top
    binding of [x] without printing; where the read is undefined, so is
    the operation, and nothing is stored. *)
Theorem increment_decrement pow n x type st :
  (forall v,
     RuntimeContext.getVariable (context st) x = Some v ->
     interpretExpression pow (S n) (PrefixOpExpression x type) st
       = (Returns (incrDecr type v),
          with_context (RuntimeContext.setVariable x (incrDecr type v) (context st)) st) /\
     interpretExpression pow (S n) (PostfixOpExpression x type) st
       = (Returns v,
          with_context (RuntimeContext.setVariable x (incrDecr type v) (context st)) st) /\
     RuntimeContext.getVariable
       (RuntimeContext.setVariable x (incrDecr type v) (context st)) x
       = Some (incrDecr type v) /\
     stackOf x (RuntimeContext.setVariable x (incrDecr type v) (context st))
       = incrDecr type v :: tail (stackOf x (context st))) /\
  (RuntimeContext.getVariable (context st) x = None ->
   interpretExpression pow (S n) (PrefixOpExpression x type) st = (Undefined, st) /\
   interpretExpression pow (S n) (PostfixOpExpression x type) st = (Undefined, st)).
Proof.
  split.
  - intros v Hv. split_and!.
    + simpl. unfold bind, getVariable. rewrite Hv. reflexivity.
    + simpl. unfold bind, getVariable. rewrite Hv. reflexivity.
    + eapply getVariable_stackOf. rewrite stackOf_setVariable, decide_True by done.
      reflexivity.
    + rewrite stackOf_setVariable, decide_True by done. reflexivity.
  - intros Hv. split; simpl; unfold bind, getVariable; rewrite Hv; reflexivity.
Qed.

(** [i++] on a name never used returns [0] and leaves [i = 1]. *)
Lemma increment_decrement_witness :
  interpretExpression pow_small 1 (PostfixOpExpression "i" OP_INCR)
    {| context := RuntimeContext.empty; o := [] |}
  = (Returns 0%float,
     with_context (RuntimeContext.setVariable "i" 1%float RuntimeContext.empty)
       {| context := RuntimeContext.empty; o := [] |}).
Proof.
  destruct (increment_decrement pow_small 0 "i" OP_INCR
              {| context := RuntimeContext.empty; o := [] |}) as [H _].
  destruct (H 0%float eq_refl) as (_ & Hpost & _). exact Hpost.
Defined.

(** X8. An expression statement whose expression returns [v] prints [v],
    and only [v], unless the expression is an assignment, plain or
    compound, which prints nothing; the runtime context is the one the
    expression left. *)
Theorem expression_statement_display pow n e st v st1 :
  interpretExpression pow n e st = (Returns v, st1) ->
  interpretStatement pow (S n) (ExpressionStatement e) st
    = (Returns Number.zero,
       {| context := context st1;
          o := if shouldDisplayResult e then o st1 ++ [v] else o st1 |}) /\
  (shouldDisplayResult e = false <-> exists x e', e = AssignExpression x e') /\
  (forall x op e', shouldDisplayResult (compoundAssign x op e') = false).
Proof.
  intros He. split_and!.
  - simpl. unfold bind at 1. rewrite He. destruct (shouldDisplayResult e).
    + reflexivity.
    + destruct st1. reflexivity.
  - split.
    + destruct e; simpl; try discriminate. eauto.
    + intros (x & e' & ->). reflexivity.
  - reflexivity.
Qed.

Lemma expression_statement_display_witness :
  interpretStatement pow_small 2 (ExpressionStatement (VariableExpression "x")) state_x7
    = (Returns Number.zero, {| context := context state_x7; o := [7%float] |}) /\
  interpretStatement pow_small 3
    (ExpressionStatement (AssignExpression "x" (VariableExpression "x"))) state_x7
    = (Returns Number.zero, {| context := context state_x7; o := [] |}).
Proof.
  split.
  - apply (expression_statement_display pow_small 1 (VariableExpression "x")
             state_x7 7%float state_x7). reflexivity.
  - apply (expression_statement_display pow_small 2
             (AssignExpression "x" (VariableExpression "x")) state_x7 7%float state_x7).
    reflexivity.
Defined.

Lemma nonzero_of_bool b : Number.nonzero (Number.of_bool b) = b.
Proof. destruct b; reflexivity. Qed.

(** X9. Every comparison and logical operator yields [1] or [0], and so
    does [!]: [!e] is [1] exactly when [e] equals zero, and [!!e] is [1]
    exactly when [e] differs from zero, so that [!!] brings any value to
    [0] or [1]. *)
Theorem logical_values pow n e st v st1 :
  interpretExpression pow n e st = (Returns v, st1) ->
  interpretExpression pow (S n) (NegationExpression e) st
    = (Returns (if Number.is_zero v then Number.one else Number.zero), st1) /\
  interpretExpression pow (S (S n)) (NegationExpression (NegationExpression e)) st
    = (Returns (if Number.is_zero v then Number.zero else Number.one), st1) /\
  (forall op lhs rhs,
     boolean op lhs rhs = Number.one \/ boolean op lhs rhs = Number.zero) /\
  (forall l op r lhs rhs st2 st3,
     interpretExpression pow n l st = (Returns lhs, st2) ->
     interpretExpression pow n r st2 = (Returns rhs, st3) ->
     interpretExpression pow (S (S n)) (NegationExpression (BooleanExpression l r op)) st
       = (Returns (if Number.nonzero (boolean op lhs rhs)
                   then Number.zero else Number.one), st3)).
Proof.
  intros He.
  assert (Hnot : forall k e1 s1 v1 s2,
             interpretExpression pow k e1 s1 = (Returns v1, s2) ->
             interpretExpression pow (S k) (NegationExpression e1) s1
             = (Returns (Number.of_bool (negb (Number.nonzero v1))), s2)).
  { intros k e1 s1 v1 s2 H. simpl. unfold bind. rewrite H. reflexivity. }
  split_and!.
  - rewrite (Hnot _ _ _ _ _ He). unfold Number.nonzero, Number.is_zero.
    destruct (PrimFloat.eqb v Number.zero); reflexivity.
  - rewrite (Hnot _ _ _ _ _ (Hnot _ _ _ _ _ He)). rewrite nonzero_of_bool.
    unfold Number.nonzero, Number.is_zero. destruct (PrimFloat.eqb v Number.zero); reflexivity.
  - intros op lhs rhs. unfold boolean.
    match goal with |- Number.of_bool ?b = _ \/ _ => destruct b end; auto.
  - intros l op r lhs rhs st2 st3 Hl Hr.
    assert (Hb : interpretExpression pow (S n) (BooleanExpression l r op) st
                 = (Returns (boolean op lhs rhs), st3)).
    { simpl. unfold bind. rewrite Hl, Hr. reflexivity. }
    rewrite (Hnot _ _ _ _ _ Hb). destruct (Number.nonzero (boolean op lhs rhs)); reflexivity.
Qed.

Lemma logical_values_witness :
  interpretExpression pow_small 3
    (NegationExpression (NegationExpression (VariableExpression "x"))) state_x7
  = (Returns 1%float, state_x7).
Proof.
  apply (logical_values pow_small 1 (VariableExpression "x") state_x7 7%float state_x7).
  reflexivity.
Defined.

(** X10. One round of a [while]. A condition equal to zero ends the loop
    with the body not run; with a condition different from zero the body
    runs once, and then: after a normal end or a [continue] the loop goes
    on from the state the body left, evaluating the condition anew; a
    [break] ends the loop at once, the condition not evaluated again; any
    other exception leaves the loop as it is. An exception of the
    condition leaves the loop too. *)
Theorem while_round pow n condition body st :
  (forall v st1,
     interpretExpression pow n condition st = (Returns v, st1) ->
     Number.nonzero v = false ->
     interpretStatement pow (S n) (WhileStatement condition body) st
       = (Returns Number.zero, st1)) /\
  (forall v st1 rb st2,
     interpretExpression pow n condition st = (Returns v, st1) ->
     Number.nonzero v = true ->
     interpretStatement pow n body st1 = (rb, st2) ->
     ((exists w, rb = Returns w) \/ rb = Throws ContinueFlowException ->
      interpretStatement pow (S n) (WhileStatement condition body) st
        = interpretStatement pow n (WhileStatement condition body) st2) /\
     (rb = Throws BreakFlowException ->
      interpretStatement pow (S n) (WhileStatement condition body) st
        = (Returns Number.zero, st2)) /\
     (forall ex, rb = Throws ex ->
        ex <> BreakFlowException -> ex <> ContinueFlowException ->
        interpretStatement pow (S n) (WhileStatement condition body) st = (Throws ex, st2))) /\
  (forall ex st1,
     interpretExpression pow n condition st = (Throws ex, st1) ->
     interpretStatement pow (S n) (WhileStatement condition body) st = (Throws ex, st1)).
Proof.
  split_and!.
  - intros v st1 Hc Hv. simpl. unfold bind. rewrite Hc, Hv. reflexivity.
  - intros v st1 rb st2 Hc Hv Hb.
    assert (H : interpretStatement pow (S n) (WhileStatement condition body) st
                = whileBody (interpretStatement pow n body)
                    (interpretStatement pow n (WhileStatement condition body)) st1).
    { simpl. unfold bind. rewrite Hc, Hv. reflexivity. }
    rewrite H. unfold whileBody. rewrite Hb. split_and!.
    + intros [[w ->] | ->]; reflexivity.
    + intros ->. reflexivity.
    + intros ex -> Hbreak Hcontinue. destruct ex; try reflexivity; contradiction.
  - intros ex st1 Hc. simpl. unfold bind. rewrite Hc. reflexivity.
Qed.

(** [while (x) break] over [x = 7] ends at once and leaves [x = 7]. *)
Lemma while_round_witness :
  interpretStatement pow_small 3
    (WhileStatement (VariableExpression "x") BreakStatement) state_x7
  = (Returns Number.zero, state_x7).
Proof.
  destruct (while_round pow_small 2 (VariableExpression "x") BreakStatement state_x7)
    as (_ & H & _).
  destruct (H 7%float state_x7 (Throws BreakFlowException) state_x7 eq_refl eq_refl eq_refl)
    as (_ & Hbreak & _).
  apply Hbreak. reflexivity.
Defined.

(** ** More of the semantic checks *)

Lemma checkStatements_wellPlaced l :
  List.Forall
    (fun s => forall c,
       (0 <= SemanticContext.m_while c)%Z ->
       SemanticContext.detectedError (checkStatement s c)
       = SemanticContext.detectedError c
         || negb (wellPlaced (SemanticContext.isInWhile c) (SemanticContext.isInFunction c) s))
    l ->
  forall c,
    (0 <= SemanticContext.m_while c)%Z ->
    SemanticContext.detectedError (checkStatements l c)
    = SemanticContext.detectedError c
      || negb (forallb (wellPlaced (SemanticContext.isInWhile c)
                          (SemanticContext.isInFunction c)) l).
Proof.
  induction 1 as [| s l Hs _ IH]; intros c Hw; simpl.
  - rewrite orb_false_r. reflexivity.
  - destruct (checkStatement_keeps s c) as (Hf & Hwhile & _).
    rewrite IH by (rewrite Hwhile; exact Hw). rewrite (Hs c Hw).
    unfold SemanticContext.isInWhile, SemanticContext.isInFunction. rewrite Hf, Hwhile.
    rewrite negb_andb, orb_assoc. reflexivity.
Qed.

Lemma checkStatement_wellPlaced s : forall c,
  (0 <= SemanticContext.m_while c)%Z ->
  SemanticContext.detectedError (checkStatement s c)
  = SemanticContext.detectedError c
    || negb (wellPlaced (SemanticContext.isInWhile c) (SemanticContext.isInFunction c) s).
Proof.
  induction s as [e | e t f IHt IHf | e s IH | | | | e | l IH] using Statement_nested_ind;
    intros c Hw; try rewrite checkStatement_StatementList; simpl.
  - rewrite orb_false_r. reflexivity.
  - destruct f as [s |].
    + destruct (checkStatement_keeps t c) as (Hf & Hwhile & _).
      rewrite IHf by (rewrite Hwhile; exact Hw). rewrite (IHt c Hw).
      unfold SemanticContext.isInWhile, SemanticContext.isInFunction. rewrite Hf, Hwhile.
      rewrite negb_andb, orb_assoc. reflexivity.
    + rewrite (IHt c Hw), andb_true_r. reflexivity.
  - change (SemanticContext.detectedError (SemanticContext.exitWhile ?c0))
      with (SemanticContext.detectedError c0).
    rewrite IH by (simpl; lia).
    replace (SemanticContext.isInWhile (SemanticContext.enterWhile c)) with true.
    + reflexivity.
    + symmetry. unfold SemanticContext.isInWhile. simpl. apply Z.ltb_lt. lia.
  - unfold SemanticContext.checkBreak.
    destruct (SemanticContext.isInWhile c); simpl;
      [rewrite orb_false_r | rewrite orb_true_r]; reflexivity.
  - unfold SemanticContext.checkContinue.
    destruct (SemanticContext.isInWhile c); simpl;
      [rewrite orb_false_r | rewrite orb_true_r]; reflexivity.
  - rewrite orb_false_r. reflexivity.
  - unfold SemanticContext.checkReturn.
    destruct (SemanticContext.isInFunction c); simpl;
      [rewrite orb_false_r | rewrite orb_true_r]; reflexivity.
  - apply checkStatements_wellPlaced; assumption.
Qed.

(** X11. The checks the parser runs with its [while] counter and its
    function flag come to the structural rule: starting without error
    and with a counter that is not negative, a statement is flagged
    exactly when some [break] or [continue] of it stands outside every
    [while] of the statement and the context is not inside one, or some
    [return] stands outside a function; an error flagged before stays.
    After the statement the counter and the flag are what they were. *)
Theorem checks_are_structural s c :
  (0 <= SemanticContext.m_while c)%Z ->
  (SemanticContext.detectedError (checkStatement s c)
   = SemanticContext.detectedError c
     || negb (wellPlaced (SemanticContext.isInWhile c) (SemanticContext.isInFunction c) s)) /\
  SemanticContext.m_while (checkStatement s c) = SemanticContext.m_while c /\
  SemanticContext.m_inFunction (checkStatement s c) = SemanticContext.m_inFunction c.
Proof.
  intros Hw. destruct (checkStatement_keeps s c) as (Hf & Hwhile & _).
  split_and!; [apply checkStatement_wellPlaced; exact Hw | exact Hwhile | exact Hf].
Qed.

(** [while (1) { if (x) break; while (0) continue }; break]: the last
    [break] is flagged. *)
Lemma checks_are_structural_witness :
  SemanticContext.detectedError
    (checkStatement
       (StatementList
          [WhileStatement num1
             (StatementList
                [IfStatement (VariableExpression "x") BreakStatement None;
                 WhileStatement (ConstantExpression 0%float) ContinueStatement]);
           BreakStatement])
       SemanticContext.reset)
  = true.
Proof.
  destruct (checks_are_structural
              (StatementList
                 [WhileStatement num1
                    (StatementList
                       [IfStatement (VariableExpression "x") BreakStatement None;
                        WhileStatement (ConstantExpression 0%float) ContinueStatement]);
                  BreakStatement])
              SemanticContext.reset) as (H & _).
  - simpl. lia.
  - rewrite H. reflexivity.
Defined.

Lemma isStringInList_elem_of l s : SemanticContext.isStringInList l s = true <-> s ∈ l.
Proof.
  unfold SemanticContext.isStringInList. rewrite existsb_exists. split.
  - intros (y & Hy & Heq). apply String.eqb_eq in Heq. subst y.
    apply list_elem_of_In. exact Hy.
  - intros H. exists s. split; [apply list_elem_of_In; exact H | apply String.eqb_refl].
Qed.

Lemma checkFunctionVariable_error seen x c :
  SemanticContext.m_funcArgs (SemanticContext.checkFunctionVariable seen x c)
    = SemanticContext.m_funcArgs c /\
  SemanticContext.m_inFunction (SemanticContext.checkFunctionVariable seen x c)
    = SemanticContext.m_inFunction c /\
  SemanticContext.m_while (SemanticContext.checkFunctionVariable seen x c)
    = SemanticContext.m_while c /\
  (SemanticContext.m_error (SemanticContext.checkFunctionVariable seen x c) = false <->
   SemanticContext.m_error c = false /\ (x ∉ seen) /\
   (forall args, SemanticContext.m_funcArgs c = Some args -> x ∉ args)).
Proof.
  unfold SemanticContext.checkFunctionVariable.
  destruct (SemanticContext.isStringInList seen x) eqn:Eseen.
  - apply isStringInList_elem_of in Eseen. simpl. split_and!; try reflexivity.
    split; [discriminate | intros (_ & H & _); contradiction].
  - assert (Hseen : x ∉ seen).
    { intros H. apply isStringInList_elem_of in H. congruence. }
    destruct (SemanticContext.m_funcArgs c) as [args |] eqn:Eargs.
    + destruct (SemanticContext.isStringInList args x) eqn:Ein.
      * apply isStringInList_elem_of in Ein. simpl. split_and!; try reflexivity; [exact Eargs |].
        split; [discriminate | intros (_ & _ & H); exfalso; eapply H; eauto].
      * split_and!; try reflexivity; [exact Eargs |].
        split; [| tauto]. intros H. split_and!; [exact H | exact Hseen |].
        intros args' [= <-] Hin. apply isStringInList_elem_of in Hin. congruence.
    + split_and!; try reflexivity; [exact Eargs |].
      split; [| tauto]. intros H. split_and!; [exact H | exact Hseen | discriminate].
Qed.

Lemma checkVariableList_error names : forall seen c,
  SemanticContext.m_funcArgs (checkVariableList seen names c) = SemanticContext.m_funcArgs c /\
  (SemanticContext.m_error (checkVariableList seen names c) = false <->
   SemanticContext.m_error c = false /\ NoDup names /\
   (forall x, x ∈ names -> x ∉ seen) /\
   (forall args, SemanticContext.m_funcArgs c = Some args ->
      forall x, x ∈ names -> x ∉ args)).
Proof.
  induction names as [| x names IH]; intros seen c; simpl.
  - split; [reflexivity |]. split.
    + intros H. split_and!; [exact H | constructor | |].
      * intros y Hy. apply elem_of_nil in Hy. contradiction.
      * intros args _ y Hy. apply elem_of_nil in Hy. contradiction.
    + tauto.
  - destruct (IH (seen ++ [x])%list (SemanticContext.checkFunctionVariable seen x c))
      as [Hargs Herr].
    destruct (checkFunctionVariable_error seen x c) as (Hargs1 & _ & _ & Herr1).
    split; [rewrite Hargs; exact Hargs1 |].
    rewrite Herr, Herr1, Hargs1, NoDup_cons. split.
    + intros ((He & Hx & Ha) & Hnd & Hseen & Hall). split_and!.
      * exact He.
      * intros Hin. apply (Hseen x Hin). apply elem_of_app. right.
        apply list_elem_of_singleton. reflexivity.
      * exact Hnd.
      * intros y Hy. apply elem_of_cons in Hy as [-> | Hy]; [exact Hx |].
        specialize (Hseen y Hy). apply not_elem_of_app in Hseen as [Hseen _]. exact Hseen.
      * intros args Hargs' y Hy. apply elem_of_cons in Hy as [-> | Hy]; eauto.
    + intros (He & [Hx Hnd] & Hseen & Hall). split_and!.
      * exact He.
      * apply Hseen. apply elem_of_cons. left. reflexivity.
      * intros args Hargs'. eapply Hall; [exact Hargs' |]. apply elem_of_cons. left. reflexivity.
      * exact Hnd.
      * intros y Hy. apply not_elem_of_app. split.
        -- apply Hseen. apply elem_of_cons. right. exact Hy.
        -- intros Hyx. apply list_elem_of_singleton in Hyx. subst y. contradiction.
      * intros args Hargs' y Hy. eapply Hall; [exact Hargs' |].
        apply elem_of_cons. right. exact Hy.
Qed.

Lemma checkFuncDef_characterised def :
  SemanticContext.detectedError (checkFuncDef def SemanticContext.reset) = false <->
  NoDup (m_args def ++ m_autos def) /\
  wellPlaced false true (StatementList (m_commands def)) = true.
Proof.
  change (SemanticContext.detectedError (checkFuncDef def SemanticContext.reset))
    with (SemanticContext.detectedError (checkStatement (getBody def) (bodyContext def))).
  destruct (checkVariableList_keeps (m_autos def) []
              (SemanticContext.setFunctionArguments (m_args def)
                 (checkVariableList [] (m_args def)
                    (SemanticContext.enterFunction SemanticContext.reset)))) as [Hf2 _].
  destruct (checkVariableList_keeps (m_args def) []
              (SemanticContext.enterFunction SemanticContext.reset)) as [Hf1 _].
  assert (Hfun : SemanticContext.isInFunction (bodyContext def) = true).
  { unfold SemanticContext.isInFunction, bodyContext. rewrite Hf2. simpl. rewrite Hf1.
    reflexivity. }
  assert (Hwhile : SemanticContext.isInWhile (bodyContext def) = false).
  { unfold SemanticContext.isInWhile. rewrite bodyContext_while. reflexivity. }
  rewrite checkStatement_wellPlaced by (rewrite bodyContext_while; lia).
  rewrite Hfun, Hwhile.
  assert (Hlists : SemanticContext.detectedError (bodyContext def) = false <->
                   NoDup (m_args def ++ m_autos def)).
  { unfold SemanticContext.detectedError, bodyContext.
    destruct (checkVariableList_error (m_autos def) []
                (SemanticContext.setFunctionArguments (m_args def)
                   (checkVariableList [] (m_args def)
                      (SemanticContext.enterFunction SemanticContext.reset)))) as [_ ->].
    simpl.
    destruct (checkVariableList_error (m_args def) []
                (SemanticContext.enterFunction SemanticContext.reset)) as [_ ->].
    simpl. rewrite NoDup_app. split.
    - intros ((_ & Hnd1 & _ & _) & Hnd2 & _ & Hdisj). split_and!; [exact Hnd1 | | exact Hnd2].
      intros x Hx1 Hx2. exact (Hdisj _ eq_refl x Hx2 Hx1).
    - intros (Hnd1 & Hdisj & Hnd2). split_and!; try assumption; try reflexivity.
      + intros x _. apply not_elem_of_nil.
      + discriminate.
      + intros x _. apply not_elem_of_nil.
      + intros args [= <-] x Hx2 Hx1. exact (Hdisj x Hx1 Hx2). }
  rewrite <- Hlists, orb_false_iff, negb_false_iff. reflexivity.
Qed.

(** X12. A function definition passes the semantic checks exactly when
    its parameters and auto variables together are pairwise distinct
    names and, in its body, every [break] and [continue] stands inside a
    [while] of the body ([return] may stand anywhere in it). *)
Theorem checkFuncDef_passes def :
  SemanticContext.detectedError (checkFuncDef def SemanticContext.reset) = false <->
  NoDup (m_args def ++ m_autos def) /\
  wellPlaced false true (StatementList (m_commands def)) = true.
Proof. apply checkFuncDef_characterised. Qed.

(** [define fact(n)] passes; [define g(x) auto x] does not. *)
Lemma checkFuncDef_passes_witness :
  SemanticContext.detectedError (checkFuncDef define_fact SemanticContext.reset) = false /\
  SemanticContext.detectedError
    (checkFuncDef {| m_name := "g"; m_args := ["x"]; m_autos := ["x"]; m_commands := [] |}
       SemanticContext.reset) <> false.
Proof.
  split.
  - apply (checkFuncDef_passes define_fact). split; [| reflexivity].
    apply NoDup_cons. split; [apply not_elem_of_nil | constructor].
  - intros H. apply checkFuncDef_passes in H as [Hnd _]. simpl in Hnd.
    apply NoDup_cons in Hnd as [Hx _]. apply Hx. apply elem_of_cons. left. reflexivity.
Defined.

(** ** More of the parse loop *)

Lemma command_table pow fuel cmd i i' :
  command pow fuel cmd i = (Parsing, i') ->
  RuntimeContext.m_functionTable (runContext i')
  = match cmd with
    | FuncDefCommand def =>
        if SemanticContext.detectedError (checkFuncDef def SemanticContext.reset)
        then RuntimeContext.m_functionTable (runContext i)
        else <[m_name def := def]> (RuntimeContext.m_functionTable (runContext i))
    | StatementLineCommand _ => RuntimeContext.m_functionTable (runContext i)
    end.
Proof.
  destruct cmd as [def | line]; unfold_command.
  - destruct (SemanticContext.detectedError (checkFuncDef def SemanticContext.reset));
      intros [= <-]; reflexivity.
  - destruct (SemanticContext.detectedError
                (checkStatement (StatementList line) SemanticContext.reset)).
    { intros [= <-]. reflexivity. }
    destruct (interpretStatement pow fuel (StatementList line)
                {| context := runContext i; o := cout i |}) as [r st] eqn:Hrun.
    assert (Hframe : defined r ->
                     RuntimeContext.m_functionTable (context st)
                     = RuntimeContext.m_functionTable (runContext i)).
    { intros Hd.
      destruct (proj2 (interpret_preserves pow fuel) _ (stateOf i) r st Hrun Hd) as (_ & H & _).
      exact H. }
    destruct r as [v | [ | | | value | message] | | |]; intros [= <-]; simpl;
      apply Hframe; exact I.
Qed.

Lemma prog_table_invariant pow fuel (P : string -> FunctionDefinition -> Prop) cmds :
  forall i i',
    (forall name def,
       RuntimeContext.m_functionTable (runContext i) !! name = Some def -> P name def) ->
    (forall def,
       FuncDefCommand def ∈ cmds ->
       SemanticContext.detectedError (checkFuncDef def SemanticContext.reset) = false ->
       P (m_name def) def) ->
    prog pow fuel cmds i = (Parsing, i') ->
    forall name def,
      RuntimeContext.m_functionTable (runContext i') !! name = Some def -> P name def.
Proof.
  induction cmds as [| cmd cmds IH]; intros i i' Hi Hadd; simpl.
  - intros [= <-]. exact Hi.
  - destruct (command pow fuel cmd i) as [status1 i1] eqn:Hcmd.
    destruct status1; try discriminate.
    intros Hprog. eapply IH; [| | exact Hprog].
    + intros name def. rewrite (command_table pow fuel cmd i i1 Hcmd).
      destruct cmd as [def0 | line]; [| apply Hi].
      destruct (SemanticContext.detectedError (checkFuncDef def0 SemanticContext.reset))
        eqn:Herr; [apply Hi |].
      rewrite lookup_insert_Some. intros [[<- <-] | [_ H]]; [| apply Hi; exact H].
      apply Hadd; [apply elem_of_cons; left; reflexivity | exact Herr].
    + intros def Hin. apply Hadd. apply elem_of_cons. right. exact Hin.
Qed.

(** X13. Whatever commands have run, every function in the function table
    is stored under its own name, comes from a [define] command among
    them, and passed the semantic checks: its parameters and auto
    variables are pairwise distinct and in its body every [break] and
    [continue] stands inside a [while]. *)
Theorem stored_functions_are_checked pow fuel cmds i name def :
  prog pow fuel cmds initial = (Parsing, i) ->
  RuntimeContext.getFunctionDefinition (runContext i) name = Some def ->
  m_name def = name /\
  FuncDefCommand def ∈ cmds /\
  NoDup (m_args def ++ m_autos def) /\
  wellPlaced false true (StatementList (m_commands def)) = true.
Proof.
  intros Hprog Hlookup.
  assert (H : m_name def = name /\ FuncDefCommand def ∈ cmds /\
              SemanticContext.detectedError (checkFuncDef def SemanticContext.reset) = false).
  { apply (prog_table_invariant pow fuel
             (fun name def =>
                m_name def = name /\ FuncDefCommand def ∈ cmds /\
                SemanticContext.detectedError (checkFuncDef def SemanticContext.reset) = false)
             cmds initial i).
    - intros name' def' H'. simpl in H'. rewrite lookup_empty in H'. discriminate.
    - intros def' Hin Herr. auto.
    - exact Hprog.
    - exact Hlookup. }
  destruct H as (Hname & Hin & Herr). apply checkFuncDef_characterised in Herr as [Hnd Hwp].
  auto.
Qed.

Lemma stored_functions_are_checked_witness :
  m_name define_fact = "fact" /\
  FuncDefCommand define_fact ∈ [FuncDefCommand define_f; FuncDefCommand define_fact] /\
  NoDup (m_args define_fact ++ m_autos define_fact) /\
  wellPlaced false true (StatementList (m_commands define_fact)) = true.
Proof.
  apply (stored_functions_are_checked pow_small 0
           [FuncDefCommand define_f; FuncDefCommand define_fact]
           (snd (prog pow_small 0 [FuncDefCommand define_f; FuncDefCommand define_fact] initial))
           "fact" define_fact); reflexivity.
Defined.

(** X14. A [define] command that passes the checks installs its function
    under its name, in place of an earlier one of that name, and touches
    nothing else. One that does not pass leaves the runtime context, an
    earlier function of that name included, and the output as they were;
    what it adds to [cerr] is the diagnostics of its checks, in their
    order, and there is at least one. Either way the parse loop goes
    on. *)
Theorem define_installs pow fuel def i :
  (SemanticContext.detectedError (checkFuncDef def SemanticContext.reset) = false ->
   exists i',
     command pow fuel (FuncDefCommand def) i = (Parsing, i') /\
     RuntimeContext.getFunctionDefinition (runContext i') (m_name def) = Some def /\
     (forall name, name <> m_name def ->
        RuntimeContext.getFunctionDefinition (runContext i') name
        = RuntimeContext.getFunctionDefinition (runContext i) name) /\
     RuntimeContext.m_variables (runContext i') = RuntimeContext.m_variables (runContext i) /\
     RuntimeContext.m_callStack (runContext i') = RuntimeContext.m_callStack (runContext i) /\
     cout i' = cout i /\ cerr i' = cerr i) /\
  (SemanticContext.detectedError (checkFuncDef def SemanticContext.reset) = true ->
   exists i',
     command pow fuel (FuncDefCommand def) i = (Parsing, i') /\
     runContext i' = runContext i /\
     cout i' = cout i /\
     cerr i' = (cerr i ++ map Diagnostic
                            (SemanticContext.printed
                               (checkFuncDef def SemanticContext.reset)))%list /\
     SemanticContext.printed (checkFuncDef def SemanticContext.reset) <> []).
Proof.
  split; intros Herr.
  - rewrite command_FuncDef_checked by exact Herr.
    eexists. split; [reflexivity |]. simpl. unfold RuntimeContext.getFunctionDefinition. simpl.
    split_and!; try reflexivity.
    + apply lookup_insert_eq.
    + intros name Hne. apply lookup_insert_ne. intros E. apply Hne. symmetry. exact E.
  - unfold_command. rewrite Herr. eexists. split_and!; try reflexivity.
    intros Hquiet. apply (checkFuncDef_reported def) in Hquiet.
    unfold SemanticContext.detectedError in Herr. rewrite Herr in Hquiet. discriminate Hquiet.
Qed.

(** A second [define f] replaces the first; [define g(x) { auto x }] is
    turned down with one diagnostic. *)
Lemma define_installs_witness :
  let f2 := {| m_name := "f"; m_args := []; m_autos := [];
               m_commands := [ReturnStatement (Some num1)] |} in
  let g := {| m_name := "g"; m_args := ["x"]; m_autos := ["x"]; m_commands := [] |} in
  RuntimeContext.getFunctionDefinition
    (runContext (snd (prog pow_small 0 [FuncDefCommand define_f; FuncDefCommand f2] initial)))
    "f" = Some f2 /\
  exists i',
    command pow_small 0 (FuncDefCommand g) initial = (Parsing, i') /\
    cerr i' = [Diagnostic "duplicate name in parameter or auto variable list"].
Proof.
  intros f2 g. split.
  - destruct (define_installs pow_small 0 f2
                (snd (prog pow_small 0 [FuncDefCommand define_f] initial))) as [H _].
    destruct (H eq_refl) as (i' & Hcmd & Hget & _).
    change (prog pow_small 0 [FuncDefCommand define_f; FuncDefCommand f2] initial)
      with (command pow_small 0 (FuncDefCommand f2)
              (snd (prog pow_small 0 [FuncDefCommand define_f] initial))).
    rewrite Hcmd. exact Hget.
  - destruct (define_installs pow_small 0 g initial) as [_ H].
    destruct (H eq_refl) as (i' & Hcmd & _ & _ & Hcerr & _).
    exists i'. split; [exact Hcmd | exact Hcerr].
Defined.

Lemma prog_app pow fuel cmds1 cmds2 : forall i,
  prog pow fuel (cmds1 ++ cmds2) i
  = match prog pow fuel cmds1 i with
    | (Parsing, i1) => prog pow fuel cmds2 i1
    | stopped => stopped
    end.
Proof.
  induction cmds1 as [| cmd cmds1 IH]; intros i; simpl; [reflexivity |].
  destruct (command pow fuel cmd i) as [[ | | ex | r] i1]; try reflexivity. apply IH.
Qed.

(** X15. [halt] ends the run: when the commands before a checked line
    have run and the line throws [halt], be it from inside function
    calls, the parse loop accepts with what was printed and written up to
    then, whatever commands follow, and no call is left on the call
    stack. *)
Theorem halt_ends_the_run pow fuel before line after i1 st :
  prog pow fuel before initial = (Parsing, i1) ->
  SemanticContext.detectedError
    (checkStatement (StatementList line) SemanticContext.reset) = false ->
  interpretStatement pow fuel (StatementList line) (stateOf i1)
    = (Throws HaltFlowException, st) ->
  prog pow fuel (before ++ StatementLineCommand line :: after) initial
    = (Accepted, {| runContext := context st; cout := o st; cerr := cerr i1 |}) /\
  RuntimeContext.m_callStack (context st) = [] /\
  cout i1 `prefix_of` o st.
Proof.
  intros Hbefore Herr Hline.
  assert (Hcs1 : RuntimeContext.m_callStack (runContext i1) = []).
  { eapply prog_call_stack_empty; [| exact Hbefore | discriminate]. reflexivity. }
  destruct (proj2 (interpret_preserves pow fuel) _ _ _ _ Hline I) as (Hcs & _ & _ & Hout).
  split_and!.
  - rewrite prog_app, Hbefore.
    change (prog pow fuel (StatementLineCommand line :: after) i1)
      with (match command pow fuel (StatementLineCommand line) i1 with
            | (Parsing, i') => prog pow fuel after i'
            | stopped => stopped
            end).
    rewrite command_StatementLine_checked by exact Herr. rewrite Hline. reflexivity.
  - rewrite Hcs. exact Hcs1.
  - exact Hout.
Qed.

(** [define f(n) { halt }], then [1; f(2); 3], then [4]: only [1] is
    printed. *)
Lemma halt_ends_the_run_witness :
  let stop := {| m_name := "stop"; m_args := ["n"]; m_autos := [];
                 m_commands := [HaltStatement] |} in
  let line := [ExpressionStatement num1;
               ExpressionStatement (FunctionCallExpression "stop" [ConstantExpression 2%float]);
               ExpressionStatement (ConstantExpression 3%float)] in
  let result := prog pow_small 6
                  ([FuncDefCommand stop]
                   ++ StatementLineCommand line
                      :: [StatementLineCommand
                            [ExpressionStatement (ConstantExpression 4%float)]])
                  initial in
  fst result = Accepted /\ cout (snd result) = [1%float] /\
  RuntimeContext.m_callStack (runContext (snd result)) = [].
Proof.
  intros stop line result.
  destruct (halt_ends_the_run pow_small 6 [FuncDefCommand stop] line
              [StatementLineCommand [ExpressionStatement (ConstantExpression 4%float)]]
              (snd (prog pow_small 6 [FuncDefCommand stop] initial))
              (snd (interpretStatement pow_small 6 (StatementList line)
                      (stateOf (snd (prog pow_small 6 [FuncDefCommand stop] initial))))))
    as (Hprog & Hcs & _).
  - reflexivity.
  - reflexivity.
  - vm_compute. reflexivity.
  - unfold result. rewrite Hprog. split_and!; [reflexivity | vm_compute; reflexivity | exact Hcs].
Defined.

(** X16. Between commands no call is active: after any commands, unless
    the run is stuck in an evaluation without defined result, the call
    stack is empty, also when a runtime error or [halt] came out of nested
    calls. *)
Theorem call_stack_empty_between_commands pow fuel cmds status i :
  prog pow fuel cmds initial = (status, i) ->
  (forall r, status <> Stuck r) ->
  RuntimeContext.m_callStack (runContext i) = [].
Proof.
  intros Hprog Hstuck. eapply prog_call_stack_empty; [| exact Hprog | exact Hstuck].
  reflexivity.
Qed.

(** After [define fact(n) ...] and [fact(5) / 0], a runtime error. *)
Lemma call_stack_empty_between_commands_witness :
  RuntimeContext.m_callStack
    (runContext
       (snd (prog pow_small 40
               [FuncDefCommand define_fact;
                StatementLineCommand
                  [ExpressionStatement
                     (ArithmeticExpression
                        (FunctionCallExpression "fact" [ConstantExpression 5%float])
                        (ConstantExpression 0%float) OP_DIV)]] initial)))
  = [].
Proof.
  apply (call_stack_empty_between_commands pow_small 40
           [FuncDefCommand define_fact;
            StatementLineCommand
              [ExpressionStatement
                 (ArithmeticExpression
                    (FunctionCallExpression "fact" [ConstantExpression 5%float])
                    (ConstantExpression 0%float) OP_DIV)]]
           Parsing).
  - vm_compute. reflexivity.
  - discriminate.
Defined.

(** ** The memory stack *)

Lemma pop_inSync m :
  inSync m ->
  (MemoryStack.pop m = None <-> MemoryStack.m_pointerTypes m = []) /\
  (forall m', MemoryStack.pop m = Some m' ->
     inSync m' /\
     S (length (MemoryStack.m_pointerTypes m')) = length (MemoryStack.m_pointerTypes m) /\
     MemoryStack.m_charPointers m' = MemoryStack.m_charPointers m).
Proof.
  intros (H1 & H2 & H3). unfold MemoryStack.pop, inSync.
  destruct (MemoryStack.m_pointerTypes m) as [| [ | | ] types] eqn:E; simpl in *.
  - split; [tauto | discriminate].
  - destruct (MemoryStack.m_absynPointers m) as [| p ps]; simpl in *; [discriminate |].
    split; [split; discriminate |]. intros m' [= <-]. simpl. split_and!; auto.
  - destruct (MemoryStack.m_charListPointers m) as [| p ps]; simpl in *; [discriminate |].
    split; [split; discriminate |]. intros m' [= <-]. simpl. split_and!; auto.
  - destruct (MemoryStack.m_absExprListPointers m) as [| p ps]; simpl in *; [discriminate |].
    split; [split; discriminate |]. intros m' [= <-]. simpl. split_and!; auto.
Qed.

(** X17. The stack of pointer types keeps the three stacks of pointers in
    step: the agreement holds for the empty memory stack and is kept by
    every push, by [pop], by [addString] and by [useString]; a [pop] right
    after a push gives the memory stack back; and as long as the agreement
    holds, [pop] is undefined only on an empty memory stack and otherwise
    takes exactly one entry away. *)
Theorem memory_stack_in_sync :
  inSync MemoryStack.empty /\
  (forall p m,
     (inSync m -> inSync (MemoryStack.push p m)
                  /\ inSync (MemoryStack.pushCharList p m)
                  /\ inSync (MemoryStack.pushAbsExprList p m)
                  /\ inSync (MemoryStack.addString p m)
                  /\ inSync (MemoryStack.useString p m)) /\
     MemoryStack.pop (MemoryStack.push p m) = Some m /\
     MemoryStack.pop (MemoryStack.pushCharList p m) = Some m /\
     MemoryStack.pop (MemoryStack.pushAbsExprList p m) = Some m) /\
  (forall m,
     inSync m ->
     (MemoryStack.pop m = None <-> MemoryStack.m_pointerTypes m = []) /\
     (forall m', MemoryStack.pop m = Some m' ->
        inSync m' /\
        S (length (MemoryStack.m_pointerTypes m')) = length (MemoryStack.m_pointerTypes m))).
Proof.
  split_and!.
  - repeat split.
  - intros p m. split_and!.
    + intros (H1 & H2 & H3). unfold inSync. simpl. rewrite H1, H2, H3. repeat split.
    + destruct m. reflexivity.
    + destruct m. reflexivity.
    + destruct m. reflexivity.
  - intros m Hm. destruct (pop_inSync m Hm) as [Hnone Hsome]. split; [exact Hnone |].
    intros m' Hpop. destruct (Hsome m' Hpop) as (H1 & H2 & _). auto.
Qed.

Lemma memory_stack_in_sync_witness :
  inSync (MemoryStack.pushAbsExprList 2 (MemoryStack.pushCharList 1 (MemoryStack.push 0
            MemoryStack.empty))) /\
  MemoryStack.pop MemoryStack.empty = None.
Proof.
  destruct memory_stack_in_sync as (Hempty & Hpush & Hpop).
  split.
  - apply Hpush, Hpush, Hpush, Hempty.
  - apply (Hpop MemoryStack.empty Hempty). reflexivity.
Defined.

Lemma popN_inSync num : forall m,
  inSync m ->
  (MemoryStack.popN num m = None <-> length (MemoryStack.m_pointerTypes m) < num) /\
  (forall m', MemoryStack.popN num m = Some m' ->
     inSync m' /\
     length (MemoryStack.m_pointerTypes m') + num = length (MemoryStack.m_pointerTypes m) /\
     MemoryStack.m_charPointers m' = MemoryStack.m_charPointers m).
Proof.
  induction num as [| num IH]; intros m Hm; simpl.
  - split; [split; [discriminate | lia] |]. intros m' [= <-]. split_and!; [exact Hm | lia | reflexivity].
  - destruct (pop_inSync m Hm) as [Hnone Hsome].
    destruct (MemoryStack.pop m) as [m1 |] eqn:Hpop.
    + destruct (Hsome m1 eq_refl) as (Hm1 & Hlen & Hstr).
      destruct (IH m1 Hm1) as [IHnone IHsome]. split.
      * rewrite IHnone. lia.
      * intros m' H. destruct (IHsome m' H) as (K1 & K2 & K3).
        split_and!; [exact K1 | lia | congruence].
    + split; [| discriminate]. split; [intros _ | reflexivity].
      rewrite (proj1 Hnone eq_refl). simpl. lia.
Qed.

(** X18. [pop(num)] is defined exactly when at least [num] entries are
    tracked (the stacks being in step), and then takes away exactly
    [num] entries and leaves the tracked strings alone. *)
Theorem popN_defined num m :
  inSync m ->
  (MemoryStack.popN num m = None <-> length (MemoryStack.m_pointerTypes m) < num) /\
  (forall m', MemoryStack.popN num m = Some m' ->
     inSync m' /\
     length (MemoryStack.m_pointerTypes m') + num = length (MemoryStack.m_pointerTypes m) /\
     MemoryStack.m_charPointers m' = MemoryStack.m_charPointers m).
Proof. apply popN_inSync. Qed.

Lemma popN_defined_witness :
  MemoryStack.popN 3 (MemoryStack.push 1 (MemoryStack.push 0 MemoryStack.empty)) = None.
Proof.
  apply (popN_defined 3 (MemoryStack.push 1 (MemoryStack.push 0 MemoryStack.empty))).
  - repeat split.
  - simpl. lia.
Defined.

Lemma eraseFirst_notin p l : p ∉ l -> MemoryStack.eraseFirst p l = l.
Proof.
  induction l as [| q l IH]; intros H; simpl; [reflexivity |].
  apply not_elem_of_cons in H as [Hne H].
  destruct (Nat.eqb q p) eqn:E; [apply Nat.eqb_eq in E; congruence |].
  rewrite IH by exact H. reflexivity.
Qed.

(** X19. [useString] takes the first entry equal to the pointer out of
    the list of tracked strings and leaves the others in their order; a
    pointer that is not tracked leaves the list as it is. So the string of
    the token being reduced is found behind the string of a lookahead
    token: after [addString p] and then [addString q], [useString p]
    leaves [q] tracked in front of what was tracked before. *)
Theorem useString_takes_first p m :
  (forall l1 l2,
     MemoryStack.m_charPointers m = (l1 ++ p :: l2)%list -> p ∉ l1 ->
     MemoryStack.m_charPointers (MemoryStack.useString p m) = (l1 ++ l2)%list) /\
  (p ∉ MemoryStack.m_charPointers m ->
   MemoryStack.m_charPointers (MemoryStack.useString p m) = MemoryStack.m_charPointers m) /\
  (forall q,
     MemoryStack.m_charPointers
       (MemoryStack.useString p (MemoryStack.addString q (MemoryStack.addString p m)))
     = if Nat.eqb q p then p :: MemoryStack.m_charPointers m
       else q :: MemoryStack.m_charPointers m) /\
  MemoryStack.m_pointerTypes (MemoryStack.useString p m) = MemoryStack.m_pointerTypes m /\
  MemoryStack.m_absynPointers (MemoryStack.useString p m) = MemoryStack.m_absynPointers m.
Proof.
  split_and!; try reflexivity.
  - intros l1 l2 Hl Hnotin. simpl. rewrite Hl. clear Hl.
    induction l1 as [| q l1 IH]; simpl.
    + rewrite Nat.eqb_refl. reflexivity.
    + apply not_elem_of_cons in Hnotin as [Hne Hnotin].
      destruct (Nat.eqb q p) eqn:E; [apply Nat.eqb_eq in E; congruence |].
      rewrite IH by exact Hnotin. reflexivity.
  - intros H. simpl. apply eraseFirst_notin. exact H.
  - intros q. simpl. destruct (Nat.eqb q p); [reflexivity |].
    rewrite Nat.eqb_refl. reflexivity.
Qed.

Lemma useString_takes_first_witness :
  MemoryStack.m_charPointers
    (MemoryStack.useString 7
       (MemoryStack.addString 9 (MemoryStack.addString 7 (MemoryStack.addString 7
          MemoryStack.empty))))
  = [9; 7].
Proof.
  destruct (useString_takes_first 7
              (MemoryStack.addString 9 (MemoryStack.addString 7 (MemoryStack.addString 7
                 MemoryStack.empty)))) as (H & _).
  apply (H [9] [7]); [reflexivity |].
  intros Hin. apply list_elem_of_singleton in Hin. discriminate Hin.
Defined.

(** X20. Every rule of [expression] that allocates a node, the one for
    unary minus apart, leaves the node it returns on top of the stack of
    tracked [Absyn] pointers. *)
Theorem reduce_pushes_result rhs p result p' :
  (forall v2, rhs <> Parser.MINUS v2) ->
  (forall v2, rhs <> Parser.LPAREN_RPAREN v2) ->
  Parser.reduce rhs p = Some (result, p') ->
  head (MemoryStack.m_absynPointers (Parser.memStack p')) = Some result /\
  head (MemoryStack.m_pointerTypes (Parser.memStack p')) = Some MemoryStack.AbsynPointer /\
  Parser.next p <= result < Parser.next p'.
Proof.
  intros Hminus Hparen Hreduce.
  split; [eapply reduce_tracks_result; eauto |].
  assert (Htrack : forall f q q',
             (forall m m', f m = Some m' ->
                head (MemoryStack.m_pointerTypes m') = Some MemoryStack.AbsynPointer) ->
             Parser.withMemStack f q = Some q' ->
             head (MemoryStack.m_pointerTypes (Parser.memStack q'))
             = Some MemoryStack.AbsynPointer /\ Parser.next q' = Parser.next q).
  { intros f q q' Hf. unfold Parser.withMemStack.
    destruct (f (Parser.memStack q)) as [m |] eqn:E; [| discriminate].
    intros [= <-]. simpl. split; [eapply Hf; exact E | reflexivity]. }
  assert (Hpop : forall k r m m',
             MemoryStack.popAndPush k r m = Some m' ->
             head (MemoryStack.m_pointerTypes m') = Some MemoryStack.AbsynPointer).
  { intros k r m m'. unfold MemoryStack.popAndPush.
    destruct (MemoryStack.popN k m); [| discriminate]. intros [= <-]. reflexivity. }
  revert Hreduce.
  destruct rhs;
    try solve [exfalso; eapply Hminus; reflexivity | exfalso; eapply Hparen; reflexivity];
    unfold Parser.reduce, Parser.new; cbv beta iota zeta;
    match goal with
    | |- context [Parser.withMemStack ?f ?q] =>
        destruct (Parser.withMemStack f q) as [q' |] eqn:E; [| discriminate];
        intros [= <- <-];
        apply (Htrack f q q') in E;
          [destruct E as [E1 E2]; split; [exact E1 | rewrite E2; simpl; lia] |];
        intros m m' Hm; cbv beta in Hm;
        first [ injection Hm as <-; reflexivity | eapply Hpop; exact Hm ]
    end.
Qed.

(** [x + 1] after [x] and [1]: the sum is tracked in place of its
    operands. *)
Lemma reduce_pushes_result_witness :
  let p0 := snd (Parser.copystring "x" Parser.initial) in
  let p1 := {| Parser.heap := (1, NewVariableExpression 0) :: Parser.heap p0;
               Parser.next := 2;
               Parser.memStack := MemoryStack.push 1 (MemoryStack.useString 0
                                                        (Parser.memStack p0)) |} in
  let p2 := {| Parser.heap := (2, NewConstantExpression 1%float) :: Parser.heap p1;
               Parser.next := 3;
               Parser.memStack := MemoryStack.push 2 (Parser.memStack p1) |} in
  exists p3,
    Parser.reduce (Parser.Arithmetic 1 OP_PLUS 2) p2 = Some (3, p3) /\
    MemoryStack.m_absynPointers (Parser.memStack p3) = [3].
Proof.
  intros p0 p1 p2.
  destruct (Parser.reduce (Parser.Arithmetic 1 OP_PLUS 2) p2) as [[r p3] |] eqn:E;
    [| discriminate E].
  destruct (reduce_pushes_result (Parser.Arithmetic 1 OP_PLUS 2) p2 r p3) as (Hhead & _ & _).
  - discriminate.
  - discriminate.
  - exact E.
  - exists p3. injection E as <- <-. split; reflexivity.
Defined.

Lemma popAndPush_inSync k r m :
  inSync m ->
  (MemoryStack.popAndPush k r m = None <-> length (MemoryStack.m_pointerTypes m) < k) /\
  (forall m', MemoryStack.popAndPush k r m = Some m' ->
     inSync m' /\
     length (MemoryStack.m_pointerTypes m') + k = S (length (MemoryStack.m_pointerTypes m))).
Proof.
  intros Hm. destruct (popN_inSync k m Hm) as [Hnone Hsome].
  unfold MemoryStack.popAndPush.
  destruct (MemoryStack.popN k m) as [m1 |] eqn:E.
  - split.
    + split; [discriminate |]. intros H. apply Hnone in H. discriminate H.
    + intros m' [= <-]. destruct (Hsome m1 eq_refl) as ((H1 & H2 & H3) & Hlen & _).
      split; [| simpl; lia]. unfold inSync. simpl. rewrite H1, H2, H3. repeat split.
  - split; [| discriminate]. split; [intros _; apply Hnone; reflexivity | reflexivity].
Qed.

(** X21. The depth of the memory stack across one action of
    [expression], the stacks being in step before it: the action is
    undefined exactly when fewer entries are tracked than it pops;
    otherwise the stacks are in step after it and the depth has gone
    down by what the rule pops and up by one, except for parentheses
    and for unary minus, which leave the memory stack as it is. *)
Theorem reduce_depth rhs p :
  inSync (Parser.memStack p) ->
  (Parser.reduce rhs p = None <-> tracks p < pops rhs) /\
  (forall result p', Parser.reduce rhs p = Some (result, p') ->
     inSync (Parser.memStack p') /\
     tracks p' + pops rhs = tracks p + pushes rhs).
Proof.
  intros Hp. unfold tracks.
  destruct rhs; unfold Parser.reduce, Parser.new, Parser.withMemStack;
    cbn [Parser.memStack pops pushes].
  all: lazymatch goal with
    | |- context [MemoryStack.popAndPush ?k ?r ?m] =>
        destruct (popAndPush_inSync k r m Hp) as [Hnone Hsome];
        cbn [MemoryStack.useString MemoryStack.m_pointerTypes] in Hnone, Hsome;
        destruct (MemoryStack.popAndPush k r m) as [m1 |] eqn:E;
        [ split; [split; [discriminate | intros H; apply Hnone in H; discriminate H] |];
          intros result p' [= <- <-]; cbn [Parser.memStack];
          destruct (Hsome m1 eq_refl) as [K1 K2]; split; [exact K1 | lia]
        | split; [| discriminate];
          split; [intros _; apply (proj1 Hnone eq_refl) | reflexivity] ]
    | |- context [MemoryStack.push ?r ?m] =>
        split; [split; [discriminate | lia] |];
        intros result p' [= <- <-]; cbn [Parser.memStack];
        split; [| simpl; lia];
        destruct Hp as (H1 & H2 & H3); unfold inSync; simpl; rewrite H1, H2, H3;
        repeat split
    | |- _ =>
        split; [split; [discriminate | lia] |];
        intros result p' [= <- <-]; split; [exact Hp | simpl; lia]
    end.
Qed.

(** A sum with only one operand tracked: the rule pops two entries and
    finds one. *)
Lemma reduce_depth_witness :
  Parser.reduce (Parser.Arithmetic 0 OP_PLUS 1)
    {| Parser.heap := []; Parser.next := 2;
       Parser.memStack := MemoryStack.push 1 MemoryStack.empty |} = None.
Proof.
  apply (reduce_depth (Parser.Arithmetic 0 OP_PLUS 1)
           {| Parser.heap := []; Parser.next := 2;
              Parser.memStack := MemoryStack.push 1 MemoryStack.empty |}).
  - repeat split.
  - unfold tracks. simpl. lia.
Defined.

(** ** The position counters of the lexer *)

Lemma advance_app s1 s2 p :
  Lexer.advance (s1 +:+ s2) p = Lexer.advance s2 (Lexer.advance s1 p).
Proof.
  revert p. induction s1 as [| ch s1 IH]; intros p; simpl; [reflexivity |]. apply IH.
Qed.

Lemma advance_line s p :
  Lexer.line_nr (Lexer.advance s p) = (Lexer.line_nr p + Lexer.newlines s)%Z.
Proof.
  revert p. induction s as [| ch s IH]; intros p; simpl; [lia |].
  rewrite IH. destruct (Ascii.eqb ch (Ascii.ascii_of_nat 10)); simpl; lia.
Qed.

Lemma newlines_nonneg s : (0 <= Lexer.newlines s)%Z.
Proof.
  induction s as [| ch s IH]; simpl; [lia |].
  destruct (Ascii.eqb ch (Ascii.ascii_of_nat 10)); lia.
Qed.

Lemma advance_one_line s p :
  Lexer.newlines s = 0%Z -> Lexer.advance s p = snd (Lexer.adjust s p).
Proof.
  revert p. induction s as [| ch s IH]; intros p H; simpl in *.
  - destruct p as [l c]. unfold Lexer.yyleng. simpl. f_equal. lia.
  - pose proof (newlines_nonneg s) as Hs.
    destruct (Ascii.eqb ch (Ascii.ascii_of_nat 10)); [lia |].
    rewrite IH by lia. unfold Lexer.adjust, Lexer.yyleng. simpl. f_equal. lia.
Qed.

Lemma countChars_nulFree s p :
  Lexer.nulFree s = true -> Lexer.countChars s p = Lexer.advance s p.
Proof.
  revert p. induction s as [| ch s IH]; intros p H; simpl in *; [reflexivity |].
  apply andb_true_iff in H as [Hch Hs].
  destruct (Ascii.eqb ch Ascii.zero); [discriminate Hch |]. apply IH, Hs.
Qed.

Lemma countChars_nul before after p :
  Lexer.nulFree before = true ->
  Lexer.countChars (before +:+ String Ascii.zero after) p = Lexer.countChars before p.
Proof.
  revert p. induction before as [| ch before IH]; intros p H; simpl in *; [reflexivity |].
  apply andb_true_iff in H as [Hch Hs].
  destruct (Ascii.eqb ch Ascii.zero); [reflexivity |]. apply IH, Hs.
Qed.

(** X22. The position of the lexer is that of the input read so far, as
    long as no token that [count] handles holds a NUL character: after any
    such sequence of tokens (those whose rule calls [adjust] holding no
    newline) the counters are where the whole text read ends, and the line
    counter has advanced by the number of newlines of the text. [count]
    stops at the first NUL character of a token: what follows it in the
    token, newlines included, is not counted. *)
Theorem scan_position tokens p :
  (countedInFull tokens ->
   scan tokens p = Lexer.advance (text tokens) p /\
   Lexer.line_nr (scan tokens p) = (Lexer.line_nr p + Lexer.newlines (text tokens))%Z) /\
  (forall before after,
     Lexer.nulFree before = true ->
     snd (Lexer.count (before +:+ String Ascii.zero after) p) = snd (Lexer.count before p)).
Proof.
  split; [| intros before after H; apply countChars_nul, H].
  intros H.
  assert (Hscan : scan tokens p = Lexer.advance (text tokens) p).
  { revert p. induction H as [| [u yytext] tokens Htoken _ IH]; intros p; [reflexivity |].
    simpl. rewrite advance_app, IH. f_equal.
    destruct u; simpl in *.
    - symmetry. apply advance_one_line, Htoken.
    - apply countChars_nulFree, Htoken. }
  split; [exact Hscan |]. rewrite Hscan. apply advance_line.
Qed.

(** [x = 1], a newline, a comment of two lines and [y]. *)
Lemma scan_position_witness :
  scan [(Adjust, "x"); (Adjust, " "); (Adjust, "="); (Adjust, " "); (Adjust, "1");
        (Count, endl); (Count, "/* a" +:+ endl +:+ "b */"); (Adjust, "y")] Lexer.start
  = {| Lexer.line_nr := 3; Lexer.col_nr := 6 |}.
Proof.
  refine (eq_trans (proj1 (proj1 (scan_position _ Lexer.start) _)) _).
  - unfold countedInFull. repeat (constructor; [reflexivity |]). constructor.
  - reflexivity.
Defined.

(** X23. The position [yyerror] reports. When the last token read went
    through [adjust], it is the position where that token starts, the one
    [yylloc] holds for it. When the last token read is the newline that
    ends a line, it is the line after that newline and column 0, not the
    place of the newline. *)
Theorem yyerror_position yytext p :
  (let '(location, p') := Lexer.adjust yytext p in
   Lexer.yyerror yytext p' = (Lexer.first_line location, Lexer.first_column location)) /\
  (let '(location, p') := Lexer.count endl p in
   Lexer.yyerror endl p' = ((Lexer.first_line location + 1)%Z, 0%Z)).
Proof.
  split.
  - unfold Lexer.adjust, Lexer.yyerror, Lexer.locate. simpl. f_equal. lia.
  - unfold Lexer.count, Lexer.yyerror, Lexer.locate. simpl. reflexivity.
Qed.

(** ** Printing a list of names *)

Lemma string_append_assoc (a b c : string) : (a +:+ b) +:+ c = a +:+ (b +:+ c).
Proof.
  induction a as [| ch a IH]; [reflexivity |].
  change (String ch ((a +:+ b) +:+ c) = String ch (a +:+ (b +:+ c))).
  rewrite IH. reflexivity.
Qed.

Lemma printVariables_concat previous rest :
  printVariables previous rest = String.concat ", " (previous :: rest) +:+ endl.
Proof.
  revert previous. induction rest as [| name rest IH]; intros previous; [reflexivity |].
  change (printVariables previous (name :: rest))
    with (previous +:+ ", " +:+ printVariables name rest).
  rewrite IH.
  change (String.concat ", " (previous :: name :: rest))
    with (previous +:+ ", " +:+ String.concat ", " (name :: rest)).
  rewrite !string_append_assoc. reflexivity.
Qed.

(** X24. [printVariableList] prints the names of a list that is not
    empty in their order, a comma and a space between two of them and
    none after the last, and then ends the line; for the empty list it
    prints [(none)]. *)
Theorem printVariableList_joins varlist :
  printVariableList varlist
  = (if decide (varlist = []) then "(none)" else String.concat ", " varlist) +:+ endl.
Proof.
  destruct varlist as [| first rest]; [reflexivity |].
  rewrite decide_False by discriminate. apply printVariables_concat.
Qed.

(** ** Witnesses of the properties of the variable stacks *)

Lemma setVariable_then_getVariable_witness :
  RuntimeContext.getVariable
    (RuntimeContext.setVariable "x" 2%float
       (RuntimeContext.setVariable "y" 1%float RuntimeContext.empty)) "x" = Some 2%float /\
  RuntimeContext.m_variables
    (RuntimeContext.setVariable "x" 2%float
       (RuntimeContext.setVariable "y" 1%float RuntimeContext.empty)) !! "y"
  = Some [1%float].
Proof.
  pose proof (setVariable_then_getVariable "x" 2%float
                (RuntimeContext.setVariable "y" 1%float RuntimeContext.empty)) as H.
  split.
  - apply H.
  - destruct H as (_ & _ & H & _). rewrite H by discriminate. reflexivity.
Defined.

Lemma delVariable_after_addVariable_witness :
  exists c',
    RuntimeContext.delVariable "x" (RuntimeContext.addVariable "x" 1%float RuntimeContext.empty)
    = Some c' /\
    RuntimeContext.getVariable RuntimeContext.empty "x" = Some Number.zero /\
    RuntimeContext.getVariable c' "x" = None.
Proof.
  destruct (delVariable_after_addVariable "x" 1%float RuntimeContext.empty)
    as [(c' & Hdel & _ & _ & Hread) _].
  exists c'. split; [exact Hdel |]. apply Hread. reflexivity.
Defined.

(** ** Sequences of statements and expressions without side effects *)

(** X25. A list of statements runs as its two halves one after the
    other: the second half starts in the state the first half left, and
    is not run at all when the first half throws. *)
Theorem statement_list_splits pow fuel (first second : list Statement) st :
  interpretStatement pow fuel (StatementList (first ++ second)%list) st
  = (let* _ := interpretStatement pow fuel (StatementList first) in
     interpretStatement pow fuel (StatementList second)) st /\
  (forall ex st',
     interpretStatement pow fuel (StatementList first) st = (Throws ex, st') ->
     interpretStatement pow fuel (StatementList (first ++ second)%list) st = (Throws ex, st')).
Proof.
  assert (H : interpretStatement pow fuel (StatementList (first ++ second)%list) st
              = (let* _ := interpretStatement pow fuel (StatementList first) in
                 interpretStatement pow fuel (StatementList second)) st).
  { destruct fuel as [| n]; [reflexivity |]. simpl. apply interpretList_app. }
  split; [exact H |].
  intros ex st' Hthrows. rewrite H. unfold bind. rewrite Hthrows. reflexivity.
Qed.

Lemma statement_list_splits_witness :
  interpretStatement pow_small 10
    (StatementList ([BreakStatement] ++ [ExpressionStatement (ConstantExpression 1%float)])%list)
    {| context := RuntimeContext.empty; o := [] |}
  = (Throws BreakFlowException, {| context := RuntimeContext.empty; o := [] |}).
Proof.
  apply (statement_list_splits pow_small 10 [BreakStatement]
           [ExpressionStatement (ConstantExpression 1%float)]).
  reflexivity.
Defined.

Lemma sideEffectFree_evaluation pow fuel : forall e st r st',
  sideEffectFree e = true ->
  interpretExpression pow fuel e st = (r, st') ->
  st' = st /\
  r <> AssertFailed /\
  (forall ex, r = Throws ex -> exists message, ex = RuntimeException message).
Proof.
  induction fuel as [| n IH]; intros e st r st' Hfree H.
  - injection H as <- <-. split_and!; [reflexivity | discriminate | discriminate].
  - assert (Hoperand : forall operand (k : Number -> Interp Number),
               sideEffectFree operand = true ->
               (forall value r1 st1, k value st = (r1, st1) ->
                  st1 = st /\ r1 <> AssertFailed /\
                  (forall ex, r1 = Throws ex -> exists message, ex = RuntimeException message)) ->
               forall r1 st1,
                 (let* value := interpretExpression pow n operand in k value) st = (r1, st1) ->
                 st1 = st /\ r1 <> AssertFailed /\
                 (forall ex, r1 = Throws ex -> exists message, ex = RuntimeException message)).
    { intros operand k Hoperand Hk r1 st1. unfold bind.
      destruct (interpretExpression pow n operand st) as [r0 st0] eqn:E.
      destruct (IH _ _ _ _ Hoperand E) as (-> & Hassert & Hthrow).
      destruct r0 as [value | ex | | |].
      - apply Hk.
      - intros [= <- <-]. split_and!; [reflexivity | discriminate | exact Hthrow].
      - intros [= <- <-]. split_and!; [reflexivity | discriminate | discriminate].
      - exfalso. apply Hassert. reflexivity.
      - intros [= <- <-]. split_and!; [reflexivity | discriminate | discriminate]. }
    assert (Hret : forall (value : Number) r1 st1,
               ret value st = (r1, st1) ->
               st1 = st /\ r1 <> AssertFailed /\
               (forall ex, r1 = Throws ex -> exists message, ex = RuntimeException message)).
    { intros value r1 st1 [= <- <-]. split_and!; [reflexivity | discriminate | discriminate]. }
    destruct e as [constant | name | name type | name type | lhs rhs type | lhs rhs type
                   | expr | name expr | name argList | expr];
      simpl in Hfree; try discriminate Hfree; simpl in H.
    + apply (Hret _ _ _ H).
    + unfold getVariable in H.
      destruct (RuntimeContext.getVariable (context st) name); injection H as <- <-;
        split_and!; try reflexivity; discriminate.
    + apply andb_true_iff in Hfree as [H1 H2].
      apply (Hoperand lhs _ H1) in H; [exact H |]. intros l r1 st1.
      apply (Hoperand rhs _ H2). intros r0 r2 st2.
      destruct type; simpl; unfold throwError; try apply Hret;
        (destruct (Number.is_zero r0); [| apply Hret]);
        intros [= <- <-]; (split_and!; [reflexivity | discriminate |]);
        intros ? [= <-]; eexists; reflexivity.
    + apply andb_true_iff in Hfree as [H1 H2].
      apply (Hoperand lhs _ H1) in H; [exact H |]. intros l r1 st1.
      apply (Hoperand rhs _ H2). intros r0. apply Hret.
    + apply (Hoperand expr _ Hfree) in H; [exact H |]. intros value. apply Hret.
    + apply (Hoperand expr _ Hfree) in H; [exact H |]. intros value. apply Hret.
Qed.

(** X26. Evaluating an expression that holds no assignment, no
    increment or decrement and no call leaves the variables, the call
    stack and the output as they are, also when it throws; it fails no
    assertion, and the only exception it throws is a runtime error. *)
Theorem side_effect_free_evaluation pow fuel e st r st' :
  sideEffectFree e = true ->
  interpretExpression pow fuel e st = (r, st') ->
  st' = st /\
  r <> AssertFailed /\
  (forall ex, r = Throws ex -> exists message, ex = RuntimeException message).
Proof. apply sideEffectFree_evaluation. Qed.

(** [x / 0] *)
Lemma side_effect_free_evaluation_witness :
  exists message,
    interpretExpression pow_small 10
      (ArithmeticExpression (VariableExpression "x") (ConstantExpression 0%float) OP_DIV)
      {| context := RuntimeContext.empty; o := [] |}
    = (Throws (RuntimeException message), {| context := RuntimeContext.empty; o := [] |}).
Proof.
  destruct (interpretExpression pow_small 10
              (ArithmeticExpression (VariableExpression "x") (ConstantExpression 0%float) OP_DIV)
              {| context := RuntimeContext.empty; o := [] |}) as [r st'] eqn:E.
  destruct (side_effect_free_evaluation pow_small 10
              (ArithmeticExpression (VariableExpression "x") (ConstantExpression 0%float) OP_DIV)
              {| context := RuntimeContext.empty; o := [] |} r st' eq_refl E)
    as (-> & _ & Hthrow).
  vm_compute in E. injection E as <-.
  destruct (Hthrow _ eq_refl) as [message Hmessage].
  exists message. rewrite Hmessage. reflexivity.
Defined.
